(** * Memory engine of ai-town (convex/lib/memory.ts)

    A shallow embedding of the memory ingestion, search and ranking code of
    [convex/lib/memory.ts], and the properties of it that the specification
    states.

    Conventions of the embedding.
    - A JavaScript [number] is an IEEE 754 binary64 value: Rocq's primitive
      [float].  Arithmetic, comparisons, [NaN] and the infinities are the
      primitive ones.
    - A JavaScript string is a [string]; its characters stand for the code
      units below 256.
    - A Convex table is the list of its rows in creation order ([insert]
      appends).  An index query with [.order('desc').first()] is the last
      matching row, a query with [.first()] the first one.
    - [await], [asyncMap] and [Promise.all] run their callbacks in list order;
      a thrown error aborts the enclosing function.  A Convex mutation whose
      handler throws commits nothing.
    - [Array.prototype.sort] is a stable sort; [count] is an integer.
    - The collaborators that are not part of the file (the vector index, the
      embedding provider, the chat completion service, the clock, the message
      mapper of [chat.js] and [conversation.js]) are the fields of [Env].
      [MemoryDB] is embedded for a configured vector index
      ([pineconeAvailable()] is true). *)

From Stdlib Require Import ZArith String Ascii Bool Lia Floats List Sorted Permutation.
Import ListNotations.

Local Open Scope string_scope.
Local Open Scope list_scope.
Local Open Scope Z_scope.
Set Warnings "-inexact-float".

(** ** JavaScript numbers *)

Module JS.

Definition number := float.

Definition NaN : number := PrimFloat.nan.
Definition Infinity : number := PrimFloat.infinity.

Definition isNaN (x : number) : bool := PrimFloat.is_nan x.

(** The number whose mathematical value is the integer [z], rounded to
    nearest-even (exact below 2^53). *)
Definition Number_of_Z (z : Z) : number :=
  SF2Prim (binary_normalize prec emax z 0 false).

(** [x] is the zero with the sign bit set. *)
Definition is_neg_zero (x : number) : bool :=
  PrimFloat.is_zero x && PrimFloat.get_sign x.

Definition is_pos_zero (x : number) : bool :=
  PrimFloat.is_zero x && negb (PrimFloat.get_sign x).

(** [Math.min(...values)]: starts from [+Infinity], any [NaN] argument makes
    the result [NaN], and [-0] is below [+0]. *)
Definition Math_min (values : list number) : number :=
  fold_left
    (fun lowest v =>
       if isNaN lowest || isNaN v then NaN
       else if is_neg_zero v && is_pos_zero lowest then v
       else if (v <? lowest)%float then v else lowest)
    values Infinity.

(** [Math.max(...values)]: starts from [-Infinity]. *)
Definition Math_max (values : list number) : number :=
  fold_left
    (fun highest v =>
       if isNaN highest || isNaN v then NaN
       else if is_pos_zero v && is_neg_zero highest then v
       else if (highest <? v)%float then v else highest)
    values PrimFloat.neg_infinity.

(** [Math.floor]. *)
Definition Math_floor (x : number) : number :=
  match Prim2SF x with
  | S754_finite s m e =>
      if 0 <=? e then x
      else
        let q := Z.shiftr (cond_Zopp s (Zpos m)) (- e) in
        if q =? 0 then PrimFloat.zero else Number_of_Z q
  | _ => x
  end.

(** The integer part of a finite number (rounding towards zero); [None] for
    [NaN] and the infinities. *)
Definition truncate (x : number) : option Z :=
  match Prim2SF x with
  | S754_zero _ => Some 0
  | S754_finite s m e =>
      Some (cond_Zopp s (if 0 <=? e then Zpos m * 2 ^ e else Zpos m / 2 ^ (- e)))
  | _ => None
  end.

(** [ToInt32]: the integer part modulo 2^32, read as a signed 32-bit integer;
    [NaN] and the infinities give 0. *)
Definition ToInt32 (x : number) : Z :=
  match truncate x with
  | None => 0
  | Some z =>
      let r := z mod 2 ^ 32 in
      if 2 ^ 31 <=? r then r - 2 ^ 32 else r
  end.

(** The bitwise operator [x ^ y] of JavaScript: exclusive or of the 32-bit
    integers of both operands. *)
Definition bitxor (x y : number) : number :=
  Number_of_Z (Z.lxor (ToInt32 x) (ToInt32 y)).

(** A number used as a condition: [0], [-0] and [NaN] are false. *)
Definition truthy (x : number) : bool :=
  negb (PrimFloat.is_zero x || isNaN x).

(** *** Numbers read from strings *)

(** The number nearest to [m * 10 ^ e10] (ties to even), negated when [neg].
    For a negative [e10] the quotient is computed with at least 64 significant
    bits and a sticky last bit, so that the final rounding is the rounding of
    the exact value. *)
Definition Number_of_decimal (neg : bool) (m : N) (e10 : Z) : number :=
  match m with
  | N0 => if neg then PrimFloat.neg_zero else PrimFloat.zero
  | Npos p =>
      let sf :=
        if 0 <=? e10 then binary_normalize prec emax (Zpos p * 10 ^ e10) 0 false
        else
          let d := 10 ^ (- e10) in
          let s := Z.max 0 (Z.log2 d - Z.log2 (Zpos p) + 66) in
          let (q, r) := Z.div_eucl (Zpos p * 2 ^ s) d in
          binary_normalize prec emax (if r =? 0 then 2 * q else 2 * q + 1) (- (s + 1)) false in
      let f := SF2Prim sf in
      if neg then (- f)%float else f
  end.

(** White space that [parseFloat] and [parseInt] skip: TAB, LF, VT, FF, CR,
    SP and NBSP. *)
Definition isWhiteSpace (c : ascii) : bool :=
  let n := N_of_ascii c in
  ((9 <=? n) && (n <=? 13) || (n =? 32) || (n =? 160))%N.

Definition digitValue (c : ascii) : option N :=
  let n := N_of_ascii c in
  if ((48 <=? n) && (n <=? 57))%N then Some (n - 48)%N else None.

Fixpoint trimStart (s : string) : string :=
  match s with
  | String c r => if isWhiteSpace c then trimStart r else s
  | EmptyString => s
  end.

(** A maximal run of decimal digits: the value accumulated onto [acc], the
    number of digits read added to [count], and the rest of the string. *)
Fixpoint readDigits (s : string) (acc count : N) : N * N * string :=
  match s with
  | String c r =>
      match digitValue c with
      | Some d => readDigits r (10 * acc + d)%N (count + 1)%N
      | None => (acc, count, s)
      end
  | EmptyString => (acc, count, s)
  end.

Definition readSign (s : string) : bool * string :=
  match s with
  | String "-" r => (true, r)
  | String "+" r => (false, r)
  | _ => (false, s)
  end.

(** An optional exponent part [e], [E] with an optional sign and digits; an
    incomplete one is not part of the number. *)
Definition readExponent (s : string) : Z :=
  match s with
  | String c r =>
      if (Ascii.eqb c "e" || Ascii.eqb c "E")%char then
        let (neg, r') := readSign r in
        let '(v, n, _) := readDigits r' 0%N 0%N in
        if (n =? 0)%N then 0 else if neg then - Z.of_N v else Z.of_N v
      else 0
  | EmptyString => 0
  end.

(** [parseFloat]: leading white space is skipped, then the longest prefix that
    is a decimal literal (optional sign, [Infinity], digits with an optional
    fraction and exponent) is converted; [NaN] when there is none. *)
Definition parseFloat (input : string) : number :=
  let (neg, s) := readSign (trimStart input) in
  if String.prefix "Infinity" s then
    (if neg then PrimFloat.neg_infinity else Infinity)
  else
    let '(ip, ni, s1) := readDigits s 0%N 0%N in
    let '(fp, nf, s2) :=
      match s1 with
      | String "." r => readDigits r ip 0%N
      | _ => (ip, 0%N, s1)
      end in
    if (ni + nf =? 0)%N then NaN
    else Number_of_decimal neg fp (readExponent s2 - Z.of_N nf).

(** [parseInt(ch)] for a string [ch] of one character, as in
    [parseInt(importanceRaw[i])]: the digit, else [NaN]. *)
Definition parseInt_char (c : ascii) : number :=
  match digitValue c with
  | Some d => Number_of_Z (Z.of_N d)
  | None => NaN
  end.

End JS.

Import JS.

(** ** Results of functions that may throw *)

(** The errors the code throws: the [Error] of [getMemoryByEmbeddingId], the
    [TypeError] of a property read on [undefined], and the rejection of
    arguments that do not match the declared validator of a function. *)
Inductive Error :=
| NoMemoryFound (playerId embeddingId : N)
| TypeError (reading : string)
| ArgumentValidationError (field : string).

Inductive Result (A : Type) : Type :=
| Ok (a : A)
| Throw (e : Error).
Arguments Ok {A} a.
Arguments Throw {A} e.

Definition isOk {A} (r : Result A) : bool :=
  match r with Ok _ => true | Throw _ => false end.

(** ** Documents *)

(** Document ids ([Id<'players'>], [Id<'memories'>], ...). *)
Definition Id := N.

Definition vector := list number.

(** The tagged payload of a memory; [data.type] is ['conversation'] for the
    first constructor. *)
Inductive MemoryData :=
| ConversationData (conversationId : Id)
| OtherData (type : string).

Definition isConversationData (d : MemoryData) : bool :=
  match d with ConversationData _ => true | OtherData _ => false end.

(** [data.conversationId === conversationId]. *)
Definition dataConversationIs (d : MemoryData) (conversationId : Id) : bool :=
  match d with
  | ConversationData c => (c =? conversationId)%N
  | OtherData _ => false
  end.

Record Embedding := {
  embedding_id : Id;
  embedding_creationTime : number;
  embedding_playerId : Id;
  embedding : vector;
  text : string
}.

Record Memory := {
  memory_id : Id;
  memory_creationTime : number;
  playerId : Id;
  description : string;
  embeddingId : Id;
  importance : number;
  data : MemoryData
}.

Record MemoryAccess := {
  access_id : Id;
  access_creationTime : number;
  memoryId : Id
}.

(** A journal entry; [data.type] is ['talking'] for the first constructor.
    Entries of other types may carry a [conversationId] too. *)
Inductive EntryData :=
| Talking (conversationId : Id) (audience : list Id) (content : string)
| OtherEntry (type : string) (conversationId : option Id).

Record JournalEntry := {
  entry_id : Id;
  entry_creationTime : number;
  entry_playerId : Id;
  entry_data : EntryData
}.

Definition entryConversationIs (d : EntryData) (conversationId : Id) : bool :=
  match d with
  | Talking c _ _ => (c =? conversationId)%N
  | OtherEntry _ (Some c) => (c =? conversationId)%N
  | OtherEntry _ None => false
  end.

Definition isTalking (d : EntryData) : bool :=
  match d with Talking _ _ _ => true | OtherEntry _ _ => false end.

(** The message a journal entry is shown as ([chat.js]). *)
Record Message := {
  from : Id;
  to : list Id;
  ts : number;
  message_content : string
}.

Record ChatMessage := { role : string; content : string }.

(** ** The document store *)

Record DB := {
  memories : list Memory;
  embeddings : list Embedding;
  memoryAccesses : list MemoryAccess;
  journal : list JournalEntry;
  nextId : Id
}.

(** [.order('desc').first()] over the rows selected by [p]. *)
Definition lastWhere {A} (p : A -> bool) (rows : list A) : option A :=
  find p (rev rows).

(** [.first()] over the rows selected by [p]. *)
Definition firstWhere {A} (p : A -> bool) (rows : list A) : option A :=
  find p rows.

(** The index ranges the queries use, named after the indexes. *)
Definition by_playerId_embeddingId (p e : Id) (m : Memory) : bool :=
  (m.(playerId) =? p)%N && (m.(embeddingId) =? e)%N.

Definition by_memoryId (id : Id) (a : MemoryAccess) : bool :=
  (a.(memoryId) =? id)%N.

Definition by_text (t : string) (e : Embedding) : bool :=
  String.eqb e.(text) t.

(** [by_playerId_type] with [data.type] equal to ['conversation']. *)
Definition by_playerId_conversation (p : Id) (m : Memory) : bool :=
  (m.(playerId) =? p)%N && isConversationData m.(data).

(** A query: reads the store, may throw. *)
Definition Query (A : Type) := DB -> Result A.

(** A mutation handler: reads and writes the store, may throw; the store it
    returns is committed when it does not throw. *)
Definition Mutation (A : Type) := DB -> Result (A * DB).

Definition mret {A} (a : A) : Mutation A := fun db => Ok (a, db).

Definition mbind {A B} (m : Mutation A) (k : A -> Mutation B) : Mutation B :=
  fun db =>
    match m db with
    | Ok (a, db') => k a db'
    | Throw e => Throw e
    end.

Definition mthrow {A} (e : Error) : Mutation A := fun _ => Throw e.

(** A query run inside a mutation. *)
Definition mquery {A} (q : Query A) : Mutation A :=
  fun db =>
    match q db with
    | Ok a => Ok (a, db)
    | Throw e => Throw e
    end.

Declare Scope mutation_scope.
Delimit Scope mutation_scope with mutation.
Notation "x <- m ;; k" := (mbind m (fun x => k))
  (at level 61, m at next level, right associativity) : mutation_scope.

(** [asyncMap(list, f)] inside a mutation. *)
Fixpoint asyncMapM {A B} (f : A -> Mutation B) (l : list A) : Mutation (list B) :=
  match l with
  | [] => mret []
  | a :: l' =>
      (b <- f a ;;
       bs <- asyncMapM f l' ;;
       mret (b :: bs))%mutation
  end.

(** [asyncMap(list, f)] inside a query. *)
Fixpoint asyncMapQ {A B} (f : A -> Query B) (l : list A) : Query (list B) :=
  fun db =>
    match l with
    | [] => Ok []
    | a :: l' =>
        match f a db with
        | Throw e => Throw e
        | Ok b =>
            match asyncMapQ f l' db with
            | Throw e => Throw e
            | Ok bs => Ok (b :: bs)
            end
        end
    end.

(** [ctx.db.insert('memoryAccesses', { memoryId })].  The code does not set
    [_creationTime]: the backend stamps every row it inserts.  The stamp is
    taken to be [now], the clock reading of the handler; the backend's own
    reading is at or after it, and may differ from row to row. *)
Definition insertMemoryAccess (now : number) (memoryId : Id) : Mutation Id :=
  fun db =>
    let id := nextId db in
    Ok (id,
        {| memories := memories db;
           embeddings := embeddings db;
           memoryAccesses :=
             memoryAccesses db ++
               [{| access_id := id; access_creationTime := now; memoryId := memoryId |}];
           journal := journal db;
           nextId := N.succ id |}).

(** [ctx.db.insert('embeddings', { playerId, embedding, text })]; the stamp
    [_creationTime] is the backend's, taken to be [now] as above. *)
Definition insertEmbedding (now : number) (playerId : Id) (embedding : vector)
    (text : string) : Mutation Id :=
  fun db =>
    let id := nextId db in
    Ok (id,
        {| memories := memories db;
           embeddings :=
             embeddings db ++
               [{| embedding_id := id; embedding_creationTime := now;
                   embedding_playerId := playerId; embedding := embedding;
                   text := text |}];
           memoryAccesses := memoryAccesses db;
           journal := journal db;
           nextId := N.succ id |}).

(** [ctx.db.insert('memories', { ...memory, embeddingId })]; the stamp
    [_creationTime] is the backend's, taken to be [now] as above. *)
Definition insertMemory (now : number) (playerId : Id) (description : string)
    (importance : number) (data : MemoryData) (embeddingId : Id) : Mutation Id :=
  fun db =>
    let id := nextId db in
    Ok (id,
        {| memories :=
             memories db ++
               [{| memory_id := id; memory_creationTime := now;
                   playerId := playerId; description := description;
                   embeddingId := embeddingId; importance := importance;
                   data := data |}];
           embeddings := embeddings db;
           memoryAccesses := memoryAccesses db;
           journal := journal db;
           nextId := N.succ id |}).

(** ** Arrays *)

(** [Array.prototype.sort(comparefn)]: a stable sort.  [x] comes before [y]
    in the array being sorted; it moves behind [y] when [comparefn(x, y) > 0],
    and a [NaN] result counts as [+0].  For a consistent comparator this is
    the order ECMAScript fixes.  For a comparator that is not consistent (one
    that returns [NaN] for some pairs only) ECMAScript leaves the order to the
    engine, and this definition gives one of the possible orders; what is
    stated about sorted results is stated for consistent comparators. *)
Fixpoint sortInsert {A} (comparefn : A -> A -> number) (x : A) (sorted : list A)
    : list A :=
  match sorted with
  | [] => [x]
  | y :: rest =>
      if (0 <? comparefn x y)%float then y :: sortInsert comparefn x rest
      else x :: sorted
  end.

Definition Array_sort {A} (comparefn : A -> A -> number) (l : list A) : list A :=
  fold_right (sortInsert comparefn) [] l.

(** [array.slice(0, end)] for an integer [end]; a negative [end] counts from
    the end of the array. *)
Definition Array_slice0 {A} (l : list A) (end_ : Z) : list A :=
  let len := Z.of_nat (length l) in
  let final := if end_ <? 0 then Z.max (len + end_) 0 else Z.min end_ len in
  firstn (Z.to_nat final) l.

(** The elements of an array with their indices, for callbacks
    [(element, idx) => ...]. *)
Definition indexed {A} (l : list A) : list (nat * A) :=
  combine (seq 0 (length l)) l.

(** [array.pop()]: the last element ([undefined], here [None], when the array
    is empty) and the array without it. *)
Definition Array_pop {A} (l : list A) : option A * list A :=
  match rev l with
  | [] => (None, [])
  | x :: r => (Some x, rev r)
  end.

(** ** Retrieval: hydration, scoring and ranking *)

Record Candidate := { candidate_id : Id; score : number }.

Record ScoredMemory := { memory : Memory; overallScore : number }.

Definition getMemoryByEmbeddingId (playerId embeddingId : Id) : Query Memory :=
  fun db =>
    let doc := lastWhere (by_playerId_embeddingId playerId embeddingId) (memories db) in
    match doc with
    | None => Throw (NoMemoryFound playerId embeddingId)
    | Some doc => Ok doc
    end.

(** The internal query [getMemories]. *)
Definition getMemories (playerId : Id) (embeddingIds : list Id) : Query (list Memory) :=
  asyncMapQ (fun id => getMemoryByEmbeddingId playerId id) embeddingIds.

Definition normalize (value : number) (range : number * number) : number :=
  let (min, max) := range in
  ((value - min) / (max - min))%float.

Definition makeRange (values : list number) : number * number :=
  let min := Math_min values in
  let max := Math_max values in
  (min, max).

(** The callback of [recencyScore] in [accessMemories]. *)
Definition recencyOf (ts : number) (memory : Memory) : Query number :=
  fun db =>
    let access := lastWhere (by_memoryId memory.(memory_id)) (memoryAccesses db) in
    match access with
    | None => Ok 1%float
    | Some _ =>
        let accessTime :=
          match access with
          | Some a => a.(access_creationTime)
          | None => memory.(memory_creationTime)
          end in
        Ok (bitxor 0.99
              (Math_floor ((((ts - accessTime) / 1000) / 60) / 60)))%float
    end.

(** The callback of [memoryScores]: [candidates[idx]] may be [undefined], and
    reading [.score] of it throws; [recencyScore[idx]] may be [undefined],
    which is [NaN] in arithmetic. *)
Definition scoreOf (candidates : list Candidate) (recencyScore : list number)
    (relevanceRange importanceRange recencyRange : number * number)
    (entry : nat * Memory) : Mutation ScoredMemory :=
  let (idx, memory) := entry in
  match nth_error candidates idx with
  | None => mthrow (TypeError "score")
  | Some c =>
      mret {| memory := memory;
              overallScore :=
                (normalize c.(score) relevanceRange +
                 normalize memory.(importance) importanceRange +
                 normalize (nth idx recencyScore NaN) recencyRange)%float |}
  end.

(** The first part of the handler of the internal mutation
    [accessMemories]: the candidates hydrated and scored, in the order of
    [candidates]. *)
Definition memoryScores (ts : number) (playerId : Id) (candidates : list Candidate)
    : Mutation (list ScoredMemory) :=
  (relatedMemories <-
     asyncMapM (fun c => mquery (getMemoryByEmbeddingId playerId c.(candidate_id)))
       candidates ;;
   recencyScore <- asyncMapM (fun memory => mquery (recencyOf ts memory)) relatedMemories ;;
   let relevanceRange := makeRange (map score candidates) in
   let importanceRange := makeRange (map importance relatedMemories) in
   let recencyRange := makeRange recencyScore in
   asyncMapM (scoreOf candidates recencyScore relevanceRange importanceRange recencyRange)
     (indexed relatedMemories))%mutation.

(** The comparator of the sort: [(a, b) => b.overallScore - a.overallScore]. *)
Definition byScoreDescending (a b : ScoredMemory) : number :=
  (b.(overallScore) - a.(overallScore))%float.

(** The handler of the internal mutation [accessMemories]; [now] is
    [Date.now()], also the creation time of the rows inserted. *)
Definition accessMemories_handler (now : number) (playerId : Id)
    (candidates : list Candidate) (count : Z) : Mutation (list ScoredMemory) :=
  (let ts := now in
   memoryScores <- memoryScores ts playerId candidates ;;
   let memoryScores := Array_sort byScoreDescending memoryScores in
   let accessed := Array_slice0 memoryScores count in
   _ <- asyncMapM (fun a => insertMemoryAccess now a.(memory).(memory_id)) accessed ;;
   mret accessed)%mutation.

(** [data.type]: ['conversation'] for a conversation payload; the other
    payloads carry their own type. *)
Definition dataType (d : MemoryData) : string :=
  match d with
  | ConversationData _ => "conversation"
  | OtherData type => type
  end.

(** [filterMemoriesType]: the scored memories whose [data.type] is one of
    [memoryTypes]. *)
Definition filterMemoriesType (memoryTypes : list string) (memories : list ScoredMemory)
    : list ScoredMemory :=
  filter
    (fun m => existsb (fun t => String.eqb t (dataType m.(memory).(data))) memoryTypes)
    memories.

(** ** Ingestion: drafts and the internal mutation [addMemories] *)

(** [NewMemory]: a draft, its importance optional. *)
Module NewMemory.
Record t := {
  playerId : Id;
  description : string;
  data : MemoryData;
  importance : option number
}.
End NewMemory.

(** [NewMemoryWithEmbedding]: the argument of the internal mutation.  The
    validator declares [embedding: v.array(v.number())]; the action may hand
    over [undefined] (here [None]), which the validator rejects. *)
Module NewMemoryWithEmbedding.
Record t := {
  playerId : Id;
  description : string;
  data : MemoryData;
  importance : number;
  embedding : option vector
}.
End NewMemoryWithEmbedding.

Definition hasEmbedding (m : NewMemoryWithEmbedding.t) : bool :=
  match NewMemoryWithEmbedding.embedding m with Some _ => true | None => false end.

(** The callback of the internal mutation [addMemories]. *)
Definition addMemory (now : number) (memoryWithEmbedding : NewMemoryWithEmbedding.t)
    : Mutation Id :=
  match NewMemoryWithEmbedding.embedding memoryWithEmbedding with
  | None => mthrow (ArgumentValidationError "embedding")
  | Some embedding =>
      let playerId := NewMemoryWithEmbedding.playerId memoryWithEmbedding in
      let text := NewMemoryWithEmbedding.description memoryWithEmbedding in
      (embeddingId <- insertEmbedding now playerId embedding text ;;
       _ <- insertMemory now playerId text
              (NewMemoryWithEmbedding.importance memoryWithEmbedding)
              (NewMemoryWithEmbedding.data memoryWithEmbedding) embeddingId ;;
       mret embeddingId)%mutation
  end.

(** The internal mutation [addMemories]: the arguments are checked against
    the validator, then every pair is inserted. *)
Definition addMemories_handler (now : number) (memories : list NewMemoryWithEmbedding.t)
    : Mutation (list Id) :=
  if forallb hasEmbedding memories then asyncMapM (addMemory now) memories
  else mthrow (ArgumentValidationError "embedding").

(** [checkEmbeddingCache], the internal query [getEmbeddingsByText]: for every
    text the vector of the first embedding row with that text, or [null]. *)
Definition checkEmbeddingCache (texts : list string) : Query (list (option vector)) :=
  asyncMapQ
    (fun text db =>
       match firstWhere (by_text text) (embeddings db) with
       | Some existing => Ok (Some existing.(embedding))
       | None => Ok None
       end)
    texts.

(** The [for] loop over the characters of [importanceRaw]: the first
    character that [parseInt] reads as a number, else the initial value. *)
Fixpoint firstDigit (importanceRaw : string) (importance : number) : number :=
  match importanceRaw with
  | EmptyString => importance
  | String c rest =>
      let number := parseInt_char c in
      if negb (isNaN number) then number else firstDigit rest importance
  end.

(** The importance computed from the reply of the language model: the
    statements between [let importance = NaN] and the [return]. *)
Definition importanceOfReply (importanceRaw : string) : number :=
  let importance := NaN in
  let importance := firstDigit importanceRaw importance in
  let importance := parseFloat importanceRaw in
  if isNaN importance then 5%float else importance.

(** [cachedEmbeddings.map((cached) => cached || missingEmbeddings.pop()!)],
    with the array [missingEmbeddings] threaded through the calls. *)
Fixpoint swapMisses (cachedEmbeddings : list (option vector))
    (missingEmbeddings : list vector) : list (option vector) :=
  match cachedEmbeddings with
  | [] => []
  | Some cached :: rest => Some cached :: swapMisses rest missingEmbeddings
  | None :: rest =>
      let (popped, missingEmbeddings') := Array_pop missingEmbeddings in
      popped :: swapMisses rest missingEmbeddings'
  end.

(** [memoriesWithoutEmbedding.filter((memory, idx) => !cachedEmbeddings[idx])
      .map((memory) => memory.description)]. *)
Definition cacheMissesOf (memoriesWithoutEmbedding : list NewMemory.t)
    (cachedEmbeddings : list (option vector)) : list string :=
  map (fun entry => NewMemory.description (snd entry))
    (filter
       (fun entry =>
          match nth (fst entry) cachedEmbeddings None with
          | Some _ => false
          | None => true
          end)
       (indexed memoriesWithoutEmbedding)).

(** ** The collaborators and the actions of [MemoryDB] *)

(** The collaborators are taken to answer: the vector index, the embedding
    provider and the language model return a value for every request.  A
    promise of theirs that rejects is not modelled, so an action that throws
    here throws from the code of [memory.ts] itself (a missing memory, the
    argument validator, the first of no messages). *)

Record Env := {
  (** [queryVectors('embeddings', embedding, { playerId }, limit)] *)
  queryVectors : vector -> Id -> Z -> list Candidate;
  fetchEmbeddingBatch : list string -> list vector;
  (** [chatGPTCompletion({ messages, max_tokens })], its [content] *)
  chatGPTCompletion : list ChatMessage -> Z -> string;
  Date_now : number;
  clientMessageMapper : DB -> JournalEntry -> Message;
  chatHistoryFromMessages : list Message -> list ChatMessage
}.

(** What an action can change: the store, and the requests sent to the
    embedding provider, to the language model and to the vector index. *)
Record World := {
  store : DB;
  embeddingRequests : list (list string);
  completionRequests : list (list ChatMessage);
  upserts : list (list (Id * option vector * Id))
}.

Definition Action (A : Type) := World -> Result A * World.

Definition aret {A} (a : A) : Action A := fun w => (Ok a, w).

Definition abind {A B} (m : Action A) (k : A -> Action B) : Action B :=
  fun w =>
    match m w with
    | (Ok a, w') => k a w'
    | (Throw e, w') => (Throw e, w')
    end.

Definition athrow {A} (e : Error) : Action A := fun w => (Throw e, w).

Declare Scope action_scope.
Delimit Scope action_scope with action.
Notation "x <- m ;; k" := (abind m (fun x => k))
  (at level 61, m at next level, right associativity) : action_scope.

(** [ctx.runQuery]: the store is read, never written. *)
Definition runQuery {A} (q : Query A) : Action A :=
  fun w => (q (store w), w).

(** [ctx.runMutation]: the writes of a handler that throws are dropped. *)
Definition runMutation {A} (m : Mutation A) : Action A :=
  fun w =>
    match m (store w) with
    | Ok (a, db') =>
        (Ok a,
         {| store := db';
            embeddingRequests := embeddingRequests w;
            completionRequests := completionRequests w;
            upserts := upserts w |})
    | Throw e => (Throw e, w)
    end.

Fixpoint asyncMap {A B} (f : A -> Action B) (l : list A) : Action (list B) :=
  match l with
  | [] => aret []
  | a :: l' =>
      (b <- f a ;;
       bs <- asyncMap f l' ;;
       aret (b :: bs))%action
  end.

Definition doubleQuote : string := String (ascii_of_N 34) EmptyString.
Definition newline : string := String (ascii_of_N 10) EmptyString.

Section MemoryDB.

Variable env : Env.

Definition vectorSearch (embedding : vector) (playerId : Id) (limit : Z)
    : Action (list Candidate) :=
  fun w => (Ok (queryVectors env embedding playerId limit), w).

Definition requestEmbeddings (texts : list string) : Action (list vector) :=
  fun w =>
    (Ok (fetchEmbeddingBatch env texts),
     {| store := store w;
        embeddingRequests := embeddingRequests w ++ [texts];
        completionRequests := completionRequests w;
        upserts := upserts w |}).

Definition requestCompletion (messages : list ChatMessage) (max_tokens : Z)
    : Action string :=
  fun w =>
    (Ok (chatGPTCompletion env messages max_tokens),
     {| store := store w;
        embeddingRequests := embeddingRequests w;
        completionRequests := completionRequests w ++ [messages];
        upserts := upserts w |}).

(** [externalEmbeddingStore], that is [upsertVectors('embeddings', items)]:
    the call is logged, and the index is taken to accept the items. *)
Definition externalEmbeddingStore (items : list (Id * option vector * Id))
    : Action unit :=
  fun w =>
    (Ok tt,
     {| store := store w;
        embeddingRequests := embeddingRequests w;
        completionRequests := completionRequests w;
        upserts := upserts w ++ [items] |}).

(** [search]: finds memories but does not mark them as accessed.
    [memories[idx]] may be [undefined], here [None]. *)
Definition search (playerId : Id) (queryEmbedding : vector) (limit : option Z)
    : Action (list (option Memory * number)) :=
  (let limit := match limit with Some l => l | None => 100 end in
   results <- vectorSearch queryEmbedding playerId limit ;;
   let embeddingIds := map candidate_id results in
   memories <- runQuery (getMemories playerId embeddingIds) ;;
   aret (map (fun entry => (nth_error memories (fst entry), (snd entry).(score)))
           (indexed results)))%action.

Definition accessMemories (playerId : Id) (queryEmbedding : vector) (count : option Z)
    : Action (list ScoredMemory) :=
  (let count := match count with Some c => c | None => 10 end in
   results <- vectorSearch queryEmbedding playerId (10 * count) ;;
   runMutation (accessMemories_handler (Date_now env) playerId results count))%action.

(** The messages of the importance request. *)
Definition importanceMessages (description : string) : list ChatMessage :=
  [ {| role := "user"; content := description |};
    {| role := "user";
       content :=
         ("How important is this? Answer on a scale of 0 to 9. Respond with number only, e.g. "
          ++ doubleQuote ++ "5" ++ doubleQuote)%string |} ].

(** The callback of [asyncMap] in [addMemories]: the draft with its embedding
    and an importance. *)
Definition withImportance (embeddings : list (option vector)) (entry : nat * NewMemory.t)
    : Action NewMemoryWithEmbedding.t :=
  let (idx, memory) := entry in
  let embedding := nth idx embeddings None in
  match NewMemory.importance memory with
  | None =>
      (importanceRaw <-
         requestCompletion (importanceMessages (NewMemory.description memory)) 1 ;;
       aret {| NewMemoryWithEmbedding.playerId := NewMemory.playerId memory;
               NewMemoryWithEmbedding.description := NewMemory.description memory;
               NewMemoryWithEmbedding.data := NewMemory.data memory;
               NewMemoryWithEmbedding.importance := importanceOfReply importanceRaw;
               NewMemoryWithEmbedding.embedding := embedding |})%action
  | Some importance =>
      aret {| NewMemoryWithEmbedding.playerId := NewMemory.playerId memory;
              NewMemoryWithEmbedding.description := NewMemory.description memory;
              NewMemoryWithEmbedding.data := NewMemory.data memory;
              NewMemoryWithEmbedding.importance := importance;
              NewMemoryWithEmbedding.embedding := embedding |}
  end.

(** The item upserted for the [idx]-th embedding id; [memories[idx]] may be
    [undefined], and reading [.playerId] of it throws. *)
Definition upsertItem (embeddings : list (option vector))
    (memories : list NewMemoryWithEmbedding.t) (entry : nat * Id)
    : Action (Id * option vector * Id) :=
  let (idx, id) := entry in
  match nth_error memories idx with
  | None => athrow (TypeError "playerId")
  | Some m => aret (id, nth idx embeddings None, NewMemoryWithEmbedding.playerId m)
  end.

Definition addMemories (memoriesWithoutEmbedding : list NewMemory.t) : Action unit :=
  (cachedEmbeddings <-
     runQuery (checkEmbeddingCache (map NewMemory.description memoriesWithoutEmbedding)) ;;
   let cacheMisses := cacheMissesOf memoriesWithoutEmbedding cachedEmbeddings in
   missingEmbeddings <-
     (if (0 <? Z.of_nat (length cacheMisses)) then requestEmbeddings cacheMisses
      else aret []) ;;
   let missingEmbeddings := rev missingEmbeddings in
   let embeddings := swapMisses cachedEmbeddings missingEmbeddings in
   memories <- asyncMap (withImportance embeddings) (indexed memoriesWithoutEmbedding) ;;
   embeddingIds <- runMutation (addMemories_handler (Date_now env) memories) ;;
   items <- asyncMap (upsertItem embeddings memories) (indexed embeddingIds) ;;
   externalEmbeddingStore items)%action.

(** The handler of the internal query [getRecentMessages]; [lastSpokeTs] is
    [None] when the argument is left out. *)
Definition getRecentMessages (playerId conversationId : Id) (lastSpokeTs : option number)
    : Query (list Message) :=
  fun db =>
    let lastConversationMemory :=
      lastWhere (by_playerId_conversation playerId) (memories db) in
    let lastCreationTime :=
      match lastConversationMemory with
      | Some m => m.(memory_creationTime)
      | None => 0%float
      end in
    let notSpokenSince :=
      match lastSpokeTs with
      | Some t => truthy t && (t <? lastCreationTime)%float
      | None => false
      end in
    if notSpokenSince then Ok []
    else
      let sameConversation :=
        match lastConversationMemory with
        | Some m => dataConversationIs m.(data) conversationId
        | None => false
        end in
      let allMessages :=
        filter
          (fun j =>
             entryConversationIs j.(entry_data) conversationId
             && (if sameConversation
                 then (lastCreationTime <? j.(entry_creationTime))%float
                 else true)
             && isTalking j.(entry_data))
          (journal db) in
      let lastMemoryTs : Result number :=
        if sameConversation then Ok lastCreationTime
        else
          match allMessages with
          | [] => Throw (TypeError "_creationTime")
          | first :: _ =>
              let previousConversationMemory :=
                lastWhere
                  (fun p =>
                     by_playerId_conversation playerId p
                     && (first.(entry_creationTime) <? p.(memory_creationTime))%float
                     && dataConversationIs p.(data) conversationId)
                  (memories db) in
              match previousConversationMemory with
              | Some p => Ok p.(memory_creationTime)
              | None => Ok 0%float
              end
          end in
      match lastMemoryTs with
      | Throw e => Throw e
      | Ok lastMemoryTs =>
          Ok (filter
                (fun m =>
                   (lastMemoryTs <? m.(ts))%float
                   && ((m.(from) =? playerId)%N
                       || existsb (fun p => (p =? playerId)%N) m.(to)))
                (map (clientMessageMapper env db) allMessages))
      end.

Definition rememberConversation (playerName : string) (playerId : Id)
    (playerIdentity : string) (conversationId : Id) (lastSpokeTs : option number)
    : Action bool :=
  (messages <- runQuery (getRecentMessages playerId conversationId lastSpokeTs) ;;
   if (Z.of_nat (length messages) =? 0) then aret false
   else
     description <-
       requestCompletion
         ([ {| role := "user";
               content :=
                 ("The following are messages. You are " ++ playerName ++ ", and "
                  ++ playerIdentity ++ newline
                  ++ "            I would like you to summarize the conversation in a paragraph from your perspective. Add if you like or dislike this interaction.")%string |} ]
          ++ chatHistoryFromMessages env messages
          ++ [ {| role := "user"; content := "Summary:" |} ])
         500 ;;
     _ <- addMemories
            [ {| NewMemory.playerId := playerId;
                 NewMemory.description := description;
                 NewMemory.data := ConversationData conversationId;
                 NewMemory.importance := None |} ] ;;
     aret true)%action.

End MemoryDB.

(** ** The button of [src/components/buttons/InteractButton.tsx] *)

Module InteractButton.

(** What [useQuery] returns: [undefined] while the query is loading or is
    skipped, else the value of the query ([null] is [Value None]). *)
Inductive Loaded (A : Type) : Type :=
| Undefined
| Value (a : A).
Arguments Undefined {A}.
Arguments Value {A} a.

(** The hooks the component reads: [useConvexAuth().isAuthenticated], the
    result of [api.world.defaultWorld] (the [_id] of the world, or [null]),
    and what [api.world.userStatus] answers for a world. *)
Record Hooks := {
  isAuthenticated : bool;
  world : Loaded (option Id);
  userStatus : Id -> Loaded (option Id)
}.

(** [useQuery(api.world.userStatus, world ? { worldId: world._id } : 'skip')]. *)
Definition userPlayerId (h : Hooks) : Loaded (option Id) :=
  match world h with
  | Value (Some worldId) => userStatus h worldId
  | _ => Undefined
  end.

(** [!!userPlayerId]. *)
Definition isPlaying (h : Hooks) : bool :=
  match userPlayerId h with
  | Value (Some _) => true
  | _ => false
  end.

(** What a click does: nothing, or one call of a mutation. *)
Inductive Click :=
| Nothing
| Leave (worldId : Id)
| Join (worldId : Id).

Definition joinOrLeaveGame (h : Hooks) : Click :=
  match world h with
  | Value (Some worldId) =>
      if negb (isAuthenticated h) then Nothing
      else
        match userPlayerId h with
        | Undefined => Nothing
        | Value _ => if isPlaying h then Leave worldId else Join worldId
        end
  | _ => Nothing
  end.

(** What is rendered: the sign-in button, or the button with its label and
    its [onClick]. *)
Inductive View :=
| SignInButton
| Button (label : string) (onClick : Click).

Definition render (h : Hooks) : View :=
  match userPlayerId h with
  | Undefined => SignInButton
  | Value _ =>
      if negb (isAuthenticated h) then SignInButton
      else Button (if isPlaying h then "Leave" else "Interact") (joinOrLeaveGame h)
  end.

(** How [join] can end, and the toasts the [catch] handler shows: the data of
    a [ConvexError], nothing for another error. *)
Inductive JoinOutcome :=
| Joined
| RejectedConvexError (data : string)
| RejectedOther.

Definition toastsOfJoin (o : JoinOutcome) : list string :=
  match o with
  | RejectedConvexError data => [data]
  | _ => []
  end.

End InteractButton.

(** * Vocabulary of the statements *)

(** ** Hydration *)

(** The memory a candidate id stands for: the row [getMemoryByEmbeddingId]
    looks up. *)
Definition hydrate (playerId : Id) (db : DB) (id : Id) : option Memory :=
  lastWhere (by_playerId_embeddingId playerId id) (memories db).

Definition unhydrated (playerId : Id) (db : DB) (id : Id) : bool :=
  match hydrate playerId db id with
  | None => true
  | Some _ => false
  end.

(** ** The embedding cache and the rows of a batch *)

Definition isSome {A} (o : option A) : bool :=
  match o with Some _ => true | None => false end.

(** The cached vector for a text: that of the first embedding row with
    exactly this text. *)
Definition cacheLookup (db : DB) (t : string) : option vector :=
  option_map embedding (firstWhere (by_text t) (embeddings db)).

Definition uncached (db : DB) (t : string) : bool :=
  match cacheLookup db t with
  | None => true
  | Some _ => false
  end.

(** The descriptions of the drafts that miss the cache, one entry per
    draft, in the order of the drafts. *)
Definition missedTexts (db : DB) (drafts : list NewMemory.t) : list string :=
  filter (uncached db) (map NewMemory.description drafts).

(** What the embedding provider is asked and what it answers during
    [addMemories]: nothing when no description misses the cache. *)
Definition providerRequests (db : DB) (drafts : list NewMemory.t) : list (list string) :=
  match missedTexts db drafts with
  | [] => []
  | _ :: _ => [missedTexts db drafts]
  end.

Definition providerVectors (env : Env) (db : DB) (drafts : list NewMemory.t) : list vector :=
  match missedTexts db drafts with
  | [] => []
  | _ :: _ => fetchEmbeddingBatch env (missedTexts db drafts)
  end.

(** The vectors matched to the drafts by position: a cached vector stays,
    and the k-th miss takes the k-th vector of the provider, [None] when
    the provider returned too few. *)
Fixpoint alignMisses (cached : list (option vector)) (vectors : list vector)
    : list (option vector) :=
  match cached with
  | [] => []
  | Some c :: rest => Some c :: alignMisses rest vectors
  | None :: rest =>
      match vectors with
      | [] => None :: alignMisses rest []
      | v :: vectors' => Some v :: alignMisses rest vectors'
      end
  end.

Definition draftEmbeddings (env : Env) (db : DB) (drafts : list NewMemory.t)
    : list (option vector) :=
  alignMisses (map (cacheLookup db) (map NewMemory.description drafts))
    (providerVectors env db drafts).

(** The importance [addMemories] gives a draft: the stated one, else the
    one read from the reply of the language model. *)
Definition draftImportance (env : Env) (d : NewMemory.t) : number :=
  match NewMemory.importance d with
  | Some i => i
  | None =>
      importanceOfReply
        (chatGPTCompletion env (importanceMessages (NewMemory.description d)) 1)
  end.

Definition draftCompletionRequests (d : NewMemory.t) : list (list ChatMessage) :=
  match NewMemory.importance d with
  | Some _ => []
  | None => [importanceMessages (NewMemory.description d)]
  end.

(** The argument of the internal mutation for a draft. *)
Definition draftWithEmbedding (env : Env) (embeddings : list (option vector))
    (entry : nat * NewMemory.t) : NewMemoryWithEmbedding.t :=
  {| NewMemoryWithEmbedding.playerId := NewMemory.playerId (snd entry);
     NewMemoryWithEmbedding.description := NewMemory.description (snd entry);
     NewMemoryWithEmbedding.data := NewMemory.data (snd entry);
     NewMemoryWithEmbedding.importance := draftImportance env (snd entry);
     NewMemoryWithEmbedding.embedding := nth (fst entry) embeddings None |}.

(** The arguments [addMemories] hands to the internal mutation. *)
Definition draftsWithEmbedding (env : Env) (db : DB) (drafts : list NewMemory.t)
    : list NewMemoryWithEmbedding.t :=
  map (draftWithEmbedding env (draftEmbeddings env db drafts)) (indexed drafts).

(** The rows the internal mutation inserts for its arguments, the first
    of them with the id [id]: for every argument an embedding row, then the
    memory row that refers to it. *)
Fixpoint committedEmbeddings (now : number) (id : Id) (ms : list NewMemoryWithEmbedding.t)
    : list Embedding :=
  match ms with
  | [] => []
  | m :: rest =>
      {| embedding_id := id; embedding_creationTime := now;
         embedding_playerId := NewMemoryWithEmbedding.playerId m;
         embedding :=
           match NewMemoryWithEmbedding.embedding m with
           | Some v => v
           | None => []
           end;
         text := NewMemoryWithEmbedding.description m |}
      :: committedEmbeddings now (N.succ (N.succ id)) rest
  end.

Fixpoint committedMemories (now : number) (id : Id) (ms : list NewMemoryWithEmbedding.t)
    : list Memory :=
  match ms with
  | [] => []
  | m :: rest =>
      {| memory_id := N.succ id; memory_creationTime := now;
         playerId := NewMemoryWithEmbedding.playerId m;
         description := NewMemoryWithEmbedding.description m;
         embeddingId := id;
         importance := NewMemoryWithEmbedding.importance m;
         data := NewMemoryWithEmbedding.data m |}
      :: committedMemories now (N.succ (N.succ id)) rest
  end.

Fixpoint committedIds (id : Id) (ms : list NewMemoryWithEmbedding.t) : list Id :=
  match ms with
  | [] => []
  | _ :: rest => id :: committedIds (N.succ (N.succ id)) rest
  end.

(** The store after the internal mutation has inserted the pairs of [ms]. *)
Definition committed (now : number) (ms : list NewMemoryWithEmbedding.t) (db : DB) : DB :=
  {| memories := memories db ++ committedMemories now (nextId db) ms;
     embeddings := embeddings db ++ committedEmbeddings now (nextId db) ms;
     memoryAccesses := memoryAccesses db;
     journal := journal db;
     nextId := (nextId db + 2 * N.of_nat (length ms))%N |}.

(** The items [addMemories] upserts into the vector index. *)
Definition upsertItemsOf (embeddings : list (option vector))
    (ms : list NewMemoryWithEmbedding.t) (entries : list (nat * Id))
    : list (Id * option vector * Id) :=
  flat_map
    (fun entry =>
       match nth_error ms (fst entry) with
       | Some m =>
           [(snd entry, nth (fst entry) embeddings None, NewMemoryWithEmbedding.playerId m)]
       | None => []
       end)
    entries.

(** The memory rows that [addMemories] adds to the store of [w]. *)
Definition storedMemories (env : Env) (drafts : list NewMemory.t) (w : World) : list Memory :=
  skipn (length (memories (store w)))
    (memories (store (snd (addMemories env drafts w)))).

(** ** Order of the numbers *)

(** An integer that orders the numbers other than [NaN] as [<] and [==] do:
    a finite number counts in units of the smallest positive number, the
    infinities lie beyond every finite number. *)
Definition SFord (x : spec_float) : Z :=
  match x with
  | S754_zero _ => 0
  | S754_infinity s => cond_Zopp s (2 ^ 2200)
  | S754_nan => 0
  | S754_finite s m e => cond_Zopp s (Zpos m * 2 ^ (e - emin))
  end.

Definition ord (x : number) : Z := SFord (Prim2SF x).

(** ** Ranking *)

(** [a] ranks before [b]: it has the higher composite score, or the same
    score and the earlier place among the candidates of the vector index. *)
Definition rankedBefore (a b : nat * ScoredMemory) : Prop :=
  ((snd b).(overallScore) <? (snd a).(overallScore))%float = true
  \/ (((snd a).(overallScore) =? (snd b).(overallScore))%float = true
      /\ (fst a < fst b)%nat).

Definition scoreIsNumber (a : nat * ScoredMemory) : Prop :=
  isNaN (snd a).(overallScore) = false.

(** The comparator of the sort on candidates that carry their place. *)
Definition byScoreDescendingAt (a b : nat * ScoredMemory) : number :=
  byScoreDescending (snd a) (snd b).

(** The access rows inserted for the memories returned, the first of them
    with the id [id]. *)
Fixpoint accessRows (now : number) (id : Id) (accessed : list ScoredMemory)
    : list MemoryAccess :=
  match accessed with
  | [] => []
  | a :: rest =>
      {| access_id := id; access_creationTime := now;
         memoryId := a.(memory).(memory_id) |}
      :: accessRows now (N.succ id) rest
  end.

(** The store after the access rows of [accessed] were inserted. *)
Definition withAccesses (now : number) (accessed : list ScoredMemory) (db : DB) : DB :=
  {| memories := memories db;
     embeddings := embeddings db;
     memoryAccesses := memoryAccesses db ++ accessRows now (nextId db) accessed;
     journal := journal db;
     nextId := (nextId db + N.of_nat (length accessed))%N |}.

(** ** Claims that the code does not meet, as they are stated *)

(** The claim that the internal mutation returns at most [count] results, in
    the order of non-increasing composite score. *)
Definition nonIncreasing (accessed : list ScoredMemory) : Prop :=
  forall i a b,
    nth_error accessed i = Some a -> nth_error accessed (S i) = Some b ->
    (b.(overallScore) <=? a.(overallScore))%float = true.

Definition returnsRankedAtMost (now : number) (playerId : Id)
    (candidates : list Candidate) (count : Z) (db : DB) : Prop :=
  match accessMemories_handler now playerId candidates count db with
  | Ok (accessed, _) => Z.of_nat (length accessed) <= count /\ nonIncreasing accessed
  | Throw _ => True
  end.

(** The claim that the provider is sent no text twice. *)
Definition requestsWithoutDuplicates (env : Env) (drafts : list NewMemory.t) (w : World)
    : Prop :=
  Forall (fun texts : list string => NoDup texts)
    (embeddingRequests (snd (addMemories env drafts w))).

(** The claim that a count of vectors other than the count of texts sent
    makes the batch fail. *)
Definition mismatchFailsBatch (env : Env) (drafts : list NewMemory.t) (w : World) : Prop :=
  length (providerVectors env (store w) drafts) <> length (missedTexts (store w) drafts) ->
  isOk (fst (addMemories env drafts w)) = false
  /\ store (snd (addMemories env drafts w)) = store w.

(** The claim that every importance stored is on the scale from 0 to 9. *)
Definition importancesOnScale (env : Env) (drafts : list NewMemory.t) (w : World) : Prop :=
  Forall (fun m => ((0 <=? m.(importance)) && (m.(importance) <=? 9))%float = true)
    (storedMemories env drafts w).

(** ** Vocabulary of the further properties *)

(** The scored candidates in one equation: the candidates, their memories
    and their recency signals, zipped. *)
Definition scoredOf (candidates : list Candidate) (related : list Memory)
    (recencyScore : list number) : list ScoredMemory :=
  map
    (fun t =>
       {| memory := snd (fst t);
          overallScore :=
            (normalize (fst (fst t)).(score) (makeRange (map score candidates)) +
             normalize (snd (fst t)).(importance) (makeRange (map importance related)) +
             normalize (snd t) (makeRange recencyScore))%float |})
    (combine (combine candidates related) recencyScore).

(** The number of entries [slice(0, count)] keeps of an array of [len]
    entries. *)
Definition sliceLength (len : nat) (count : Z) : nat :=
  Z.to_nat (if count <? 0 then Z.max (Z.of_nat len + count) 0
            else Z.min count (Z.of_nat len)).

(** The score of [b] is not above the score of [a]. *)
Definition scoreNotAbove (a b : ScoredMemory) : Prop :=
  (b.(overallScore) <=? a.(overallScore))%float = true.

(** The vector of the first argument of the internal mutation that has the
    description [t]. *)
Definition firstWithDescription (t : string) (ms : list NewMemoryWithEmbedding.t)
    : option vector :=
  match find (fun m => String.eqb (NewMemoryWithEmbedding.description m) t) ms with
  | Some m => NewMemoryWithEmbedding.embedding m
  | None => None
  end.

(** The drafts that state no importance. *)
Definition importanceUnset (d : NewMemory.t) : bool :=
  match NewMemory.importance d with
  | Some _ => false
  | None => true
  end.

(** The most recent conversation memory of a player, the row the guard of
    [getRecentMessages] looks at. *)
Definition lastConversationMemory (player : Id) (db : DB) : option Memory :=
  lastWhere (by_playerId_conversation player) (memories db).

(** The player has not spoken since that memory: [lastSpokeTs] is given, is
    not 0 and is before the creation of the memory. *)
Definition notSpokenSince (player : Id) (lastSpokeTs : option number) (db : DB) : bool :=
  match lastSpokeTs with
  | Some t =>
      truthy t
      && (t <? match lastConversationMemory player db with
               | Some m => m.(memory_creationTime)
               | None => 0
               end)%float
  | None => false
  end.

(** The most recent conversation memory of the player is of this
    conversation. *)
Definition conversationRemembered (player conversationId : Id) (db : DB) : bool :=
  match lastConversationMemory player db with
  | Some m => dataConversationIs m.(data) conversationId
  | None => false
  end.

(** The journal has a ['talking'] entry of this conversation. *)
Definition hasTalking (conversationId : Id) (db : DB) : bool :=
  existsb
    (fun j => entryConversationIs j.(entry_data) conversationId && isTalking j.(entry_data))
    (journal db).

(** The messages of the summary request of [rememberConversation]. *)
Definition summaryMessages (env : Env) (playerName playerIdentity : string)
    (messages : list Message) : list ChatMessage :=
  [ {| role := "user";
       content :=
         ("The following are messages. You are " ++ playerName ++ ", and "
          ++ playerIdentity ++ newline
          ++ "            I would like you to summarize the conversation in a paragraph from your perspective. Add if you like or dislike this interaction.")%string |} ]
  ++ chatHistoryFromMessages env messages
  ++ [ {| role := "user"; content := "Summary:" |} ].

(** The draft [rememberConversation] ingests. *)
Definition conversationDraft (env : Env) (playerName : string) (player : Id)
    (playerIdentity : string) (conversationId : Id) (messages : list Message)
    : NewMemory.t :=
  {| NewMemory.playerId := player;
     NewMemory.description :=
       chatGPTCompletion env (summaryMessages env playerName playerIdentity messages) 500;
     NewMemory.data := ConversationData conversationId;
     NewMemory.importance := None |}.

(** The comparator of the sort is consistent on the scored candidates: no
    composite score is [NaN], or all of them are (the comparator then returns
    [NaN], that is [+0], for every pair).  For a consistent comparator
    ECMAScript fixes the sorted order; for another one, a [NaN] among
    numbers, the order is left to the engine. *)
Definition scoresComparable (scored : list ScoredMemory) : Prop :=
  Forall (fun s => isNaN s.(overallScore) = false) scored
  \/ Forall (fun s => isNaN s.(overallScore) = true) scored.

(** [a] stays before [b] in the sorted array: its composite score is not
    below the score of [b], and unless it is above it (on a tie, and when the
    scores are [NaN]) it was the earlier of the two among the candidates of
    the vector query. *)
Definition staysBefore (a b : nat * ScoredMemory) : Prop :=
  ((snd a).(overallScore) <? (snd b).(overallScore))%float = false
  /\ (((snd b).(overallScore) <? (snd a).(overallScore))%float = true
      \/ (fst a < fst b)%nat).

(** * Sample inputs *)

(** A clock reading, in milliseconds. *)
Definition sampleNow : number := 1700000000000%float.

(** Player 7 has three memories: memory 1 was created ten hours before
    [sampleNow] and never accessed, memory 3 was last accessed five hours
    before [sampleNow], memory 2 two hours before. *)
Definition sampleStore : DB :=
  {| memories :=
       [ {| memory_id := 1%N; memory_creationTime := 1699964000000%float;
            playerId := 7%N; description := "Met Alice at the cafe";
            embeddingId := 11%N; importance := 9%float;
            data := OtherData "reflection" |};
         {| memory_id := 2%N; memory_creationTime := 1699964000001%float;
            playerId := 7%N; description := "Watered the plants";
            embeddingId := 12%N; importance := 1%float;
            data := OtherData "reflection" |};
         {| memory_id := 3%N; memory_creationTime := 1699964000002%float;
            playerId := 7%N; description := "Talked with Bob";
            embeddingId := 13%N; importance := 5%float;
            data := ConversationData 40%N |} ];
     embeddings :=
       [ {| embedding_id := 11%N; embedding_creationTime := 1699964000000%float;
            embedding_playerId := 7%N; embedding := [1%float; 0%float];
            text := "Met Alice at the cafe" |};
         {| embedding_id := 12%N; embedding_creationTime := 1699964000001%float;
            embedding_playerId := 7%N; embedding := [0%float; 1%float];
            text := "Watered the plants" |};
         {| embedding_id := 13%N; embedding_creationTime := 1699964000002%float;
            embedding_playerId := 7%N; embedding := [0.5%float; 0.5%float];
            text := "Talked with Bob" |} ];
     memoryAccesses :=
       [ {| access_id := 21%N; access_creationTime := 1699982000000%float;
            memoryId := 3%N |};
         {| access_id := 22%N; access_creationTime := 1699992800000%float;
            memoryId := 2%N |} ];
     journal := [];
     nextId := 100%N |}.

Definition sampleCandidates : list Candidate :=
  [ {| candidate_id := 11%N; score := 0.9%float |};
    {| candidate_id := 12%N; score := 0.5%float |};
    {| candidate_id := 13%N; score := 0.2%float |} ].

(** Two candidates of player 7 that the index scores alike. *)
Definition tiedCandidates : list Candidate :=
  [ {| candidate_id := 11%N; score := 0.9%float |};
    {| candidate_id := 12%N; score := 0.9%float |} ].

(** The sample store before any retrieval: no memory has an access row. *)
Definition neverAccessedStore : DB :=
  {| memories := memories sampleStore;
     embeddings := embeddings sampleStore;
     memoryAccesses := [];
     journal := journal sampleStore;
     nextId := nextId sampleStore |}.

(** Candidates of player 7 in the order of the vector index: memory 2, of
    importance 1, is a little more relevant than memory 1, of importance 9. *)
Definition closeCandidates : list Candidate :=
  [ {| candidate_id := 12%N; score := 0.9%float |};
    {| candidate_id := 11%N; score := 0.89%float |};
    {| candidate_id := 13%N; score := 0.2%float |} ].

(** The sample candidates scored at [sampleNow]. *)
Definition sampleScored : list ScoredMemory :=
  Eval vm_compute in
    match memoryScores sampleNow 7%N sampleCandidates sampleStore with
    | Ok (scored, _) => scored
    | Throw _ => []
    end.

(** Collaborators: a vector index that knows the three embeddings of player 7
    and, for every other player, an id 99 that the store does not have; an
    embedding provider that returns one vector per text; a language model
    that answers [reply]. *)
Definition sampleEnvReplying (reply : string) : Env :=
  {| queryVectors := fun _ p limit =>
       firstn (Z.to_nat limit)
         (if (p =? 7)%N then sampleCandidates
          else [ {| candidate_id := 99%N; score := 0.4%float |} ]);
     fetchEmbeddingBatch := map (fun _ => [0.25%float; 0.75%float]);
     chatGPTCompletion := fun _ _ => reply;
     Date_now := sampleNow;
     clientMessageMapper := fun _ j =>
       match j.(entry_data) with
       | Talking _ audience content =>
           {| from := j.(entry_playerId); to := audience;
              ts := j.(entry_creationTime); message_content := content |}
       | OtherEntry _ _ =>
           {| from := j.(entry_playerId); to := [];
              ts := j.(entry_creationTime); message_content := EmptyString |}
       end;
     chatHistoryFromMessages :=
       map (fun m => {| role := "user"; content := m.(message_content) |}) |}.

Definition sampleEnv : Env := sampleEnvReplying "7".

(** A provider that returns two vectors whatever it is asked. *)
Definition surplusEnv : Env :=
  {| queryVectors := queryVectors sampleEnv;
     fetchEmbeddingBatch := fun _ => [[0.25%float; 0.75%float]; [1%float; 1%float]];
     chatGPTCompletion := chatGPTCompletion sampleEnv;
     Date_now := Date_now sampleEnv;
     clientMessageMapper := clientMessageMapper sampleEnv;
     chatHistoryFromMessages := chatHistoryFromMessages sampleEnv |}.

(** A provider that returns no vector. *)
Definition silentEnv : Env :=
  {| queryVectors := queryVectors sampleEnv;
     fetchEmbeddingBatch := fun _ => [];
     chatGPTCompletion := chatGPTCompletion sampleEnv;
     Date_now := Date_now sampleEnv;
     clientMessageMapper := clientMessageMapper sampleEnv;
     chatHistoryFromMessages := chatHistoryFromMessages sampleEnv |}.

Definition sampleWorld : World :=
  {| store := sampleStore;
     embeddingRequests := [];
     completionRequests := [];
     upserts := [] |}.

(** The sample store after player 7 said something in conversation 40,
    later than its memory of that conversation. *)
Definition chattyWorld : World :=
  {| store :=
       {| memories := memories sampleStore;
          embeddings := embeddings sampleStore;
          memoryAccesses := memoryAccesses sampleStore;
          journal :=
            [ {| entry_id := 50%N; entry_creationTime := 1699990000000%float;
                 entry_playerId := 7%N;
                 entry_data := Talking 40%N [8%N] "See you tomorrow" |} ];
          nextId := nextId sampleStore |};
     embeddingRequests := [];
     completionRequests := [];
     upserts := [] |}.

(** A draft without importance, with a description that is not cached. *)
Definition sampleDraft : NewMemory.t :=
  {| NewMemory.playerId := 7%N;
     NewMemory.description := "Fed the cat";
     NewMemory.data := OtherData "reflection";
     NewMemory.importance := None |}.

(** A draft that states an importance outside the scale. *)
Definition draftImportance42 : NewMemory.t :=
  {| NewMemory.playerId := 7%N;
     NewMemory.description := "Fed the cat";
     NewMemory.data := OtherData "reflection";
     NewMemory.importance := Some 42%float |}.

(** ** Sample inputs of the further properties *)

(** The sample store with the importance of memory 2 replaced by [NaN], as a
    draft with the explicit importance [NaN] leaves it. *)
Definition nanImportanceStore : DB :=
  {| memories :=
       map
         (fun m =>
            if (m.(memory_id) =? 2)%N then
              {| memory_id := m.(memory_id);
                 memory_creationTime := m.(memory_creationTime);
                 playerId := m.(playerId);
                 description := m.(description);
                 embeddingId := m.(embeddingId);
                 importance := NaN;
                 data := m.(data) |}
            else m)
         (memories sampleStore);
     embeddings := embeddings sampleStore;
     memoryAccesses := memoryAccesses sampleStore;
     journal := journal sampleStore;
     nextId := nextId sampleStore |}.

Definition nanImportanceScored : list ScoredMemory :=
  Eval vm_compute in
    match memoryScores sampleNow 7%N sampleCandidates nanImportanceStore with
    | Ok (scored, _) => scored
    | Throw _ => []
    end.

(** The tied candidates scored at [sampleNow]: both composite scores are
    [NaN]. *)
Definition tiedScored : list ScoredMemory :=
  Eval vm_compute in
    match memoryScores sampleNow 7%N tiedCandidates sampleStore with
    | Ok (scored, _) => scored
    | Throw _ => []
    end.

(** The close candidates scored at [sampleNow] on the store without access
    rows. *)
Definition closeScored : list ScoredMemory :=
  Eval vm_compute in
    match memoryScores sampleNow 7%N closeCandidates neverAccessedStore with
    | Ok (scored, _) => scored
    | Throw _ => []
    end.

(** * Properties *)

(** ** JavaScript numbers on examples *)

Example parseFloat_examples :
  parseFloat "7" = 7%float
  /\ parseFloat "  7.5 stars" = 7.5%float
  /\ parseFloat "0.1" = 0.1%float
  /\ parseFloat "-3" = (-3)%float
  /\ parseFloat "1e3" = 1000%float
  /\ parseFloat ".5" = 0.5%float
  /\ parseFloat "6.02214076e23" = 6.02214076e23%float
  /\ parseFloat "9007199254740993" = 9007199254740992%float
  /\ parseFloat "-Infinity" = PrimFloat.neg_infinity
  /\ isNaN (parseFloat "seven") = true
  /\ isNaN (parseFloat EmptyString) = true.
Proof. vm_compute. repeat split. Qed.

Example Math_examples :
  Math_min [0.9; 0.5; 0.2]%float = 0.2%float
  /\ Math_max [0.9; 0.5; 0.2]%float = 0.9%float
  /\ Math_min [] = Infinity
  /\ Math_max [] = PrimFloat.neg_infinity
  /\ isNaN (Math_min [1%float; NaN]) = true
  /\ Math_floor 2.75%float = 2%float
  /\ Math_floor (-2.25)%float = (-3)%float.
Proof. vm_compute. repeat split. Qed.

Example bitxor_examples :
  ToInt32 0.99%float = 0
  /\ ToInt32 4294967297%float = 1
  /\ ToInt32 2147483648%float = - 2147483648
  /\ bitxor 0.99%float 0%float = 0%float
  /\ bitxor 0.99%float 3%float = 3%float
  /\ bitxor 5%float 3%float = 6%float.
Proof. vm_compute. repeat split. Qed.

(** ** Lists with indices *)

Lemma indexed_nth_error {A} (l : list A) i a :
  In (i, a) (indexed l) -> nth_error l i = Some a.
Proof.
  unfold indexed.
  assert (G : forall k, In (i, a) (combine (seq k (length l)) l) ->
                        exists j, i = (k + j)%nat /\ nth_error l j = Some a).
  { induction l as [|x l IH]; simpl; intros k H; [contradiction|].
    destruct H as [H|H].
    - inversion H; subst. exists 0%nat. split; [lia|reflexivity].
    - destruct (IH _ H) as (j & -> & Hj). exists (S j). split; [lia|exact Hj]. }
  intros H. destruct (G 0%nat H) as (j & -> & Hj). exact Hj.
Qed.

Lemma map_snd_indexed {A B} (f : A -> B) (l : list A) :
  map (fun e => f (snd e)) (indexed l) = map f l.
Proof.
  unfold indexed. generalize 0%nat.
  induction l as [|x l IH]; simpl; intros k; [reflexivity|].
  now rewrite IH.
Qed.

Lemma map_snd_indexed_id {A} (l : list A) : map snd (indexed l) = l.
Proof.
  rewrite (map_snd_indexed (fun a => a)). apply map_id.
Qed.

Lemma length_indexed {A} (l : list A) : length (indexed l) = length l.
Proof.
  unfold indexed. rewrite length_combine, length_seq. lia.
Qed.

Lemma flat_map_snd_indexed {A B} (f : A -> list B) (l : list A) :
  flat_map (fun e => f (snd e)) (indexed l) = flat_map f l.
Proof.
  rewrite !flat_map_concat_map. now rewrite map_snd_indexed.
Qed.

Lemma map_nth_indexed {A B} (embs : list B) (l : list A) d :
  length embs = length l ->
  map (fun e => nth (fst e) embs d) (indexed l) = embs.
Proof.
  unfold indexed.
  assert (G : forall (pre : list B) embs (l : list A),
             length embs = length l ->
             map (fun e => nth (fst e) (pre ++ embs) d)
               (combine (seq (length pre) (length l)) l) = embs).
  { clear. intros pre embs l. revert pre embs.
    induction l as [|a l IH]; intros pre [|b embs] H; simpl in *; try discriminate; auto.
    f_equal.
    - rewrite app_nth2 by lia. now rewrite Nat.sub_diag.
    - etransitivity; [|apply (IH (pre ++ [b]) embs); lia].
      rewrite length_app. simpl length. rewrite Nat.add_1_r.
      apply map_ext. intros e. now rewrite <- app_assoc. }
  intros H. exact (G [] embs l H).
Qed.

Lemma Forall2_nth_error {A B} (R : A -> B -> Prop) l1 l2 i a :
  Forall2 R l1 l2 -> nth_error l1 i = Some a ->
  exists b, nth_error l2 i = Some b /\ R a b.
Proof.
  intros H. revert i. induction H as [|x y l1 l2 Hxy H IH]; intros [|i]; simpl; try discriminate.
  - intros [= ->]. eauto.
  - apply IH.
Qed.

Lemma find_map {A B} (p : B -> bool) (f : A -> B) l :
  find p (map f l) = option_map f (find (fun a => p (f a)) l).
Proof.
  induction l as [|a l IH]; simpl; [reflexivity|].
  destruct (p (f a)); [reflexivity|exact IH].
Qed.

Lemma skipn_length_app {A} (l l' : list A) : skipn (length l) (l ++ l') = l'.
Proof.
  induction l as [|a l IH]; simpl; auto.
Qed.

Lemma map_eq_Forall2 {A B C} (f : A -> C) (g : B -> C) l1 l2 :
  map f l1 = map g l2 -> Forall2 (fun a b => g b = f a) l1 l2.
Proof.
  revert l2. induction l1 as [|a l1 IH]; intros [|b l2] H; simpl in H;
    try discriminate; constructor.
  - now inversion H.
  - apply IH. now inversion H.
Qed.

(** ** Hydration and search *)

Lemma getMemoryByEmbeddingId_hydrate playerId id db :
  getMemoryByEmbeddingId playerId id db =
  match hydrate playerId db id with
  | Some m => Ok m
  | None => Throw (NoMemoryFound playerId id)
  end.
Proof. reflexivity. Qed.

Lemma getMemories_Ok playerId ids db ms :
  getMemories playerId ids db = Ok ms ->
  Forall2 (fun id m => hydrate playerId db id = Some m) ids ms.
Proof.
  unfold getMemories. revert ms.
  induction ids as [|id ids IH]; simpl; intros ms H.
  - inversion H. constructor.
  - rewrite getMemoryByEmbeddingId_hydrate in H.
    destruct (hydrate playerId db id) as [m|] eqn:E; [|discriminate].
    destruct (asyncMapQ _ ids db) as [bs|e]; [|discriminate].
    inversion H; subst. constructor; auto.
Qed.

Lemma getMemories_Throw playerId ids db e :
  getMemories playerId ids db = Throw e ->
  exists id, find (unhydrated playerId db) ids = Some id
             /\ e = NoMemoryFound playerId id.
Proof.
  unfold getMemories.
  induction ids as [|id ids IH]; simpl; intros H; [discriminate|].
  rewrite getMemoryByEmbeddingId_hydrate in H. unfold unhydrated.
  destruct (hydrate playerId db id) as [m|] eqn:E.
  - destruct (asyncMapQ _ ids db) as [bs|e']; [discriminate|].
    inversion H; subst. apply IH. reflexivity.
  - inversion H; subst. eauto.
Qed.

Lemma getMemories_missing playerId ids db id :
  find (unhydrated playerId db) ids = Some id ->
  getMemories playerId ids db = Throw (NoMemoryFound playerId id).
Proof.
  unfold getMemories.
  induction ids as [|a ids IH]; simpl; [discriminate|].
  rewrite getMemoryByEmbeddingId_hydrate. unfold unhydrated at 1.
  destruct (hydrate playerId db a) as [m|] eqn:E.
  - intros H. fold (getMemories playerId ids db). unfold getMemories. now rewrite (IH H).
  - now intros [= ->].
Qed.

(** Hydration succeeds whenever every id has a memory. *)
Lemma getMemories_total playerId ids db :
  find (unhydrated playerId db) ids = None ->
  exists ms, getMemories playerId ids db = Ok ms /\ length ms = length ids.
Proof.
  unfold getMemories.
  induction ids as [|id ids IH]; simpl; intros H.
  - exists []. split; reflexivity.
  - rewrite getMemoryByEmbeddingId_hydrate. unfold unhydrated in H at 1.
    destruct (hydrate playerId db id) as [m|]; [|discriminate].
    destruct (IH H) as (ms & Hms & Hlen). rewrite Hms.
    exists (m :: ms). split; [reflexivity|simpl; now rewrite Hlen].
Qed.

(** C9: [search] leaves the store and every request log as they were, and
    it returns, in the order of the vector index and with the scores of the
    index unchanged, the memory of every candidate; it throws exactly when a
    candidate has no memory. *)
Theorem search_reads_only env playerId queryEmbedding limit w :
  let results :=
    queryVectors env queryEmbedding playerId
      (match limit with Some l => l | None => 100 end) in
  snd (search env playerId queryEmbedding limit w) = w /\
  match fst (search env playerId queryEmbedding limit w) with
  | Ok found =>
      found = map (fun c => (hydrate playerId (store w) c.(candidate_id), c.(score))) results
      /\ Forall (fun c => unhydrated playerId (store w) c.(candidate_id) = false) results
  | Throw e =>
      exists c,
        find (fun c => unhydrated playerId (store w) c.(candidate_id)) results = Some c
        /\ e = NoMemoryFound playerId c.(candidate_id)
  end.
Proof.
  intros results.
  unfold search, abind, vectorSearch, runQuery, aret. fold results.
  destruct (getMemories playerId (map candidate_id results) (store w)) as [ms|e] eqn:E; simpl.
  - split; [reflexivity|].
    apply getMemories_Ok in E.
    split.
    + rewrite <- (map_snd_indexed
                    (fun c => (hydrate playerId (store w) c.(candidate_id), c.(score))) results).
      apply map_ext_in. intros [i c] Hin. simpl.
      apply indexed_nth_error in Hin.
      assert (Hi : nth_error (map candidate_id results) i = Some c.(candidate_id))
        by (rewrite nth_error_map, Hin; reflexivity).
      destruct (Forall2_nth_error _ _ _ _ _ E Hi) as (m & Hm & Hh).
      now rewrite Hm, Hh.
    + apply Forall_forall. intros c Hin.
      destruct (In_nth_error _ _ Hin) as [i Hi].
      assert (Hi' : nth_error (map candidate_id results) i = Some c.(candidate_id))
        by (rewrite nth_error_map, Hi; reflexivity).
      destruct (Forall2_nth_error _ _ _ _ _ E Hi') as (m & _ & Hh).
      unfold unhydrated. now rewrite Hh.
  - split; [reflexivity|].
    apply getMemories_Throw in E. destruct E as (id & Hf & ->).
    rewrite find_map in Hf.
    destruct (find _ results) as [c|]; simpl in Hf; [|discriminate].
    inversion Hf; subst. eauto.
Qed.

(** ** A candidate without a memory *)

Lemma relatedMemories_getMemories playerId candidates db :
  asyncMapM (fun c => mquery (getMemoryByEmbeddingId playerId c.(candidate_id))) candidates db =
  match getMemories playerId (map candidate_id candidates) db with
  | Ok ms => Ok (ms, db)
  | Throw e => Throw e
  end.
Proof.
  unfold getMemories.
  induction candidates as [|c cs IH]; simpl; [reflexivity|].
  unfold mbind, mquery at 1.
  destruct (getMemoryByEmbeddingId playerId (candidate_id c) db) as [m|e]; [|reflexivity].
  rewrite IH.
  destruct (asyncMapQ _ (map candidate_id cs) db) as [ms|e]; reflexivity.
Qed.

Lemma accessMemories_handler_missing now playerId candidates count db c :
  find (fun c => unhydrated playerId db c.(candidate_id)) candidates = Some c ->
  accessMemories_handler now playerId candidates count db =
  Throw (NoMemoryFound playerId c.(candidate_id)).
Proof.
  intros H.
  unfold accessMemories_handler, memoryScores, mbind.
  rewrite relatedMemories_getMemories.
  rewrite (getMemories_missing _ _ _ c.(candidate_id)); [reflexivity|].
  rewrite find_map, H. reflexivity.
Qed.

(** C10: when a candidate of the vector index has no memory of the player in
    the store, [accessMemories] and [search] throw the error of
    [getMemoryByEmbeddingId] for the first such candidate, return nothing and
    leave the store as it was. *)
Theorem missing_memory_throws env playerId queryEmbedding w c :
  (forall count,
      find (fun c => unhydrated playerId (store w) c.(candidate_id))
        (queryVectors env queryEmbedding playerId
           (10 * match count with Some k => k | None => 10 end)) = Some c ->
      accessMemories env playerId queryEmbedding count w =
      (Throw (NoMemoryFound playerId c.(candidate_id)), w))
  /\
  (forall limit,
      find (fun c => unhydrated playerId (store w) c.(candidate_id))
        (queryVectors env queryEmbedding playerId
           (match limit with Some l => l | None => 100 end)) = Some c ->
      search env playerId queryEmbedding limit w =
      (Throw (NoMemoryFound playerId c.(candidate_id)), w)).
Proof.
  split.
  - intros count H.
    unfold accessMemories, abind, vectorSearch, runMutation.
    now rewrite (accessMemories_handler_missing _ _ _ _ _ c H).
  - intros limit H.
    unfold search, abind, vectorSearch, runQuery.
    rewrite (getMemories_missing _ _ _ c.(candidate_id)); [reflexivity|].
    rewrite find_map, H. reflexivity.
Qed.

(** The index of the sample collaborators knows, for player 8, an id that the
    sample store does not have. *)
Lemma missing_memory_throws_witness :
  accessMemories sampleEnv 8%N [] None sampleWorld = (Throw (NoMemoryFound 8%N 99%N), sampleWorld)
  /\ search sampleEnv 8%N [] None sampleWorld = (Throw (NoMemoryFound 8%N 99%N), sampleWorld).
Proof.
  split.
  - apply (proj1 (missing_memory_throws sampleEnv 8%N [] sampleWorld
                    {| candidate_id := 99%N; score := 0.4%float |}) None).
    reflexivity.
  - apply (proj2 (missing_memory_throws sampleEnv 8%N [] sampleWorld
                    {| candidate_id := 99%N; score := 0.4%float |}) None).
    reflexivity.
Defined.

(** ** Recency *)

(** A memory without access row has the recency 1, whenever it was
    created. *)
Lemma recency_without_access ts memory db :
  lastWhere (by_memoryId memory.(memory_id)) (memoryAccesses db) = None ->
  recencyOf ts memory db = Ok 1%float.
Proof.
  intros H. unfold recencyOf. now rewrite H.
Qed.

(** The recency of a memory with an access row is the 32-bit integer of the
    whole hours since its last access: [0.99] is 0 as an integer, and the
    exclusive or with 0 changes nothing. *)
Lemma recency_with_access ts memory db a :
  lastWhere (by_memoryId memory.(memory_id)) (memoryAccesses db) = Some a ->
  recencyOf ts memory db
  = Ok (Number_of_Z
          (ToInt32 (Math_floor ((((ts - a.(access_creationTime)) / 1000) / 60) / 60))))%float.
Proof.
  intros H. unfold recencyOf. rewrite H. unfold bitxor.
  change (ToInt32 0.99%float) with 0. now rewrite Z.lxor_0_l.
Qed.

(** C1 (the code departs from it): at [sampleNow] memory 2 was last accessed
    two hours ago and memory 3 five hours ago, and their recency signals are
    2 and 5: [0.99 ^ hours] is the exclusive or of the integers 0 and
    [hours], so the signal grows with the elapsed hours.  Memory 1, created
    ten hours ago and never accessed, gets the constant 1, whatever its age. *)
Theorem recency_is_xor_not_decay :
  map (fun m => recencyOf sampleNow m sampleStore) (memories sampleStore)
  = [Ok 1%float; Ok 2%float; Ok 5%float]
  /\ (2 <? 5)%float = true
  /\ bitxor 0.99%float 2%float = 2%float.
Proof. vm_compute. repeat split. Qed.

(** ** Comparison and subtraction of numbers *)

Lemma digits2_pos_bounds m :
  2 ^ (Zpos (digits2_pos m) - 1) <= Zpos m < 2 ^ Zpos (digits2_pos m).
Proof.
  induction m as [m IH|m IH|]; simpl digits2_pos.
  - rewrite Pos2Z.inj_succ.
    replace (Z.succ (Zpos (digits2_pos m)) - 1) with (Z.succ (Zpos (digits2_pos m) - 1)) by lia.
    rewrite !Z.pow_succ_r by lia. lia.
  - rewrite Pos2Z.inj_succ.
    replace (Z.succ (Zpos (digits2_pos m)) - 1) with (Z.succ (Zpos (digits2_pos m) - 1)) by lia.
    rewrite !Z.pow_succ_r by lia. lia.
  - simpl. lia.
Qed.

Lemma bounded_facts m e :
  bounded prec emax m e = true ->
  emin <= e <= emax - prec
  /\ Zpos m < 2 ^ prec
  /\ (emin < e -> 2 ^ (prec - 1) <= Zpos m).
Proof.
  unfold bounded, canonical_mantissa, fexp. intros H.
  apply andb_prop in H. destruct H as [H1 H2].
  apply Z.eqb_eq in H1. apply Z.leb_le in H2.
  pose proof (digits2_pos_bounds m) as [Hlo Hhi].
  assert (Hd : Zpos (digits2_pos m) <= prec) by lia.
  split; [lia|]. split.
  - eapply Z.lt_le_trans; [exact Hhi|]. apply Z.pow_le_mono_r; lia.
  - intros He. assert (Zpos (digits2_pos m) = prec) by lia.
    now replace (prec - 1) with (Zpos (digits2_pos m) - 1) by lia.
Qed.

Lemma finite_ord_bounds m e :
  bounded prec emax m e = true ->
  0 < Zpos m * 2 ^ (e - emin) < 2 ^ 2200.
Proof.
  intros H. apply bounded_facts in H. destruct H as (He & Hm & _).
  assert (Hp : 0 < 2 ^ (e - emin)) by (apply Z.pow_pos_nonneg; lia).
  assert (Hq : 2 ^ (e - emin) <= 2 ^ (emax - prec - emin))
    by (apply Z.pow_le_mono_r; lia).
  split; [lia|].
  apply Z.lt_le_trans with (2 ^ prec * 2 ^ (emax - prec - emin)).
  - apply Z.le_lt_trans with (Zpos m * 2 ^ (emax - prec - emin)).
    + apply Z.mul_le_mono_nonneg_l; lia.
    + apply Z.mul_lt_mono_pos_r; [|exact Hm].
      apply Z.pow_pos_nonneg; lia.
  - rewrite <- Z.pow_add_r by (unfold prec, emax, SpecFloat.emin; lia).
    apply Z.pow_le_mono_r; unfold prec, emax, SpecFloat.emin; lia.
Qed.

Lemma finite_ord_exponent m1 e1 m2 e2 :
  bounded prec emax m1 e1 = true ->
  bounded prec emax m2 e2 = true ->
  e1 < e2 ->
  Zpos m1 * 2 ^ (e1 - emin) < Zpos m2 * 2 ^ (e2 - emin).
Proof.
  intros H1 H2 He.
  apply bounded_facts in H1. destruct H1 as (He1 & Hm1 & _).
  apply bounded_facts in H2. destruct H2 as (He2 & _ & Hm2).
  specialize (Hm2 ltac:(lia)).
  replace (e2 - emin) with ((e1 - emin) + (e2 - e1)) by lia.
  rewrite Z.pow_add_r by lia.
  assert (Hp : 0 < 2 ^ (e1 - emin)) by (apply Z.pow_pos_nonneg; lia).
  assert (Hq : 2 ^ 1 <= 2 ^ (e2 - e1)) by (apply Z.pow_le_mono_r; lia).
  change (2 ^ 1) with 2 in Hq.
  assert (Hprec : 2 ^ prec = 2 * 2 ^ (prec - 1)) by reflexivity.
  apply Z.lt_le_trans with (2 ^ prec * 2 ^ (e1 - emin)).
  - apply Z.mul_lt_mono_pos_r; assumption.
  - rewrite Hprec.
    transitivity (Zpos m2 * (2 ^ (e1 - emin) * 2)).
    + rewrite (Z.mul_comm 2), <- Z.mul_assoc, (Z.mul_comm 2).
      apply Z.mul_le_mono_nonneg_r; lia.
    + apply Z.mul_le_mono_nonneg_l; [lia|].
      apply Z.mul_le_mono_nonneg_l; lia.
Qed.

Lemma Zcompare_mul_pos n m p : 0 < p -> (n * p ?= m * p) = (n ?= m).
Proof.
  intros Hp. destruct (Z.compare_spec n m) as [E|E|E].
  - subst. apply Z.compare_refl.
  - apply Z.compare_lt_iff. nia.
  - apply Z.compare_gt_iff. nia.
Qed.

Lemma SFcompare_ord x y :
  valid_binary x = true -> valid_binary y = true ->
  x <> S754_nan -> y <> S754_nan ->
  SFcompare x y = Some (SFord x ?= SFord y).
Proof.
  intros Vx Vy Nx Ny.
  destruct x as [sx|sx| |sx mx ex]; [| |contradiction|];
  destruct y as [sy|sy| |sy my ey]; try contradiction; simpl in Vx, Vy;
    try (pose proof (finite_ord_bounds _ _ Vx) as Bx);
    try (pose proof (finite_ord_bounds _ _ Vy) as By);
    unfold SFcompare, SFord; apply f_equal; symmetry;
    try (solve [repeat match goal with s : bool |- _ => destruct s end;
                cbn [cond_Zopp];
                first [reflexivity
                      |apply Z.compare_lt_iff; lia
                      |apply Z.compare_gt_iff; lia]]).
  assert (Hp : 0 < 2 ^ (ex - emin))
    by (apply Z.pow_pos_nonneg; [lia|]; apply bounded_facts in Vx; lia).
  destruct sx, sy; unfold cond_Zopp.
  + rewrite Z.compare_opp.
    destruct (Z.compare_spec ex ey) as [E|E|E].
    * subst ey. rewrite Zcompare_mul_pos by exact Hp.
      exact (Pos.compare_antisym mx my).
    * apply Z.compare_gt_iff. now apply finite_ord_exponent.
    * apply Z.compare_lt_iff. now apply finite_ord_exponent.
  + apply Z.compare_lt_iff. lia.
  + apply Z.compare_gt_iff. lia.
  + destruct (Z.compare_spec ex ey) as [E|E|E].
    * subst ey. rewrite Zcompare_mul_pos by exact Hp.
      reflexivity.
    * apply Z.compare_lt_iff. now apply finite_ord_exponent.
    * apply Z.compare_gt_iff. now apply finite_ord_exponent.
Qed.

Lemma shr_m_shr_1 mrs : 0 <= shr_m mrs -> shr_m (shr_1 mrs) = shr_m mrs / 2.
Proof.
  destruct mrs as [m r s]. simpl shr_m. intros H.
  destruct m as [|p|p]; [reflexivity| |lia].
  destruct p as [p|p|]; simpl shr_m.
  - apply Z.div_unique with 1; lia.
  - apply Z.div_unique with 0; lia.
  - reflexivity.
Qed.

Lemma pow2_xO p : 2 ^ Zpos p~0 = 2 ^ Zpos p * 2 ^ Zpos p.
Proof.
  rewrite <- Z.pow_add_r by lia. f_equal; lia.
Qed.

Lemma pow2_xI p : 2 ^ Zpos p~1 = 2 * (2 ^ Zpos p * 2 ^ Zpos p).
Proof.
  rewrite <- pow2_xO. rewrite <- (Z.pow_succ_r 2) by lia. f_equal; lia.
Qed.

Lemma shr_m_iter_pos p : forall mrs,
  0 <= shr_m mrs -> shr_m (iter_pos shr_1 p mrs) = shr_m mrs / 2 ^ Zpos p.
Proof.
  induction p as [p IH|p IH|]; intros mrs H; simpl iter_pos.
  - assert (H1 : 0 <= shr_m (shr_1 mrs))
      by (rewrite shr_m_shr_1 by exact H; apply Z.div_pos; lia).
    assert (Hp : 0 < 2 ^ Zpos p) by (apply Z.pow_pos_nonneg; lia).
    assert (H2 : 0 <= shr_m (iter_pos shr_1 p (shr_1 mrs)))
      by (rewrite IH by exact H1; apply Z.div_pos; lia).
    rewrite IH by exact H2. rewrite IH by exact H1. rewrite shr_m_shr_1 by exact H.
    rewrite !Z.div_div by lia. f_equal.
    rewrite pow2_xI. lia.
  - assert (Hp : 0 < 2 ^ Zpos p) by (apply Z.pow_pos_nonneg; lia).
    assert (H2 : 0 <= shr_m (iter_pos shr_1 p mrs))
      by (rewrite IH by exact H; apply Z.div_pos; lia).
    rewrite IH by exact H2. rewrite IH by exact H.
    rewrite Z.div_div by lia. f_equal.
    rewrite pow2_xO. lia.
  - rewrite shr_m_shr_1 by exact H. reflexivity.
Qed.

Lemma shr_m_record_of_loc m l : shr_m (shr_record_of_loc m l) = m.
Proof.
  destruct l as [|[| |]]; reflexivity.
Qed.

(** Shifting a positive mantissa to its place leaves it positive when the
    exponent is not below the least one. *)
Lemma shr_fexp_pos m e l :
  0 < m -> emin <= e ->
  0 < shr_m (fst (shr_fexp prec emax m e l))
  /\ emin <= snd (shr_fexp prec emax m e l).
Proof.
  intros Hm He. unfold shr_fexp, shr.
  destruct m as [|p|p]; try lia. simpl Zdigits2.
  pose proof (digits2_pos_bounds p) as [Hlo _].
  destruct (fexp prec emax (Zpos (digits2_pos p) + e) - e) as [|q|q] eqn:En;
    simpl fst; simpl snd; rewrite ?shr_m_record_of_loc; try (split; lia).
  rewrite shr_m_iter_pos by (rewrite shr_m_record_of_loc; lia).
  rewrite shr_m_record_of_loc.
  unfold fexp, SpecFloat.emin, prec, emax in En, He |- *.
  split; [|lia].
  apply Z.div_str_pos. split; [apply Z.pow_pos_nonneg; lia|].
  transitivity (2 ^ (Zpos (digits2_pos p) - 1)); [|exact Hlo].
  apply Z.pow_le_mono_r; lia.
Qed.

Lemma round_nearest_even_pos m l : 0 < m -> 0 < round_nearest_even m l.
Proof.
  intros H. unfold round_nearest_even.
  destruct l as [|[| |]]; try lia. destruct (Z.even m); lia.
Qed.

Lemma binary_round_aux_positive m e l :
  0 < m -> emin <= e ->
  SFltb (S754_zero false) (binary_round_aux prec emax false m e l) = true.
Proof.
  intros Hm He. unfold binary_round_aux.
  pose proof (shr_fexp_pos m e l Hm He) as [H1 H2].
  destruct (shr_fexp prec emax m e l) as [mrs' e']. simpl fst in H1. simpl snd in H2.
  pose proof (shr_fexp_pos _ e' loc_Exact
                (round_nearest_even_pos _ (loc_of_shr_record mrs') H1) H2) as [H3 _].
  destruct (shr_fexp prec emax _ e' loc_Exact) as [mrs'' e'']. simpl fst in H3.
  destruct (shr_m mrs'') as [|q|q]; try lia.
  destruct (e'' <=? emax - prec); reflexivity.
Qed.

Lemma binary_round_positive m e :
  emin <= e ->
  SFltb (S754_zero false) (binary_round prec emax false m e) = true.
Proof.
  intros He. unfold binary_round, shl_align.
  destruct (fexp prec emax (Zpos (digits2_pos m) + e) - e) as [|q|q] eqn:En;
    apply binary_round_aux_positive; try lia.
  unfold fexp, SpecFloat.emin, prec, emax in *. lia.
Qed.

Lemma binary_round_negative m e :
  SFltb (S754_zero false) (binary_round prec emax true m e) = false.
Proof.
  unfold binary_round, binary_round_aux.
  destruct (shl_align _ _ _) as [mz ez].
  destruct (shr_fexp prec emax (Zpos mz) ez loc_Exact) as [mrs' e'].
  destruct (shr_fexp prec emax _ e' loc_Exact) as [mrs'' e''].
  destruct (shr_m mrs'') as [|q|q]; try reflexivity.
  destruct (e'' <=? emax - prec); reflexivity.
Qed.

Lemma shl_align_value mx ex ez :
  ez <= ex -> Zpos (fst (shl_align mx ex ez)) = Zpos mx * 2 ^ (ex - ez).
Proof.
  intros H. unfold shl_align.
  destruct (ez - ex) as [|d|d] eqn:E; simpl fst.
  - replace (ex - ez) with 0 by lia. lia.
  - lia.
  - replace (ex - ez) with (Zpos d) by lia.
    change (Pos.iter xO mx d) with (shift_pos d mx).
    rewrite shift_pos_correct. change (Z.pow_pos 2 d) with (2 ^ Zpos d). lia.
Qed.

Lemma cond_Zopp_mul s a b : cond_Zopp s (a * b) = cond_Zopp s a * b.
Proof.
  destruct s; simpl; lia.
Qed.

(** The difference [y - x] is above zero exactly when [x] is below [y]. *)
Lemma SFsub_sign x y :
  valid_binary x = true -> valid_binary y = true ->
  x <> S754_nan -> y <> S754_nan ->
  SFltb (S754_zero false) (SFsub prec emax y x) = (SFord x <? SFord y).
Proof.
  intros Vx Vy Nx Ny.
  destruct x as [sx|sx| |sx mx ex]; [| |contradiction|];
  destruct y as [sy|sy| |sy my ey]; try contradiction; simpl in Vx, Vy;
    try (pose proof (finite_ord_bounds _ _ Vx) as Bx);
    try (pose proof (finite_ord_bounds _ _ Vy) as By);
    unfold SFsub, SFord;
    try (solve [repeat match goal with s : bool |- _ => destruct s end;
                cbn [cond_Zopp negb]; unfold SFltb, SFcompare;
                symmetry;
                first [apply Z.ltb_lt; lia | apply Z.ltb_ge; lia]]).
  cbv zeta.
  pose proof (bounded_facts _ _ Vx) as (Hex & _ & _).
  pose proof (bounded_facts _ _ Vy) as (Hey & _ & _).
  set (ez := Z.min ey ex).
  assert (Hez : emin <= ez) by (unfold ez; lia).
  assert (Hk : 0 < 2 ^ (ez - emin)) by (apply Z.pow_pos_nonneg; lia).
  rewrite !shl_align_value by (unfold ez; lia).
  assert (Ox : cond_Zopp sx (Zpos mx * 2 ^ (ex - emin))
               = cond_Zopp sx (Zpos mx * 2 ^ (ex - ez)) * 2 ^ (ez - emin)).
  { rewrite <- cond_Zopp_mul, <- Z.mul_assoc, <- Z.pow_add_r by (unfold ez; lia).
    do 3 f_equal. lia. }
  assert (Oy : cond_Zopp sy (Zpos my * 2 ^ (ey - emin))
               = cond_Zopp sy (Zpos my * 2 ^ (ey - ez)) * 2 ^ (ez - emin)).
  { rewrite <- cond_Zopp_mul, <- Z.mul_assoc, <- Z.pow_add_r by (unfold ez; lia).
    do 3 f_equal. lia. }
  rewrite Ox, Oy.
  set (a := cond_Zopp sx (Zpos mx * 2 ^ (ex - ez))).
  set (b := cond_Zopp sy (Zpos my * 2 ^ (ey - ez))).
  unfold binary_normalize.
  destruct (b - a) as [|p|p] eqn:E.
  - symmetry. apply Z.ltb_ge. nia.
  - rewrite binary_round_positive by exact Hez.
    symmetry. apply Z.ltb_lt. nia.
  - rewrite binary_round_negative.
    symmetry. apply Z.ltb_ge. nia.
Qed.

Lemma Prim2SF_not_nan x : isNaN x = false -> Prim2SF x <> S754_nan.
Proof.
  unfold isNaN, Prim2SF. intros H. rewrite H.
  destruct (is_zero x); [discriminate|].
  destruct (is_infinity x); [discriminate|].
  destruct (Z.frexp x) as [r e].
  destruct (shr_fexp _ _ _ _ _) as [mrs e'].
  destruct (shr_m mrs); discriminate.
Qed.

Lemma ltb_ord x y :
  isNaN x = false -> isNaN y = false -> (x <? y)%float = (ord x <? ord y).
Proof.
  intros Hx Hy. rewrite ltb_spec. unfold SFltb, ord.
  rewrite (SFcompare_ord _ _ (Prim2SF_valid x) (Prim2SF_valid y)
             (Prim2SF_not_nan x Hx) (Prim2SF_not_nan y Hy)).
  unfold Z.ltb. destruct (SFord (Prim2SF x) ?= SFord (Prim2SF y)); reflexivity.
Qed.

Lemma eqb_ord x y :
  isNaN x = false -> isNaN y = false -> (x =? y)%float = (ord x =? ord y).
Proof.
  intros Hx Hy. rewrite eqb_spec. unfold SFeqb, ord.
  rewrite (SFcompare_ord _ _ (Prim2SF_valid x) (Prim2SF_valid y)
             (Prim2SF_not_nan x Hx) (Prim2SF_not_nan y Hy)).
  unfold Z.eqb.
  destruct (Z.compare_spec (SFord (Prim2SF x)) (SFord (Prim2SF y))) as [E|E|E].
  - rewrite E. destruct (SFord (Prim2SF y)); try reflexivity; now rewrite Pos.eqb_refl.
  - destruct (SFord (Prim2SF x)), (SFord (Prim2SF y)); try reflexivity; try lia;
      symmetry; apply Pos.eqb_neq; lia.
  - destruct (SFord (Prim2SF x)), (SFord (Prim2SF y)); try reflexivity; try lia;
      symmetry; apply Pos.eqb_neq; lia.
Qed.

Lemma leb_ord x y :
  isNaN x = false -> isNaN y = false -> (x <=? y)%float = (ord x <=? ord y).
Proof.
  intros Hx Hy. rewrite leb_spec. unfold SFleb, ord.
  rewrite (SFcompare_ord _ _ (Prim2SF_valid x) (Prim2SF_valid y)
             (Prim2SF_not_nan x Hx) (Prim2SF_not_nan y Hy)).
  unfold Z.leb. destruct (SFord (Prim2SF x) ?= SFord (Prim2SF y)); reflexivity.
Qed.

(** The comparator [b - a > 0] of a descending sort holds exactly when
    [a < b], for numbers other than [NaN]. *)
Lemma sub_positive_ord x y :
  isNaN x = false -> isNaN y = false -> (0 <? y - x)%float = (ord x <? ord y).
Proof.
  intros Hx Hy. rewrite ltb_spec, sub_spec.
  change (Prim2SF 0%float) with (S754_zero false).
  apply SFsub_sign; auto using Prim2SF_valid, Prim2SF_not_nan.
Qed.

Lemma SFsub_diag x :
  SFsub prec emax x x = S754_nan \/ exists s, SFsub prec emax x x = S754_zero s.
Proof.
  destruct x as [s|s| |s m e]; simpl.
  - right. destruct s; eauto.
  - left. destruct s; reflexivity.
  - now left.
  - right. rewrite Z.sub_diag. simpl. eauto.
Qed.

(** ** Normalization *)

(** Whatever the value, normalizing it over a range whose ends are that
    value is [NaN]. *)
Lemma normalize_same_is_NaN v : isNaN (normalize v (v, v)) = true.
Proof.
  unfold normalize, isNaN, is_nan. rewrite eqb_spec, div_spec, sub_spec.
  unfold SF64div, SF64sub.
  destruct (SFsub_diag (Prim2SF v)) as [E|[s E]]; rewrite E; reflexivity.
Qed.

(** C2 (the code departs from it): when the candidates tie on a signal,
    [normalize] divides zero by zero: the normalized value is [NaN], and so is
    the composite score of every candidate. *)
Theorem normalize_of_tie_is_NaN :
  isNaN (normalize 0.9%float (makeRange [0.9%float; 0.9%float])) = true
  /\ match accessMemories_handler sampleNow 7%N tiedCandidates 2 sampleStore with
     | Ok (accessed, _) => map (fun a => isNaN a.(overallScore)) accessed = [true; true]
     | Throw _ => False
     end.
Proof. vm_compute. split; reflexivity. Qed.

(** ** Sorting *)

Section Sorting.

Context {A : Type}.
Variable comparefn : A -> A -> number.

Lemma sortInsert_perm x l : Permutation (sortInsert comparefn x l) (x :: l).
Proof.
  induction l as [|y l IH]; simpl; [reflexivity|].
  destruct (0 <? comparefn x y)%float; [|reflexivity].
  rewrite IH. apply perm_swap.
Qed.

Lemma Array_sort_perm l : Permutation (Array_sort comparefn l) l.
Proof.
  induction l as [|x l IH]; simpl; [reflexivity|].
  unfold Array_sort in *. simpl. rewrite sortInsert_perm. now constructor.
Qed.

End Sorting.

Lemma sortInsert_map_snd x l :
  map snd (sortInsert byScoreDescendingAt x l)
  = sortInsert byScoreDescending (snd x) (map snd l).
Proof.
  induction l as [|y l IH]; simpl; [reflexivity|].
  unfold byScoreDescendingAt at 1.
  destruct (0 <? byScoreDescending (snd x) (snd y))%float; simpl; [|reflexivity].
  now rewrite IH.
Qed.

Lemma Array_sort_map_snd l :
  map snd (Array_sort byScoreDescendingAt l) = Array_sort byScoreDescending (map snd l).
Proof.
  unfold Array_sort. induction l as [|x l IH]; simpl; [reflexivity|].
  now rewrite sortInsert_map_snd, IH.
Qed.

Lemma rankedBefore_ord a b :
  scoreIsNumber a -> scoreIsNumber b ->
  rankedBefore a b <->
  (ord (snd b).(overallScore) < ord (snd a).(overallScore)
   \/ (ord (snd a).(overallScore) = ord (snd b).(overallScore) /\ (fst a < fst b)%nat)).
Proof.
  unfold scoreIsNumber, rankedBefore. intros Ha Hb.
  rewrite (ltb_ord _ _ Hb Ha), (eqb_ord _ _ Ha Hb), Z.ltb_lt, Z.eqb_eq. reflexivity.
Qed.

(** A candidate ranked before another has a score that is not below. *)
Lemma rankedBefore_leb a b :
  scoreIsNumber a -> scoreIsNumber b -> rankedBefore a b ->
  ((snd b).(overallScore) <=? (snd a).(overallScore))%float = true.
Proof.
  intros Ha Hb H. apply (rankedBefore_ord a b Ha Hb) in H.
  rewrite (leb_ord _ _ Hb Ha). apply Z.leb_le. lia.
Qed.

Lemma rankedBefore_trans a b c :
  scoreIsNumber a -> scoreIsNumber b -> scoreIsNumber c ->
  rankedBefore a b -> rankedBefore b c -> rankedBefore a c.
Proof.
  intros Ha Hb Hc.
  rewrite (rankedBefore_ord a b), (rankedBefore_ord b c), (rankedBefore_ord a c) by assumption.
  lia.
Qed.

Lemma sortInsert_sorted x l :
  scoreIsNumber x -> Forall scoreIsNumber l ->
  Forall (fun y => (fst x < fst y)%nat) l ->
  StronglySorted rankedBefore l ->
  StronglySorted rankedBefore (sortInsert byScoreDescendingAt x l).
Proof.
  intros Hx Hl Hi Hs.
  induction l as [|y l IH]; simpl.
  - constructor; constructor.
  - inversion Hl as [|? ? Hy Hl']; subst. inversion Hi as [|? ? Hxy Hi']; subst.
    inversion Hs as [|? ? Hs' Hyl]; subst.
    unfold byScoreDescendingAt at 1. unfold byScoreDescending.
    rewrite (sub_positive_ord _ _ Hx Hy).
    destruct (ord (snd x).(overallScore) <? ord (snd y).(overallScore)) eqn:E.
    + apply Z.ltb_lt in E. constructor; [now apply IH|].
      apply (Permutation_Forall (Permutation_sym (sortInsert_perm _ x l))).
      constructor; [|exact Hyl].
      apply rankedBefore_ord; auto.
    + apply Z.ltb_ge in E.
      assert (Hb : rankedBefore x y) by (apply rankedBefore_ord; auto; lia).
      constructor; [exact Hs|].
      constructor; [exact Hb|].
      rewrite Forall_forall in *. intros z Hz.
      apply (rankedBefore_trans x y z); auto.
Qed.

Lemma Array_sort_sorted l :
  Forall scoreIsNumber l ->
  StronglySorted (fun a b => (fst a < fst b)%nat) l ->
  StronglySorted rankedBefore (Array_sort byScoreDescendingAt l).
Proof.
  unfold Array_sort. intros Hl Hs. induction l as [|x l IH]; simpl; [constructor|].
  inversion Hl as [|? ? Hx Hl']; subst. inversion Hs as [|? ? Hs' Hxl]; subst.
  apply sortInsert_sorted; auto.
  - apply (Permutation_Forall (Permutation_sym (Array_sort_perm _ l))). exact Hl'.
  - apply (Permutation_Forall (Permutation_sym (Array_sort_perm _ l))). exact Hxl.
Qed.

Lemma indexed_increasing {A} (l : list A) :
  StronglySorted (fun a b => (fst a < fst b)%nat) (indexed l).
Proof.
  unfold indexed. generalize 0%nat.
  induction l as [|x l IH]; intros k; simpl; constructor; [apply IH|].
  apply Forall_forall. intros [i a] Hin. simpl.
  apply in_combine_l in Hin. apply in_seq in Hin. lia.
Qed.

(** ** Ranked retrieval *)

Lemma recencyScore_total ts related db :
  exists rs,
    asyncMapM (fun memory => mquery (recencyOf ts memory)) related db = Ok (rs, db)
    /\ length rs = length related.
Proof.
  induction related as [|m related IH]; simpl.
  - exists []. split; reflexivity.
  - destruct IH as (rs & Hrs & Hlen).
    unfold mbind at 1. unfold mquery at 1. unfold recencyOf at 1.
    destruct (lastWhere (by_memoryId (memory_id m)) (memoryAccesses db)) as [a|];
      unfold mbind; rewrite Hrs; eexists; (split; [reflexivity|simpl; now rewrite Hlen]).
Qed.

Lemma scoreOf_total candidates recencyScore r1 r2 r3 entries db :
  (forall e, In e entries -> nth_error candidates (fst e) <> None) ->
  exists ss,
    asyncMapM (scoreOf candidates recencyScore r1 r2 r3) entries db = Ok (ss, db)
    /\ length ss = length entries.
Proof.
  induction entries as [|[idx m] entries IH]; simpl; intros H.
  - exists []. split; reflexivity.
  - destruct IH as (ss & Hss & Hlen); [intros e He; apply H; now right|].
    unfold mbind at 1. unfold scoreOf at 1.
    destruct (nth_error candidates idx) as [c|] eqn:E.
    + unfold mret at 1. unfold mbind.
      fold (scoreOf candidates recencyScore r1 r2 r3). rewrite Hss.
      eexists. split; [reflexivity|simpl; now rewrite Hlen].
    + exfalso. apply (H (idx, m)); [now left|exact E].
Qed.

(** Scoring succeeds, and leaves the store as it was, whenever every
    candidate has a memory. *)
Lemma memoryScores_total ts playerId candidates db :
  find (fun c => unhydrated playerId db c.(candidate_id)) candidates = None ->
  exists scored,
    memoryScores ts playerId candidates db = Ok (scored, db)
    /\ length scored = length candidates.
Proof.
  intros H. unfold memoryScores. unfold mbind at 1.
  rewrite relatedMemories_getMemories.
  destruct (getMemories_total playerId (map candidate_id candidates) db)
    as (related & Hrel & Hlen).
  { rewrite find_map, H. reflexivity. }
  rewrite Hrel. rewrite length_map in Hlen.
  destruct (recencyScore_total ts related db) as (rs & Hrs & _).
  unfold mbind at 1. rewrite Hrs.
  destruct (scoreOf_total candidates rs (makeRange (map score candidates))
              (makeRange (map importance related)) (makeRange rs) (indexed related) db)
    as (ss & Hss & Hlen').
  { intros [i m] Hin. simpl. apply indexed_nth_error in Hin.
    apply nth_error_Some. rewrite <- Hlen. apply nth_error_Some. now rewrite Hin. }
  exists ss. split; [exact Hss|]. now rewrite Hlen', length_indexed.
Qed.

Lemma insertMemoryAccess_all now accessed db :
  exists ids,
    asyncMapM (fun a => insertMemoryAccess now a.(memory).(memory_id)) accessed db
    = Ok (ids, withAccesses now accessed db).
Proof.
  revert db. induction accessed as [|a accessed IH]; intros db.
  - exists []. simpl. unfold mret, withAccesses. destruct db; simpl.
    rewrite app_nil_r. do 3 f_equal. lia.
  - simpl asyncMapM. unfold mbind at 1. unfold insertMemoryAccess at 1.
    destruct (IH {| memories := memories db; embeddings := embeddings db;
                    memoryAccesses :=
                      memoryAccesses db ++
                        [{| access_id := nextId db; access_creationTime := now;
                            memoryId := a.(memory).(memory_id) |}];
                    journal := journal db; nextId := N.succ (nextId db) |}) as [ids Hids].
    exists (nextId db :: ids). unfold mbind. rewrite Hids. unfold mret.
    do 2 f_equal. unfold withAccesses. simpl.
    rewrite <- app_assoc. simpl. f_equal. lia.
Qed.

Lemma Array_slice0_firstn {A} (l : list A) count :
  0 <= count -> Array_slice0 l count = firstn (Z.to_nat count) l.
Proof.
  intros H. unfold Array_slice0.
  replace (count <? 0) with false by (symmetry; apply Z.ltb_ge; lia).
  destruct (Z.le_ge_cases count (Z.of_nat (length l))) as [Hc|Hc].
  - now rewrite Z.min_l by lia.
  - rewrite Z.min_r by lia. rewrite Nat2Z.id.
    rewrite firstn_all. symmetry. apply firstn_all2. lia.
Qed.

Lemma memoryId_accessRows now id accessed :
  map memoryId (accessRows now id accessed)
  = map (fun a => a.(memory).(memory_id)) accessed.
Proof.
  revert id. induction accessed as [|a accessed IH]; intros id; simpl; [reflexivity|].
  now rewrite IH.
Qed.

(** The action [accessMemories] is the internal mutation run on the
    candidates of the vector index. *)
Lemma accessMemories_runs_handler env playerId queryEmbedding count w :
  accessMemories env playerId queryEmbedding count w
  = let k := match count with Some c => c | None => 10 end in
    match accessMemories_handler (Date_now env) playerId
            (queryVectors env queryEmbedding playerId (10 * k)) k (store w) with
    | Ok (accessed, db') =>
        (Ok accessed,
         {| store := db';
            embeddingRequests := embeddingRequests w;
            completionRequests := completionRequests w;
            upserts := upserts w |})
    | Throw e => (Throw e, w)
    end.
Proof. reflexivity. Qed.

(** X22: for a count that is not negative and candidates whose composite
    scores are all numbers, the internal mutation [accessMemories] returns
    the first [count] candidates of the ranking, at most [count] of them: the
    ranking lists every scored candidate once, a higher composite score first
    and, on equal scores, the earlier candidate of the vector query first.
    It inserts one access row per result, in the order of the results, and
    writes nothing else. *)
Theorem accessMemories_returns_top_ranked now playerId candidates count db scored :
  0 <= count ->
  memoryScores now playerId candidates db = Ok (scored, db) ->
  Forall (fun s => isNaN s.(overallScore) = false) scored ->
  exists ranked rows db',
    Permutation ranked (indexed scored)
    /\ StronglySorted rankedBefore ranked
    /\ accessMemories_handler now playerId candidates count db
       = Ok (map snd (firstn (Z.to_nat count) ranked), db')
    /\ Z.of_nat (length (map snd (firstn (Z.to_nat count) ranked))) <= count
    /\ memoryAccesses db' = memoryAccesses db ++ rows
    /\ map memoryId rows
       = map (fun a => a.(memory).(memory_id)) (map snd (firstn (Z.to_nat count) ranked))
    /\ memories db' = memories db
    /\ embeddings db' = embeddings db
    /\ journal db' = journal db.
Proof.
  intros Hc Hs Hn.
  set (ranked := Array_sort byScoreDescendingAt (indexed scored)).
  set (accessed := map snd (firstn (Z.to_nat count) ranked)).
  exists ranked, (accessRows now (nextId db) accessed), (withAccesses now accessed db).
  assert (Hn' : Forall scoreIsNumber (indexed scored)).
  { apply Forall_forall. intros [i a] Hin. unfold scoreIsNumber. simpl.
    apply indexed_nth_error, nth_error_In in Hin.
    rewrite Forall_forall in Hn. now apply Hn. }
  split; [apply Array_sort_perm|].
  split; [apply Array_sort_sorted; [exact Hn'|apply indexed_increasing]|].
  split.
  - assert (E : Array_slice0 (Array_sort byScoreDescending scored) count = accessed).
    { rewrite (Array_slice0_firstn _ _ Hc).
      rewrite <- (map_snd_indexed_id scored) at 1.
      rewrite <- Array_sort_map_snd. fold ranked.
      now rewrite firstn_map. }
    unfold accessMemories_handler. unfold mbind at 1. rewrite Hs. rewrite E.
    destruct (insertMemoryAccess_all now accessed db) as [ids Hids].
    unfold mbind. rewrite Hids. reflexivity.
  - split.
    + fold accessed. unfold accessed. rewrite length_map.
      pose proof (firstn_le_length (Z.to_nat count) ranked). 
      assert (length (firstn (Z.to_nat count) ranked) <= Z.to_nat count)%nat
        by (rewrite length_firstn; lia).
      lia.
    + fold accessed. repeat split. apply memoryId_accessRows.
Qed.

(** The sample candidates, whose composite scores are 2, 0.68 and 1.5, with
    the count 2. *)
Lemma accessMemories_returns_top_ranked_witness :
  exists ranked rows db',
    Permutation ranked (indexed sampleScored)
    /\ StronglySorted rankedBefore ranked
    /\ accessMemories_handler sampleNow 7%N sampleCandidates 2 sampleStore
       = Ok (map snd (firstn (Z.to_nat 2) ranked), db')
    /\ Z.of_nat (length (map snd (firstn (Z.to_nat 2) ranked))) <= 2
    /\ memoryAccesses db' = memoryAccesses sampleStore ++ rows
    /\ map memoryId rows
       = map (fun a => a.(memory).(memory_id)) (map snd (firstn (Z.to_nat 2) ranked))
    /\ memories db' = memories sampleStore
    /\ embeddings db' = embeddings sampleStore
    /\ journal db' = journal sampleStore.
Proof.
  apply (accessMemories_returns_top_ranked sampleNow 7%N sampleCandidates 2 sampleStore
           sampleScored).
  - lia.
  - vm_compute. reflexivity.
  - repeat (constructor; [reflexivity|]). constructor.
Defined.

(** C5 (the code departs from it): on a store where no memory has been
    accessed yet, the recency signal of every candidate is 1, its range is
    (1, 1) and every composite score is [NaN], the defect of C2.  The
    comparator returns [NaN] for every pair and the sort keeps the order of
    the vector query: memory 2, of importance 1, is returned before memory 1,
    of importance 9 and nearly the same relevance, and the scores of the
    results are [NaN], not an order of non-increasing numbers. *)
Theorem first_retrieval_is_not_ranked :
  match accessMemories_handler sampleNow 7%N closeCandidates 2 neverAccessedStore with
  | Ok (accessed, _) =>
      map (fun a => a.(memory).(memory_id)) accessed = [2%N; 1%N]
      /\ map (fun a => a.(memory).(importance)) accessed = [1%float; 9%float]
      /\ forallb (fun a => isNaN a.(overallScore)) accessed = true
  | Throw _ => False
  end
  /\ ~ returnsRankedAtMost sampleNow 7%N closeCandidates 2 neverAccessedStore.
Proof.
  split; [vm_compute; repeat split; reflexivity|].
  unfold returnsRankedAtMost.
  destruct (accessMemories_handler sampleNow 7%N closeCandidates 2 neverAccessedStore)
    as [[accessed db']|e] eqn:E; vm_compute in E; [|discriminate].
  inversion E; subst. intros [_ H].
  specialize (H 0%nat _ _ eq_refl eq_refl). vm_compute in H. discriminate.
Qed.

(** ** Importance read from the reply of the language model *)

Lemma importanceOfReply_not_NaN raw : isNaN (importanceOfReply raw) = false.
Proof.
  unfold importanceOfReply.
  destruct (isNaN (parseFloat raw)) eqn:E; [reflexivity|exact E].
Qed.

(** C3 (the code departs from it): for the reply [#7] the loop finds the
    digit 7, but the result of the loop is overwritten by [parseFloat] of the
    whole reply, which is [NaN], so the importance stored is 5.  For the reply
    [10] the first digit is 1 and the importance is 10. *)
Theorem first_digit_is_overwritten :
  firstDigit "#7" NaN = 7%float
  /\ importanceOfReply "#7" = 5%float
  /\ firstDigit "10" NaN = 1%float
  /\ importanceOfReply "10" = 10%float
  /\ map importance
       (skipn 3 (memories (store (snd (addMemories (sampleEnvReplying "#7")
                                         [sampleDraft] sampleWorld)))))
     = [5%float].
Proof. vm_compute. repeat split. Qed.

(** ** Ingestion *)

Lemma checkEmbeddingCache_lookup texts db :
  checkEmbeddingCache texts db = Ok (map (cacheLookup db) texts).
Proof.
  unfold checkEmbeddingCache, cacheLookup.
  induction texts as [|t texts IH]; simpl; [reflexivity|].
  rewrite IH. destruct (firstWhere (by_text t) (embeddings db)); reflexivity.
Qed.

Lemma cacheMissesOf_missedTexts drafts db :
  cacheMissesOf drafts (map (cacheLookup db) (map NewMemory.description drafts))
  = missedTexts db drafts.
Proof.
  unfold cacheMissesOf, missedTexts.
  rewrite (filter_ext_in _ (fun e => uncached db (NewMemory.description (snd e)))).
  - rewrite <- (map_snd_indexed NewMemory.description drafts).
    now rewrite filter_map_swap.
  - intros [i d] Hin. simpl. apply indexed_nth_error in Hin.
    rewrite map_map.
    rewrite (nth_error_nth _ _ _ (map_nth_error _ _ _ Hin)).
    reflexivity.
Qed.

Lemma Array_pop_rev_cons {A} (x : A) l : Array_pop (rev (x :: l)) = (Some x, rev l).
Proof.
  unfold Array_pop. rewrite rev_involutive. reflexivity.
Qed.

Lemma swapMisses_align cached vectors :
  swapMisses cached (rev vectors) = alignMisses cached vectors.
Proof.
  revert vectors. induction cached as [|[c|] cached IH]; intros vectors; simpl.
  - reflexivity.
  - now rewrite IH.
  - destruct vectors as [|v vectors].
    + simpl. f_equal. apply (IH []).
    + rewrite Array_pop_rev_cons. now rewrite IH.
Qed.

Lemma asyncMap_withImportance env embs entries s er cr u :
  asyncMap (withImportance env embs) entries
    {| store := s; embeddingRequests := er; completionRequests := cr; upserts := u |}
  = (Ok (map (draftWithEmbedding env embs) entries),
     {| store := s; embeddingRequests := er;
        completionRequests := cr ++ flat_map (fun e => draftCompletionRequests (snd e)) entries;
        upserts := u |}).
Proof.
  revert cr. induction entries as [|[idx d] entries IH]; intros cr; simpl.
  - unfold aret. now rewrite app_nil_r.
  - unfold abind at 1. unfold withImportance, draftWithEmbedding, draftImportance,
      draftCompletionRequests. simpl.
    destruct (NewMemory.importance d) as [i|] eqn:E.
    + unfold aret at 1. unfold abind. rewrite IH. reflexivity.
    + unfold abind at 1. unfold requestCompletion at 1. simpl.
      unfold aret at 1. unfold abind. rewrite IH. simpl.
      now rewrite <- app_assoc.
Qed.

Lemma committed_cons now m ms db :
  committed now ms
    {| memories :=
         memories db ++
           [{| memory_id := N.succ (nextId db); memory_creationTime := now;
               playerId := NewMemoryWithEmbedding.playerId m;
               description := NewMemoryWithEmbedding.description m;
               embeddingId := nextId db;
               importance := NewMemoryWithEmbedding.importance m;
               data := NewMemoryWithEmbedding.data m |}];
       embeddings :=
         embeddings db ++
           [{| embedding_id := nextId db; embedding_creationTime := now;
               embedding_playerId := NewMemoryWithEmbedding.playerId m;
               embedding :=
                 match NewMemoryWithEmbedding.embedding m with Some v => v | None => [] end;
               text := NewMemoryWithEmbedding.description m |}];
       memoryAccesses := memoryAccesses db;
       journal := journal db;
       nextId := N.succ (N.succ (nextId db)) |}
  = committed now (m :: ms) db.
Proof.
  unfold committed. simpl memories. simpl embeddings. simpl nextId.
  simpl memoryAccesses. simpl journal.
  rewrite <- !app_assoc. simpl app. f_equal.
  change (length (m :: ms)) with (S (length ms)). lia.
Qed.

Lemma addMemories_handler_commits now ms db :
  forallb hasEmbedding ms = true ->
  addMemories_handler now ms db = Ok (committedIds (nextId db) ms, committed now ms db).
Proof.
  intros H. unfold addMemories_handler. rewrite H.
  revert db. induction ms as [|m ms IH]; intros db.
  - simpl. unfold mret, committed. simpl. destruct db; simpl.
    rewrite !app_nil_r. do 2 f_equal. f_equal. lia.
  - simpl in H. apply andb_prop in H. destruct H as [Hm H].
    simpl asyncMapM. unfold mbind at 1. unfold addMemory at 1.
    unfold hasEmbedding in Hm.
    destruct (NewMemoryWithEmbedding.embedding m) as [v|] eqn:E; [|discriminate].
    unfold mbind at 1. unfold insertEmbedding at 1. cbv beta iota zeta.
    unfold mbind at 1. unfold insertMemory at 1. cbv beta iota zeta.
    unfold mret at 1. unfold mbind at 1.
    simpl memories. simpl embeddings. simpl nextId. simpl memoryAccesses. simpl journal.
    rewrite (IH H). simpl nextId. unfold mret.
    rewrite <- (committed_cons now m ms db). rewrite E. reflexivity.
Qed.

Lemma addMemories_handler_rejects now ms db :
  forallb hasEmbedding ms = false ->
  addMemories_handler now ms db = Throw (ArgumentValidationError "embedding").
Proof.
  intros H. unfold addMemories_handler. now rewrite H.
Qed.

Lemma asyncMap_upsertItem embs ms entries w :
  (forall e, In e entries -> nth_error ms (fst e) <> None) ->
  asyncMap (upsertItem embs ms) entries w = (Ok (upsertItemsOf embs ms entries), w).
Proof.
  induction entries as [|[idx id] entries IH]; intros H; simpl; [reflexivity|].
  unfold abind at 1. unfold upsertItem at 1. unfold upsertItemsOf. simpl.
  destruct (nth_error ms idx) as [m|] eqn:E.
  - unfold aret at 1. unfold abind. fold (upsertItem embs ms).
    rewrite IH by (intros e He; apply H; now right).
    reflexivity.
  - exfalso. apply (H (idx, id)); [now left|exact E].
Qed.

Lemma length_committedIds id ms : length (committedIds id ms) = length ms.
Proof.
  revert id. induction ms as [|m ms IH]; intros id; simpl; [reflexivity|].
  now rewrite IH.
Qed.

Lemma length_draftsWithEmbedding env db drafts :
  length (draftsWithEmbedding env db drafts) = length drafts.
Proof.
  unfold draftsWithEmbedding. now rewrite length_map, length_indexed.
Qed.

(** [addMemories] in one equation: the requests it sends, and the store it
    leaves, committed when every argument of the internal mutation has an
    embedding and untouched otherwise. *)
Lemma addMemories_unfold env drafts s er cr u :
  let ms := draftsWithEmbedding env s drafts in
  addMemories env drafts
    {| store := s; embeddingRequests := er; completionRequests := cr; upserts := u |}
  = if forallb hasEmbedding ms then
      (Ok tt,
       {| store := committed (Date_now env) ms s;
          embeddingRequests := er ++ providerRequests s drafts;
          completionRequests := cr ++ flat_map draftCompletionRequests drafts;
          upserts :=
            u ++ [upsertItemsOf (draftEmbeddings env s drafts) ms
                    (indexed (committedIds (nextId s) ms))] |})
    else
      (Throw (ArgumentValidationError "embedding"),
       {| store := s;
          embeddingRequests := er ++ providerRequests s drafts;
          completionRequests := cr ++ flat_map draftCompletionRequests drafts;
          upserts := u |}).
Proof.
  intros ms. unfold addMemories.
  unfold abind at 1. unfold runQuery at 1. simpl store.
  rewrite checkEmbeddingCache_lookup, cacheMissesOf_missedTexts.
  assert (Hreq :
    (if 0 <? Z.of_nat (length (missedTexts s drafts))
     then requestEmbeddings env (missedTexts s drafts) else aret [])
      {| store := s; embeddingRequests := er; completionRequests := cr; upserts := u |}
    = (Ok (providerVectors env s drafts),
       {| store := s; embeddingRequests := er ++ providerRequests s drafts;
          completionRequests := cr; upserts := u |})).
  { unfold providerVectors, providerRequests.
    destruct (missedTexts s drafts) as [|t ts]; simpl length.
    - simpl. unfold aret. now rewrite app_nil_r.
    - replace (0 <? Z.of_nat (S (length ts))) with true by (symmetry; apply Z.ltb_lt; lia).
      reflexivity. }
  unfold abind at 1. rewrite Hreq. clear Hreq.
  rewrite swapMisses_align. fold (draftEmbeddings env s drafts).
  unfold abind at 1. rewrite asyncMap_withImportance.
  fold (draftsWithEmbedding env s drafts). fold ms.
  rewrite flat_map_snd_indexed.
  unfold abind at 1. unfold runMutation at 1. simpl store.
  destruct (forallb hasEmbedding ms) eqn:E.
  - rewrite (addMemories_handler_commits _ _ _ E).
    unfold abind. rewrite asyncMap_upsertItem.
    + reflexivity.
    + intros [i id] Hin. simpl. apply indexed_nth_error in Hin.
      apply nth_error_Some.
      assert (i < length (committedIds (nextId s) ms))%nat
        by (apply nth_error_Some; now rewrite Hin).
      now rewrite length_committedIds in *.
  - rewrite (addMemories_handler_rejects _ _ _ E). reflexivity.
Qed.

(** ** The requests to the embedding provider *)

Lemma missedTexts_nil db drafts :
  forallb (fun d => negb (uncached db (NewMemory.description d))) drafts = true ->
  missedTexts db drafts = [].
Proof.
  unfold missedTexts. induction drafts as [|d drafts IH]; simpl; [reflexivity|].
  intros H. apply andb_prop in H. destruct H as [Hd H].
  destruct (uncached db (NewMemory.description d)); [discriminate|]. auto.
Qed.

Lemma missedTexts_cons db drafts :
  forallb (fun d => negb (uncached db (NewMemory.description d))) drafts = false ->
  missedTexts db drafts <> [].
Proof.
  unfold missedTexts. induction drafts as [|d drafts IH]; simpl; [discriminate|].
  destruct (uncached db (NewMemory.description d)); simpl; [discriminate|]. auto.
Qed.

Lemma embeddingRequests_addMemories env drafts w :
  embeddingRequests (snd (addMemories env drafts w))
  = embeddingRequests w ++ providerRequests (store w) drafts.
Proof.
  destruct w as [s er cr u]. rewrite addMemories_unfold. simpl.
  destruct (forallb hasEmbedding _); reflexivity.
Qed.

(** C6 (amended): [addMemories] sends the embedding provider no request when
    every description is cached, which includes the empty batch; otherwise it
    sends one request, which holds the description of every draft that
    misses the cache, in the order of the drafts, once per draft: a
    description that several drafts share is sent as often as it occurs. *)
Theorem provider_request_per_missing_draft env drafts w :
  embeddingRequests (snd (addMemories env drafts w))
  = embeddingRequests w ++
      (if forallb (fun d => negb (uncached (store w) (NewMemory.description d))) drafts
       then []
       else [filter (uncached (store w)) (map NewMemory.description drafts)]).
Proof.
  rewrite embeddingRequests_addMemories. f_equal. unfold providerRequests.
  destruct (forallb _ drafts) eqn:E.
  - now rewrite (missedTexts_nil _ _ E).
  - pose proof (missedTexts_cons _ _ E) as H.
    destruct (missedTexts (store w) drafts) eqn:M; [contradiction|].
    rewrite <- M. reflexivity.
Qed.

(** C6, as stated, fails: two drafts with the same uncached description make
    the request hold that description twice. *)
Lemma duplicate_descriptions_sent_twice :
  embeddingRequests (snd (addMemories sampleEnv [sampleDraft; sampleDraft] sampleWorld))
  = [["Fed the cat"; "Fed the cat"]]
  /\ ~ requestsWithoutDuplicates sampleEnv [sampleDraft; sampleDraft] sampleWorld.
Proof.
  split; [vm_compute; reflexivity|].
  unfold requestsWithoutDuplicates.
  change (embeddingRequests _) with [["Fed the cat"; "Fed the cat"]].
  intros H. inversion H as [|? ? Hd _]; subst.
  inversion Hd as [|? ? Hn _]; subst. apply Hn. now left.
Qed.

(** ** The count of vectors returned *)

Lemma length_alignMisses cached vectors :
  length (alignMisses cached vectors) = length cached.
Proof.
  revert vectors. induction cached as [|[c|] cached IH]; intros vectors; simpl; auto.
  destruct vectors; simpl; auto.
Qed.

Lemma length_draftEmbeddings env db drafts :
  length (draftEmbeddings env db drafts) = length drafts.
Proof.
  unfold draftEmbeddings. now rewrite length_alignMisses, !length_map.
Qed.

Lemma embedding_draftsWithEmbedding env db drafts :
  map NewMemoryWithEmbedding.embedding (draftsWithEmbedding env db drafts)
  = draftEmbeddings env db drafts.
Proof.
  unfold draftsWithEmbedding. rewrite map_map. simpl.
  apply map_nth_indexed. apply length_draftEmbeddings.
Qed.

Lemma description_draftsWithEmbedding env db drafts :
  map NewMemoryWithEmbedding.description (draftsWithEmbedding env db drafts)
  = map NewMemory.description drafts.
Proof.
  unfold draftsWithEmbedding. rewrite map_map. simpl.
  apply (map_snd_indexed NewMemory.description).
Qed.

Lemma importance_draftsWithEmbedding env db drafts :
  map NewMemoryWithEmbedding.importance (draftsWithEmbedding env db drafts)
  = map (draftImportance env) drafts.
Proof.
  unfold draftsWithEmbedding. rewrite map_map. simpl.
  apply (map_snd_indexed (draftImportance env)).
Qed.

Lemma forallb_hasEmbedding ms :
  forallb hasEmbedding ms = forallb isSome (map NewMemoryWithEmbedding.embedding ms).
Proof.
  induction ms as [|m ms IH]; simpl; [reflexivity|]. now rewrite IH.
Qed.

Lemma alignMisses_complete cached vectors :
  forallb isSome (alignMisses cached vectors) = true <->
  (length (filter (fun c => negb (isSome c)) cached) <= length vectors)%nat.
Proof.
  revert vectors. induction cached as [|[c|] cached IH]; intros vectors; simpl.
  - split; [lia|reflexivity].
  - apply IH.
  - destruct vectors as [|v vectors]; simpl.
    + split; [discriminate|lia].
    + rewrite IH. lia.
Qed.

Lemma length_missedTexts db drafts :
  length (filter (fun c => negb (isSome c))
            (map (cacheLookup db) (map NewMemory.description drafts)))
  = length (missedTexts db drafts).
Proof.
  unfold missedTexts. rewrite filter_map_swap, length_map.
  f_equal. apply filter_ext. intros t. unfold uncached.
  destruct (cacheLookup db t); reflexivity.
Qed.

(** The arguments of the internal mutation pass its validator exactly when
    the provider returned at least as many vectors as it was sent texts. *)
Lemma arguments_valid_iff env db drafts :
  forallb hasEmbedding (draftsWithEmbedding env db drafts) = true <->
  (length (missedTexts db drafts) <= length (providerVectors env db drafts))%nat.
Proof.
  rewrite forallb_hasEmbedding, embedding_draftsWithEmbedding.
  unfold draftEmbeddings. rewrite alignMisses_complete.
  now rewrite length_missedTexts.
Qed.

Lemma committed_rows now id ms :
  map text (committedEmbeddings now id ms) = map NewMemoryWithEmbedding.description ms
  /\ map embedding_id (committedEmbeddings now id ms) = map embeddingId (committedMemories now id ms)
  /\ map description (committedMemories now id ms) = map NewMemoryWithEmbedding.description ms
  /\ map importance (committedMemories now id ms) = map NewMemoryWithEmbedding.importance ms
  /\ (forallb hasEmbedding ms = true ->
      map (fun e => Some e.(embedding)) (committedEmbeddings now id ms)
      = map NewMemoryWithEmbedding.embedding ms).
Proof.
  revert id. induction ms as [|m ms IH]; intros id; simpl.
  - repeat split; reflexivity.
  - destruct (IH (N.succ (N.succ id))) as (H1 & H2 & H3 & H4 & H5).
    repeat split; try (f_equal; assumption).
    intros H. apply andb_prop in H. destruct H as [Hm H].
    f_equal; [|now apply H5].
    unfold hasEmbedding in Hm.
    destruct (NewMemoryWithEmbedding.embedding m); [reflexivity|discriminate].
Qed.

(** C4 (amended): when the provider returns fewer vectors than it was sent
    texts, [addMemories] fails at the validator of the internal mutation and
    neither the store nor the vector index is written.  When it returns at
    least as many, [addMemories] succeeds: it commits one embedding row and
    one memory row per draft, the embedding row of a draft holding its
    description and the vector at its position (a cached vector, or the k-th
    vector of the provider for the k-th miss); vectors in surplus are
    ignored. *)
Theorem provider_count_decides_batch env drafts w :
  let requested := missedTexts (store w) drafts in
  let returned := providerVectors env (store w) drafts in
  let r := addMemories env drafts w in
  ((length returned < length requested)%nat ->
   fst r = Throw (ArgumentValidationError "embedding")
   /\ store (snd r) = store w
   /\ upserts (snd r) = upserts w)
  /\
  ((length requested <= length returned)%nat ->
   fst r = Ok tt
   /\ exists es ms,
       embeddings (store (snd r)) = embeddings (store w) ++ es
       /\ memories (store (snd r)) = memories (store w) ++ ms
       /\ map text es = map NewMemory.description drafts
       /\ map (fun e => Some e.(embedding)) es
          = alignMisses (map (cacheLookup (store w)) (map NewMemory.description drafts))
              returned
       /\ map embeddingId ms = map embedding_id es
       /\ map description ms = map NewMemory.description drafts).
Proof.
  intros requested returned r. subst r requested returned.
  destruct w as [s er cr u]. rewrite addMemories_unfold. simpl store.
  pose proof (arguments_valid_iff env s drafts) as V.
  destruct (forallb hasEmbedding (draftsWithEmbedding env s drafts)) eqn:E; simpl.
  - split; [intros H; apply proj1 in V; specialize (V eq_refl); lia|].
    intros _. split; [reflexivity|].
    destruct (committed_rows (Date_now env) (nextId s) (draftsWithEmbedding env s drafts))
      as (H1 & H2 & H3 & _ & H5).
    exists (committedEmbeddings (Date_now env) (nextId s) (draftsWithEmbedding env s drafts)),
      (committedMemories (Date_now env) (nextId s) (draftsWithEmbedding env s drafts)).
    repeat split.
    + now rewrite H1, description_draftsWithEmbedding.
    + rewrite (H5 E). apply embedding_draftsWithEmbedding.
    + now rewrite H2.
    + now rewrite H3, description_draftsWithEmbedding.
  - split; [intros _; repeat split|].
    intros H. apply V in H. discriminate.
Qed.

(** A provider that returns nothing for the one text it is sent, and one
    that returns one vector for it. *)
Lemma provider_count_decides_batch_witness :
  (fst (addMemories silentEnv [sampleDraft] sampleWorld)
   = Throw (ArgumentValidationError "embedding")
   /\ store (snd (addMemories silentEnv [sampleDraft] sampleWorld)) = store sampleWorld
   /\ upserts (snd (addMemories silentEnv [sampleDraft] sampleWorld)) = upserts sampleWorld)
  /\ fst (addMemories sampleEnv [sampleDraft] sampleWorld) = Ok tt.
Proof.
  split.
  - apply (proj1 (provider_count_decides_batch silentEnv [sampleDraft] sampleWorld)).
    vm_compute. lia.
  - apply (proj2 (provider_count_decides_batch sampleEnv [sampleDraft] sampleWorld)).
    vm_compute. lia.
Defined.

(** C4, as stated, fails: the provider returns two vectors for the one text
    it is sent, and the batch is committed. *)
Lemma surplus_vectors_are_committed :
  length (providerVectors surplusEnv (store sampleWorld) [sampleDraft]) = 2%nat
  /\ length (missedTexts (store sampleWorld) [sampleDraft]) = 1%nat
  /\ fst (addMemories surplusEnv [sampleDraft] sampleWorld) = Ok tt
  /\ map description (storedMemories surplusEnv [sampleDraft] sampleWorld) = ["Fed the cat"]
  /\ ~ mismatchFailsBatch surplusEnv [sampleDraft] sampleWorld.
Proof.
  repeat split; try (vm_compute; reflexivity).
  unfold mismatchFailsBatch. intros H.
  assert (G : isOk (fst (addMemories surplusEnv [sampleDraft] sampleWorld)) = false).
  { apply H. vm_compute. discriminate. }
  vm_compute in G. discriminate.
Qed.

(** ** The importance stored *)

(** C7 (amended): every memory row that [addMemories] stores is the row of
    the draft at its place in the batch; the importance stored for a draft
    that states one is the stated number, unchanged, whatever it is; the
    importance stored for a draft that states none is never [NaN]. *)
Theorem stored_importance env drafts w :
  Forall2
    (fun d m =>
       match NewMemory.importance d with
       | Some i => m.(importance) = i
       | None => isNaN m.(importance) = false
       end)
    (firstn (length (storedMemories env drafts w)) drafts)
    (storedMemories env drafts w).
Proof.
  unfold storedMemories. destruct w as [s er cr u]. rewrite addMemories_unfold.
  simpl store.
  destruct (forallb hasEmbedding (draftsWithEmbedding env s drafts)) eqn:E; simpl.
  - rewrite skipn_length_app.
    destruct (committed_rows (Date_now env) (nextId s) (draftsWithEmbedding env s drafts))
      as (_ & _ & _ & H4 & _).
    rewrite importance_draftsWithEmbedding in H4.
    apply eq_sym, map_eq_Forall2 in H4.
    rewrite <- (Forall2_length H4), firstn_all.
    eapply Forall2_impl; [|exact H4].
    intros d m H. simpl in H. unfold draftImportance in H.
    destruct (NewMemory.importance d); [exact H|].
    rewrite H. apply importanceOfReply_not_NaN.
  - replace (skipn (length (memories s)) (memories s)) with (@nil Memory)
      by (symmetry; apply skipn_all).
    constructor.
Qed.

(** C7, as stated, fails: a draft that states the importance 42 has 42
    stored. *)
Lemma importance_off_scale_is_stored :
  map importance (storedMemories sampleEnv [draftImportance42] sampleWorld) = [42%float]
  /\ ~ importancesOnScale sampleEnv [draftImportance42] sampleWorld.
Proof.
  split; [vm_compute; reflexivity|].
  unfold importancesOnScale. intros H.
  apply (Forall_map importance
           (fun i => ((0 <=? i) && (i <=? 9))%float = true)) in H.
  change (map importance _) with [42%float] in H.
  inversion H as [|? ? H42 _]; subst. vm_compute in H42. discriminate.
Qed.

(** ** Remembering a conversation *)

(** When the player has not spoken since its most recent conversation memory
    (and [lastSpokeTs] is not 0), nothing is asked and nothing is stored. *)
Lemma rememberConversation_not_spoken_since env playerName playerId playerIdentity
    conversationId lastSpokeTs w m :
  lastWhere (by_playerId_conversation playerId) (memories (store w)) = Some m ->
  truthy lastSpokeTs = true ->
  (lastSpokeTs <? m.(memory_creationTime))%float = true ->
  rememberConversation env playerName playerId playerIdentity conversationId
    (Some lastSpokeTs) w = (Ok false, w).
Proof.
  intros Hm Ht Hlt.
  unfold rememberConversation, abind, runQuery, getRecentMessages.
  rewrite Hm, Ht, Hlt. reflexivity.
Qed.

(** When no message qualifies, nothing is asked and nothing is stored. *)
Lemma rememberConversation_no_messages env playerName playerId playerIdentity
    conversationId lastSpokeTs w :
  getRecentMessages env playerId conversationId lastSpokeTs (store w) = Ok [] ->
  rememberConversation env playerName playerId playerIdentity conversationId
    lastSpokeTs w = (Ok false, w).
Proof.
  intros H. unfold rememberConversation, abind, runQuery. rewrite H. reflexivity.
Qed.

(** C8 (the code departs from it): conversation 41 has no message and the
    last conversation memory of player 7 is of conversation 40, so
    [getRecentMessages] reads [allMessages[0]._creationTime] of an empty array
    and [rememberConversation] throws instead of returning false.  And a
    [lastSpokeTs] of 0, which is before every memory, is false as a condition:
    the check is skipped and a memory is created. *)
Theorem rememberConversation_empty_conversation_throws :
  rememberConversation sampleEnv "Alice" 7%N "a gardener" 41%N None sampleWorld
  = (Throw (TypeError "_creationTime"), sampleWorld)
  /\ fst (rememberConversation sampleEnv "Alice" 7%N "a gardener" 40%N (Some 0%float)
            chattyWorld) = Ok true
  /\ map data
       (skipn (length (memories (store chattyWorld)))
          (memories (store (snd (rememberConversation sampleEnv "Alice" 7%N "a gardener"
                                   40%N (Some 0%float) chattyWorld)))))
     = [ConversationData 40%N].
Proof. vm_compute. repeat split. Qed.

(** * Further properties *)

(** ** Index queries *)

Lemma lastWhere_Some {A} (p : A -> bool) l a :
  lastWhere p l = Some a -> In a l /\ p a = true.
Proof.
  unfold lastWhere. intros H. apply find_some in H. destruct H as [H1 H2].
  split; [now apply in_rev|exact H2].
Qed.

Lemma lastWhere_None {A} (p : A -> bool) l :
  lastWhere p l = None -> existsb p l = false.
Proof.
  unfold lastWhere. intros H.
  destruct (existsb p l) eqn:E; [|reflexivity].
  apply existsb_exists in E. destruct E as (x & Hx & Hp).
  apply in_rev in Hx. now rewrite (find_none _ _ H x Hx) in Hp.
Qed.

Lemma lastWhere_app_last {A} (p : A -> bool) l a :
  p a = true -> lastWhere p (l ++ [a]) = Some a.
Proof.
  intros H. unfold lastWhere. rewrite rev_app_distr. simpl. now rewrite H.
Qed.

(** X1: [getMemories] returns one memory per embedding id, in the order of
    the ids; each is a row of the store that belongs to the player and refers
    to that embedding.  It throws exactly when no memory row of the player
    refers to one of the ids, and the error names such an id. *)
Theorem getMemories_sound player ids db :
  match getMemories player ids db with
  | Ok ms =>
      Forall2
        (fun id m =>
           In m (memories db) /\ m.(playerId) = player /\ m.(embeddingId) = id)
        ids ms
  | Throw e =>
      exists id,
        In id ids /\ e = NoMemoryFound player id
        /\ existsb (by_playerId_embeddingId player id) (memories db) = false
  end.
Proof.
  destruct (getMemories player ids db) as [ms|e] eqn:E.
  - apply getMemories_Ok in E.
    eapply Forall2_impl; [|exact E].
    intros id m H. unfold hydrate in H. apply lastWhere_Some in H.
    destruct H as [Hin Hp]. unfold by_playerId_embeddingId in Hp.
    apply andb_prop in Hp. destruct Hp as [H1 H2].
    apply N.eqb_eq in H1, H2. auto.
  - apply getMemories_Throw in E. destruct E as (id & Hf & ->).
    apply find_some in Hf. destruct Hf as [Hin Hu].
    exists id. repeat split; auto.
    unfold unhydrated, hydrate in Hu.
    destruct (lastWhere _ _) eqn:L; [discriminate|].
    now apply lastWhere_None.
Qed.

(** ** Scoring *)

Lemma recencyScore_Ok ts related db rs db' :
  asyncMapM (fun memory => mquery (recencyOf ts memory)) related db = Ok (rs, db') ->
  db' = db /\ Forall2 (fun m r => recencyOf ts m db = Ok r) related rs.
Proof.
  revert rs. induction related as [|m related IH]; simpl; intros rs H.
  - inversion H; subst. split; [reflexivity|constructor].
  - unfold mbind at 1 in H. unfold mquery at 1 in H.
    destruct (recencyOf ts m db) as [r|e] eqn:E; [|discriminate].
    unfold mbind in H.
    destruct (asyncMapM _ related db) as [[rs' db'']|e] eqn:E'; [|discriminate].
    unfold mret in H. inversion H; subst.
    destruct (IH rs' eq_refl) as [-> IH']. split; [reflexivity|]. constructor; auto.
Qed.

Lemma scoreOf_Ok candidates rs r1 r2 r3 : forall related preC preR candidates' rs' ss db db',
  candidates = preC ++ candidates' -> rs = preR ++ rs' ->
  length preR = length preC ->
  length candidates' = length related -> length rs' = length related ->
  asyncMapM (scoreOf candidates rs r1 r2 r3)
    (combine (seq (length preC) (length related)) related) db = Ok (ss, db') ->
  db' = db
  /\ ss = map
            (fun t =>
               {| memory := snd (fst t);
                  overallScore :=
                    (normalize (fst (fst t)).(score) r1 +
                     normalize (snd (fst t)).(importance) r2 +
                     normalize (snd t) r3)%float |})
            (combine (combine candidates' related) rs').
Proof.
  induction related as [|m related IH];
    intros preC preR [|c candidates'] [|r rs'] ss db db' HC HR Hpre Hlc Hlr H;
    simpl in Hlc, Hlr; try discriminate.
  - simpl in H. inversion H; subst. split; reflexivity.
  - assert (Hn : nth_error candidates (length preC) = Some c).
    { rewrite HC, nth_error_app2 by lia. now rewrite Nat.sub_diag. }
    simpl in H. unfold mbind at 1 in H. unfold scoreOf at 1 in H.
    fold (scoreOf candidates rs r1 r2 r3) in H.
    rewrite Hn in H.
    unfold mret at 1 in H. unfold mbind in H.
    destruct (asyncMapM (scoreOf candidates rs r1 r2 r3) _ db) as [[ss' db'']|e] eqn:E;
      [|discriminate].
    unfold mret in H. inversion H; subst ss db'. clear H.
    destruct (IH (preC ++ [c]) (preR ++ [r]) candidates' rs' ss' db db'') as [Hdb Hss];
      [ now rewrite <- app_assoc
      | now rewrite <- app_assoc
      | rewrite !length_app; simpl; lia
      | lia
      | lia
      | rewrite length_app; simpl length; rewrite Nat.add_1_r; exact E
      | ].
    subst ss' db''. split; [reflexivity|]. simpl. f_equal. f_equal. f_equal.
    rewrite HR, app_nth2 by lia. rewrite Hpre, Nat.sub_diag. reflexivity.
Qed.

(** Scoring reads the store only, and its result is the zip of the
    candidates with their memories and recency signals. *)
Lemma memoryScores_Ok ts player candidates db scored db' :
  memoryScores ts player candidates db = Ok (scored, db') ->
  db' = db
  /\ exists related rs,
       getMemories player (map candidate_id candidates) db = Ok related
       /\ Forall2 (fun m r => recencyOf ts m db = Ok r) related rs
       /\ scored = scoredOf candidates related rs.
Proof.
  unfold memoryScores. unfold mbind at 1. rewrite relatedMemories_getMemories.
  destruct (getMemories player (map candidate_id candidates) db) as [related|e] eqn:G;
    [|discriminate].
  unfold mbind at 1.
  destruct (asyncMapM (fun memory => mquery (recencyOf ts memory)) related db)
    as [[rs db1]|e] eqn:R; [|discriminate].
  destruct (recencyScore_Ok _ _ _ _ _ R) as [-> HR].
  intros H.
  assert (Hl1 : length candidates = length related).
  { apply getMemories_Ok in G. apply Forall2_length in G. now rewrite length_map in G. }
  assert (Hl2 : length rs = length related) by (symmetry; now apply Forall2_length in HR).
  unfold indexed in H.
  destruct (scoreOf_Ok candidates rs _ _ _ related [] [] candidates rs scored db db'
              eq_refl eq_refl eq_refl Hl1 Hl2 H) as [-> ->].
  split; [reflexivity|]. exists related, rs. repeat split; auto.
Qed.
(** ** [NaN] in the arithmetic *)

Lemma isNaN_spec x : isNaN x = true <-> Prim2SF x = S754_nan.
Proof.
  unfold isNaN, is_nan. rewrite eqb_spec. unfold SFeqb.
  destruct (Prim2SF x) as [s|s| |s m e]; simpl.
  - split; discriminate.
  - destruct s; split; discriminate.
  - split; reflexivity.
  - destruct s; rewrite Z.compare_refl, Pos.compare_cont_refl; simpl; split; discriminate.
Qed.

Lemma isNaN_sub_l x y : isNaN x = true -> isNaN (x - y)%float = true.
Proof.
  rewrite !isNaN_spec, sub_spec. intros ->. reflexivity.
Qed.

Lemma isNaN_sub_r x y : isNaN y = true -> isNaN (x - y)%float = true.
Proof.
  rewrite !isNaN_spec, sub_spec. intros ->. destruct (Prim2SF x); reflexivity.
Qed.

Lemma isNaN_div_l x y : isNaN x = true -> isNaN (x / y)%float = true.
Proof.
  rewrite !isNaN_spec, div_spec. intros ->. reflexivity.
Qed.

Lemma isNaN_add_l x y : isNaN x = true -> isNaN (x + y)%float = true.
Proof.
  rewrite !isNaN_spec, add_spec. intros ->. reflexivity.
Qed.

Lemma isNaN_add_r x y : isNaN y = true -> isNaN (x + y)%float = true.
Proof.
  rewrite !isNaN_spec, add_spec. intros ->. destruct (Prim2SF x); reflexivity.
Qed.

(** A range with a [NaN] end makes every normalized value [NaN]. *)
Lemma normalize_NaN_min v mn mx : isNaN mn = true -> isNaN (normalize v (mn, mx)) = true.
Proof.
  intros H. unfold normalize. apply isNaN_div_l. now apply isNaN_sub_r.
Qed.

Lemma Math_min_NaN values : forall acc,
  isNaN acc = true \/ existsb isNaN values = true ->
  isNaN
    (fold_left
       (fun lowest v =>
          if isNaN lowest || isNaN v then NaN
          else if is_neg_zero v && is_pos_zero lowest then v
          else if (v <? lowest)%float then v else lowest)
       values acc) = true.
Proof.
  induction values as [|v values IH]; intros acc H; simpl.
  - destruct H as [H|H]; [exact H|discriminate].
  - apply IH. simpl in H.
    destruct (isNaN acc) eqn:Ha; [left; reflexivity|].
    destruct (isNaN v) eqn:Hv; [left; reflexivity|].
    right. destruct H as [H|H]; [discriminate|exact H].
Qed.

(** One [NaN] among the values makes the lower end of their range [NaN]. *)
Lemma makeRange_NaN values :
  existsb isNaN values = true -> isNaN (fst (makeRange values)) = true.
Proof.
  intros H. unfold makeRange, Math_min. simpl fst. apply Math_min_NaN. now right.
Qed.

Lemma ord_infinity x :
  isNaN x = false ->
  (2 ^ 2200 <= ord x -> Prim2SF x = S754_infinity false)
  /\ (ord x <= - 2 ^ 2200 -> Prim2SF x = S754_infinity true).
Proof.
  intros Hx. pose proof (Prim2SF_not_nan x Hx) as Hn.
  pose proof (Prim2SF_valid x) as Hv. unfold ord.
  destruct (Prim2SF x) as [s|s| |s m e]; cbn [SFord]; simpl in Hv.
  - split; lia.
  - destruct s; cbn [cond_Zopp]; split; intros H; try reflexivity; lia.
  - contradiction.
  - pose proof (finite_ord_bounds _ _ Hv). destruct s; cbn [cond_Zopp]; split; lia.
Qed.

(** The only value of a signal normalizes to [NaN]. *)
Lemma normalize_single_is_NaN v : isNaN (normalize v (makeRange [v])) = true.
Proof.
  unfold makeRange, Math_min, Math_max. simpl fold_left.
  change (isNaN Infinity) with false. change (isNaN neg_infinity) with false.
  change (is_pos_zero Infinity) with false. change (is_neg_zero neg_infinity) with false.
  rewrite !andb_false_r. simpl orb.
  destruct (isNaN v) eqn:Hv.
  - apply normalize_NaN_min. reflexivity.
  - assert (Hi : isNaN Infinity = false) by reflexivity.
    assert (Hm : isNaN neg_infinity = false) by reflexivity.
    rewrite (ltb_ord _ _ Hv Hi), (ltb_ord _ _ Hm Hv).
    change (ord Infinity) with (2 ^ 2200). change (ord neg_infinity) with (- 2 ^ 2200).
    destruct (ord_infinity v Hv) as [Hp Hq].
    destruct (ord v <? 2 ^ 2200) eqn:L1.
    + destruct (- 2 ^ 2200 <? ord v) eqn:L2.
      * apply normalize_same_is_NaN.
      * apply Z.ltb_ge in L2. specialize (Hq L2).
        unfold normalize. apply isNaN_div_l. apply isNaN_spec.
        rewrite sub_spec, Hq. reflexivity.
    + apply Z.ltb_ge in L1. specialize (Hp L1).
      unfold normalize. apply isNaN_div_l. apply isNaN_spec.
      rewrite sub_spec, Hp. reflexivity.
Qed.

(** X2: when the vector index returns one candidate, its composite score
    is [NaN], whatever its relevance, its importance and its last access:
    every signal is normalized over a range of one value. *)
Theorem single_candidate_score_is_NaN ts player c db :
  match memoryScores ts player [c] db with
  | Ok (scored, _) =>
      exists m s,
        scored = [ {| memory := m; overallScore := s |} ]
        /\ hydrate player db c.(candidate_id) = Some m
        /\ isNaN s = true
  | Throw e => e = NoMemoryFound player c.(candidate_id)
  end.
Proof.
  destruct (memoryScores ts player [c] db) as [[scored db']|e] eqn:E.
  - apply memoryScores_Ok in E. destruct E as (-> & related & rs & G & R & ->).
    pose proof (getMemories_Ok _ _ _ _ G) as F. simpl in F.
    inversion F as [|? m ? related' Hm F']; subst. inversion F'; subst.
    inversion R as [|? r ? rs' Hr R']; subst. inversion R'; subst.
    exists m. eexists. split; [reflexivity|]. split; [exact Hm|].
    simpl. apply isNaN_add_l, isNaN_add_l. apply normalize_single_is_NaN.
  - unfold memoryScores, mbind in E. rewrite relatedMemories_getMemories in E.
    destruct (getMemories player (map candidate_id [c]) db) as [related|e'] eqn:G.
    + exfalso. pose proof (getMemories_Ok _ _ _ _ G) as F.
      destruct (recencyScore_total ts related db) as (rs & Hrs & Hl).
      rewrite Hrs in E.
      destruct (scoreOf_total [c] rs (makeRange (map score [c]))
                  (makeRange (map importance related)) (makeRange rs) (indexed related) db)
        as (ss & Hss & _).
      { intros [i m] Hin. simpl. apply indexed_nth_error in Hin.
        apply Forall2_length in F. simpl in F.
        apply nth_error_Some. simpl. rewrite F. apply nth_error_Some. now rewrite Hin. }
      rewrite Hss in E. discriminate.
    + inversion E; subst. apply getMemories_Throw in G.
      destruct G as (id & Hf & ->). simpl in Hf.
      destruct (unhydrated player db (candidate_id c)); [|discriminate].
      now inversion Hf.
Qed.
Lemma scoredOf_memory_In candidates related rs s :
  In s (scoredOf candidates related rs) -> In s.(memory) related.
Proof.
  unfold scoredOf. intros H. apply in_map_iff in H.
  destruct H as ([[c m] r] & <- & Hin). simpl.
  apply in_combine_l in Hin. now apply in_combine_r in Hin.
Qed.

Lemma normalize_NaN_range v values :
  existsb isNaN values = true -> isNaN (normalize v (makeRange values)) = true.
Proof.
  intros H. unfold makeRange. apply normalize_NaN_min. apply Math_min_NaN. now right.
Qed.

(** X3: one candidate whose stored importance is [NaN] makes the composite
    score of every candidate [NaN]: the range of the importances has a [NaN]
    end, so every normalized importance is [NaN]. *)
Theorem NaN_importance_poisons_scores ts player candidates db scored :
  memoryScores ts player candidates db = Ok (scored, db) ->
  existsb (fun s => isNaN s.(memory).(importance)) scored = true ->
  forallb (fun s => isNaN s.(overallScore)) scored = true.
Proof.
  intros E H. apply memoryScores_Ok in E.
  destruct E as (_ & related & rs & _ & _ & ->).
  assert (Hr : existsb isNaN (map importance related) = true).
  { apply existsb_exists in H. destruct H as (s & Hs & Hn).
    apply existsb_exists. exists s.(memory).(importance). split; [|exact Hn].
    apply in_map. now apply scoredOf_memory_In in Hs. }
  apply forallb_forall. intros s Hs. unfold scoredOf in Hs.
  apply in_map_iff in Hs. destruct Hs as (t & <- & _). cbn [overallScore].
  apply isNaN_add_l, isNaN_add_r. now apply normalize_NaN_range.
Qed.

Lemma NaN_importance_poisons_scores_witness :
  forallb (fun s => isNaN s.(overallScore)) nanImportanceScored = true.
Proof.
  apply (NaN_importance_poisons_scores sampleNow 7%N sampleCandidates nanImportanceStore
           nanImportanceScored).
  - vm_compute. reflexivity.
  - vm_compute. reflexivity.
Defined.
(** ** The ends of a range *)

Lemma is_zero_spec x :
  PrimFloat.is_zero x = true <-> exists s, Prim2SF x = S754_zero s.
Proof.
  unfold is_zero. rewrite eqb_spec. change (Prim2SF zero) with (S754_zero false).
  unfold SFeqb. destruct (Prim2SF x) as [s|s| |s m e]; simpl.
  - split; eauto.
  - destruct s; split; try discriminate; intros [? ?]; discriminate.
  - split; try discriminate; intros [? ?]; discriminate.
  - destruct s; split; try discriminate; intros [? ?]; discriminate.
Qed.

Lemma is_finite_nonzero_spec x :
  PrimFloat.is_finite x = true -> PrimFloat.is_zero x = false ->
  exists s m e, Prim2SF x = S754_finite s m e.
Proof.
  unfold is_finite. intros Hf Hz.
  apply negb_true_iff, orb_false_iff in Hf. destruct Hf as [Hn Hi].
  pose proof (Prim2SF_not_nan x Hn) as Hnn.
  unfold is_infinity in Hi. rewrite eqb_spec, abs_spec in Hi.
  change (Prim2SF infinity) with (S754_infinity false) in Hi.
  destruct (Prim2SF x) as [s|s| |s m e] eqn:E.
  - exfalso. assert (H : is_zero x = true) by (apply is_zero_spec; eauto).
    rewrite H in Hz. discriminate.
  - discriminate.
  - contradiction.
  - eauto.
Qed.

(** A finite number other than zero divided by itself is 1. *)
Lemma SFdiv_same s m e :
  SFdiv prec emax (S754_finite s m e) (S754_finite s m e) = Prim2SF 1%float.
Proof.
  unfold SFdiv, SFdiv_core_binary.
  replace (Zdigits2 (Zpos m) + e - (Zdigits2 (Zpos m) + e)) with 0 by lia.
  rewrite Z.sub_diag.
  change (Z.min (fexp prec emax 0) 0) with (-53).
  change (0 - -53) with 53.
  rewrite Z.shiftl_mul_pow2 by lia.
  destruct (Z.div_eucl (Zpos m * 2 ^ 53) (Zpos m)) as [q r] eqn:E.
  assert (Hq : q = 2 ^ 53).
  { change q with (fst (q, r)). rewrite <- E. change (fst (Z.div_eucl ?a ?b)) with (a / b).
    rewrite Z.mul_comm. apply Z.div_mul. lia. }
  assert (Hr : r = 0).
  { change r with (snd (q, r)). rewrite <- E. change (snd (Z.div_eucl ?a ?b)) with (a mod b).
    rewrite Z.mul_comm. apply Z.mod_mul. lia. }
  subst q r. unfold new_location, new_location_even, new_location_odd.
  destruct s; destruct (Z.even (Zpos m)); vm_compute; reflexivity.
Qed.

(** X4: when the two ends of a range differ by a finite amount other than
    zero, the upper end normalizes to exactly 1 and the lower end to zero. *)
Theorem normalize_ends mn mx :
  PrimFloat.is_finite (mx - mn) = true ->
  PrimFloat.is_zero (mx - mn) = false ->
  normalize mx (mn, mx) = 1%float
  /\ PrimFloat.is_zero (normalize mn (mn, mx)) = true.
Proof.
  intros Hf Hz. destruct (is_finite_nonzero_spec _ Hf Hz) as (s & m & e & Hd).
  unfold normalize. split.
  - apply Prim2SF_inj. rewrite div_spec, Hd. apply SFdiv_same.
  - apply is_zero_spec. rewrite div_spec, Hd, sub_spec.
    rewrite sub_spec in Hd.
    destruct (Prim2SF mn) as [sn|sn| |sn mm en]; simpl.
    + destruct sn; simpl; eauto.
    + exfalso. destruct (Prim2SF mx) as [sx|sx| |sx ? ?]; simpl in Hd;
        try discriminate; destruct sx, sn; discriminate.
    + exfalso. destruct (Prim2SF mx); discriminate.
    + rewrite Z.sub_diag. simpl. eauto.
Qed.

Lemma normalize_ends_witness :
  normalize 0.9%float (0.2%float, 0.9%float) = 1%float
  /\ PrimFloat.is_zero (normalize 0.2%float (0.2%float, 0.9%float)) = true.
Proof.
  apply (normalize_ends 0.2%float 0.9%float); vm_compute; reflexivity.
Defined.
(** ** Results and access rows, for every count *)

Lemma length_Array_sort {A} (comparefn : A -> A -> number) l :
  length (Array_sort comparefn l) = length l.
Proof.
  apply Permutation_length, Array_sort_perm.
Qed.

Lemma StronglySorted_impl_In {A} (R S : A -> A -> Prop) l :
  (forall a b, In a l -> In b l -> R a b -> S a b) ->
  StronglySorted R l -> StronglySorted S l.
Proof.
  intros H Hs. induction Hs as [|a l Hs IH Ha]; constructor.
  - apply IH. intros x y Hx Hy. apply H; now right.
  - rewrite Forall_forall in *. intros x Hx.
    apply H; [now left|now right|now apply Ha].
Qed.

Lemma ltb_NaN_l x y : isNaN x = true -> (x <? y)%float = false.
Proof.
  intros H. apply isNaN_spec in H. rewrite ltb_spec, H. reflexivity.
Qed.

Lemma ltb_NaN_r x y : isNaN y = true -> (x <? y)%float = false.
Proof.
  intros H. apply isNaN_spec in H. rewrite ltb_spec, H.
  unfold SFltb. destruct (Prim2SF x) as [s|s| |s m e]; try reflexivity;
    destruct s; reflexivity.
Qed.

(** A comparator that is never positive on the elements of an array moves
    none of them. *)
Lemma Array_sort_keeps_order {A} (comparefn : A -> A -> number) l :
  (forall x y, In x l -> In y l -> (0 <? comparefn x y)%float = false) ->
  Array_sort comparefn l = l.
Proof.
  unfold Array_sort. induction l as [|x l IH]; intros H; simpl; [reflexivity|].
  rewrite IH by (intros a b Ha Hb; apply H; now right).
  destruct l as [|y l]; simpl; [reflexivity|].
  rewrite H; [reflexivity|now left|right; now left].
Qed.

Lemma rankedBefore_staysBefore a b :
  scoreIsNumber a -> scoreIsNumber b -> rankedBefore a b -> staysBefore a b.
Proof.
  intros Ha Hb H. apply (rankedBefore_ord a b Ha Hb) in H.
  unfold staysBefore. unfold scoreIsNumber in Ha, Hb.
  rewrite (ltb_ord _ _ Ha Hb), (ltb_ord _ _ Hb Ha), Z.ltb_ge, Z.ltb_lt. lia.
Qed.

(** The sorted array, for a consistent comparator. *)
Lemma Array_sort_staysBefore scored :
  scoresComparable scored ->
  StronglySorted staysBefore (Array_sort byScoreDescendingAt (indexed scored)).
Proof.
  intros [Hn|Hn].
  - assert (Hn' : Forall scoreIsNumber (indexed scored)).
    { apply Forall_forall. intros [i a] Hin. unfold scoreIsNumber. simpl.
      apply indexed_nth_error, nth_error_In in Hin.
      rewrite Forall_forall in Hn. now apply Hn. }
    assert (Hs : Forall scoreIsNumber (Array_sort byScoreDescendingAt (indexed scored)))
      by (apply (Permutation_Forall (Permutation_sym (Array_sort_perm _ _))); exact Hn').
    apply (StronglySorted_impl_In rankedBefore).
    + rewrite Forall_forall in Hs. intros a b Ha Hb.
      apply rankedBefore_staysBefore; auto.
    + apply Array_sort_sorted; [exact Hn'|apply indexed_increasing].
  - assert (Hn' : forall a, In a (indexed scored) -> isNaN (snd a).(overallScore) = true).
    { intros [i a] Hin. simpl.
      apply indexed_nth_error, nth_error_In in Hin.
      rewrite Forall_forall in Hn. now apply Hn. }
    rewrite Array_sort_keeps_order.
    + apply (StronglySorted_impl_In (fun a b => (fst a < fst b)%nat));
        [|apply indexed_increasing].
      intros a b Ha Hb Hlt. split; [|now right].
      apply ltb_NaN_l. now apply Hn'.
    + intros x y Hx Hy. unfold byScoreDescendingAt, byScoreDescending.
      apply ltb_NaN_r. apply isNaN_sub_l. now apply Hn'.
Qed.

Lemma length_Array_slice0 {A} (l : list A) count :
  length (Array_slice0 l count) = sliceLength (length l) count.
Proof.
  unfold Array_slice0, sliceLength. rewrite length_firstn.
  destruct (Z.ltb_spec count 0); lia.
Qed.

(** X5: for every count, negative ones included, when the comparator of
    the sort is consistent on the composite scores (none of them is [NaN], or
    all are), the internal mutation [accessMemories] returns what
    [slice(0, count)] keeps of the sorted candidates: every scored candidate
    is sorted once, none below a later one, and candidates that the
    comparator does not tell apart (a tie, or scores that are all [NaN]) stay
    in the order of the vector query.  It inserts exactly one access row per
    result, in the order of the results, and writes nothing else. *)
Theorem accessMemories_logs_its_results now player candidates count db scored :
  memoryScores now player candidates db = Ok (scored, db) ->
  scoresComparable scored ->
  exists ranked rows db',
    Permutation ranked (indexed scored)
    /\ StronglySorted staysBefore ranked
    /\ accessMemories_handler now player candidates count db
       = Ok (Array_slice0 (map snd ranked) count, db')
    /\ length (Array_slice0 (map snd ranked) count)
       = sliceLength (length candidates) count
    /\ memoryAccesses db' = memoryAccesses db ++ rows
    /\ map memoryId rows
       = map (fun a => a.(memory).(memory_id)) (Array_slice0 (map snd ranked) count)
    /\ memories db' = memories db
    /\ embeddings db' = embeddings db
    /\ journal db' = journal db.
Proof.
  intros Hs Hc.
  set (ranked := Array_sort byScoreDescendingAt (indexed scored)).
  set (accessed := Array_slice0 (map snd ranked) count).
  exists ranked, (accessRows now (nextId db) accessed), (withAccesses now accessed db).
  assert (Hlen : length scored = length candidates).
  { destruct (memoryScores_Ok _ _ _ _ _ _ Hs) as (_ & related & rs & G & R & ->).
    apply getMemories_Ok, Forall2_length in G. apply Forall2_length in R.
    rewrite length_map in G. unfold scoredOf.
    rewrite length_map, !length_combine. lia. }
  assert (E : Array_sort byScoreDescending scored = map snd ranked).
  { unfold ranked. rewrite Array_sort_map_snd. now rewrite map_snd_indexed_id. }
  split; [apply Array_sort_perm|].
  split; [now apply Array_sort_staysBefore|].
  split.
  - unfold accessMemories_handler. unfold mbind at 1. rewrite Hs, E. fold accessed.
    destruct (insertMemoryAccess_all now accessed db) as [ids Hids].
    unfold mbind. rewrite Hids. reflexivity.
  - split.
    + unfold accessed. rewrite length_Array_slice0, <- E, length_Array_sort, Hlen.
      reflexivity.
    + repeat split. apply memoryId_accessRows.
Qed.

(** The candidates that tie on the relevance, whose composite scores are all
    [NaN], with the count -1. *)
Lemma accessMemories_logs_its_results_witness :
  exists ranked rows db',
    Permutation ranked (indexed tiedScored)
    /\ StronglySorted staysBefore ranked
    /\ accessMemories_handler sampleNow 7%N tiedCandidates (-1) sampleStore
       = Ok (Array_slice0 (map snd ranked) (-1), db')
    /\ length (Array_slice0 (map snd ranked) (-1))
       = sliceLength (length tiedCandidates) (-1)
    /\ memoryAccesses db' = memoryAccesses sampleStore ++ rows
    /\ map memoryId rows
       = map (fun a => a.(memory).(memory_id)) (Array_slice0 (map snd ranked) (-1))
    /\ memories db' = memories sampleStore
    /\ embeddings db' = embeddings sampleStore
    /\ journal db' = journal sampleStore.
Proof.
  apply (accessMemories_logs_its_results sampleNow 7%N tiedCandidates (-1) sampleStore
           tiedScored).
  - vm_compute. reflexivity.
  - right. repeat (constructor; [reflexivity|]). constructor.
Defined.
(** ** Filtering ranked results by type *)

Lemma StronglySorted_firstn {A} (R : A -> A -> Prop) k l :
  StronglySorted R l -> StronglySorted R (firstn k l).
Proof.
  intros H. revert k. induction H as [|a l H IH Ha]; intros [|k]; simpl; try constructor.
  - apply IH.
  - rewrite Forall_forall in *. intros x Hx. apply Ha.
    rewrite <- (firstn_skipn k l). apply in_or_app. now left.
Qed.

Lemma StronglySorted_filter {A} (R : A -> A -> Prop) p l :
  StronglySorted R l -> StronglySorted R (filter p l).
Proof.
  intros H. induction H as [|a l H IH Ha]; simpl; [constructor|].
  destruct (p a); [|exact IH].
  constructor; [exact IH|].
  rewrite Forall_forall in *. intros x Hx. apply Ha.
  apply filter_In in Hx. tauto.
Qed.

Lemma StronglySorted_map_snd ranked :
  Forall scoreIsNumber ranked ->
  StronglySorted rankedBefore ranked ->
  StronglySorted scoreNotAbove (map snd ranked).
Proof.
  intros Hn H. induction H as [|a l H IH Ha]; simpl; [constructor|].
  inversion Hn as [|? ? Hna Hnl]; subst.
  constructor; [now apply IH|].
  rewrite Forall_forall in *. intros x Hx.
  apply in_map_iff in Hx. destruct Hx as (b & <- & Hb).
  apply rankedBefore_leb; auto.
Qed.

(** X6: when the composite scores are numbers, [filterMemoriesType] applied
    to the results of [accessMemories] keeps them in the order of the
    ranking, no score above an earlier one, and keeps exactly the results
    whose [data.type] is listed. *)
Theorem filterMemoriesType_keeps_ranking now player candidates count db scored memoryTypes :
  memoryScores now player candidates db = Ok (scored, db) ->
  Forall (fun s => isNaN s.(overallScore) = false) scored ->
  exists accessed db',
    accessMemories_handler now player candidates count db = Ok (accessed, db')
    /\ StronglySorted scoreNotAbove (filterMemoriesType memoryTypes accessed)
    /\ forall a,
         In a (filterMemoriesType memoryTypes accessed)
         <-> In a accessed /\ In (dataType a.(memory).(data)) memoryTypes.
Proof.
  intros Hs Hn.
  set (ranked := Array_sort byScoreDescendingAt (indexed scored)).
  set (k := sliceLength (length (Array_sort byScoreDescending scored)) count).
  assert (Hn' : Forall scoreIsNumber (indexed scored)).
  { apply Forall_forall. intros [i a] Hin. unfold scoreIsNumber. simpl.
    apply indexed_nth_error, nth_error_In in Hin.
    rewrite Forall_forall in Hn. now apply Hn. }
  assert (Hr : Forall scoreIsNumber ranked)
    by (apply (Permutation_Forall (Permutation_sym (Array_sort_perm _ _))); exact Hn').
  exists (firstn k (Array_sort byScoreDescending scored)),
    (withAccesses now (firstn k (Array_sort byScoreDescending scored)) db).
  split.
  - unfold accessMemories_handler. unfold mbind at 1. rewrite Hs.
    change (Array_slice0 (Array_sort byScoreDescending scored) count)
      with (firstn k (Array_sort byScoreDescending scored)).
    destruct (insertMemoryAccess_all now (firstn k (Array_sort byScoreDescending scored)) db)
      as [ids Hids].
    unfold mbind. rewrite Hids. reflexivity.
  - split.
    + unfold filterMemoriesType. apply StronglySorted_filter, StronglySorted_firstn.
      rewrite <- (map_snd_indexed_id scored) at 1.
      rewrite <- Array_sort_map_snd.
      apply StronglySorted_map_snd; [exact Hr|].
      apply Array_sort_sorted; [exact Hn'|apply indexed_increasing].
    + intros a. unfold filterMemoriesType. rewrite filter_In.
      split; intros [H1 H2]; split; auto.
      * apply existsb_exists in H2. destruct H2 as (t & Ht & Heq).
        apply String.eqb_eq in Heq. now subst.
      * apply existsb_exists. eexists. split; [exact H2|apply String.eqb_refl].
Qed.

Lemma filterMemoriesType_keeps_ranking_witness :
  exists accessed db',
    accessMemories_handler sampleNow 7%N sampleCandidates 3 sampleStore = Ok (accessed, db')
    /\ StronglySorted scoreNotAbove (filterMemoriesType ["reflection"] accessed)
    /\ forall a,
         In a (filterMemoriesType ["reflection"] accessed)
         <-> In a accessed /\ In (dataType a.(memory).(data)) ["reflection"].
Proof.
  apply (filterMemoriesType_keeps_ranking sampleNow 7%N sampleCandidates 3 sampleStore
           sampleScored ["reflection"]).
  - vm_compute. reflexivity.
  - repeat (constructor; [reflexivity|]). constructor.
Defined.
(** ** The embedding cache *)

Lemma find_app {A} (p : A -> bool) l1 l2 :
  find p (l1 ++ l2) = match find p l1 with Some x => Some x | None => find p l2 end.
Proof.
  induction l1 as [|a l1 IH]; simpl; [reflexivity|].
  destruct (p a); [reflexivity|exact IH].
Qed.

(** X7: [checkEmbeddingCache] answers every text, in order: a hit is the
    vector of an embedding row whose text is exactly the text asked, and a
    miss means that no embedding row has that text. *)
Theorem checkEmbeddingCache_sound texts db :
  exists cached,
    checkEmbeddingCache texts db = Ok cached
    /\ Forall2
         (fun t c =>
            match c with
            | Some v =>
                exists e, In e (embeddings db) /\ e.(text) = t /\ e.(embedding) = v
            | None => existsb (by_text t) (embeddings db) = false
            end)
         texts cached.
Proof.
  exists (map (cacheLookup db) texts). split; [apply checkEmbeddingCache_lookup|].
  induction texts as [|t texts IH]; simpl; constructor; [|exact IH].
  unfold cacheLookup, firstWhere.
  destruct (find (by_text t) (embeddings db)) as [e|] eqn:E; simpl.
  - apply find_some in E. destruct E as [Hin Hp].
    exists e. repeat split; auto. now apply String.eqb_eq in Hp.
  - destruct (existsb (by_text t) (embeddings db)) eqn:X; [|reflexivity].
    apply existsb_exists in X. destruct X as (e & Hin & Hp).
    now rewrite (find_none _ _ E e Hin) in Hp.
Qed.

Lemma find_committedEmbeddings now t : forall ms id,
  forallb hasEmbedding ms = true ->
  option_map embedding (find (by_text t) (committedEmbeddings now id ms))
  = firstWithDescription t ms.
Proof.
  unfold firstWithDescription.
  induction ms as [|m ms IH]; intros id H; simpl; [reflexivity|].
  simpl in H. apply andb_prop in H. destruct H as [Hm H].
  unfold by_text at 1. simpl text.
  destruct (String.eqb (NewMemoryWithEmbedding.description m) t).
  - simpl. unfold hasEmbedding in Hm.
    destruct (NewMemoryWithEmbedding.embedding m); [reflexivity|discriminate].
  - now apply IH.
Qed.

Lemma cacheLookup_committed now ms db t :
  forallb hasEmbedding ms = true ->
  cacheLookup (committed now ms db) t
  = match cacheLookup db t with
    | Some v => Some v
    | None => firstWithDescription t ms
    end.
Proof.
  intros H. unfold cacheLookup, firstWhere, committed. simpl embeddings.
  rewrite find_app.
  destruct (find (by_text t) (embeddings db)) as [e|]; simpl; [reflexivity|].
  now apply find_committedEmbeddings.
Qed.

(** X8: after the internal mutation [addMemories], a text that was cached
    keeps its vector, and a text that was not cached has the vector of the
    first argument of the batch with that description; every other text
    still misses. *)
Theorem cache_after_addMemories now ms db t :
  forallb hasEmbedding ms = true ->
  match addMemories_handler now ms db with
  | Ok (_, db') =>
      cacheLookup db' t
      = match cacheLookup db t with
        | Some v => Some v
        | None => firstWithDescription t ms
        end
  | Throw _ => False
  end.
Proof.
  intros H. rewrite (addMemories_handler_commits _ _ _ H).
  now apply cacheLookup_committed.
Qed.
Lemma cache_after_addMemories_witness :
  match addMemories_handler sampleNow (draftsWithEmbedding sampleEnv sampleStore [sampleDraft])
          sampleStore with
  | Ok (_, db') =>
      cacheLookup db' "Fed the cat"
      = match cacheLookup sampleStore "Fed the cat" with
        | Some v => Some v
        | None =>
            firstWithDescription "Fed the cat"
              (draftsWithEmbedding sampleEnv sampleStore [sampleDraft])
        end
  | Throw _ => False
  end.
Proof.
  apply (cache_after_addMemories sampleNow
           (draftsWithEmbedding sampleEnv sampleStore [sampleDraft]) sampleStore "Fed the cat").
  vm_compute. reflexivity.
Defined.

(** ** Rows committed and found again *)

Lemma lastWhere_app {A} (p : A -> bool) l1 l2 :
  lastWhere p (l1 ++ l2)
  = match lastWhere p l2 with Some x => Some x | None => lastWhere p l1 end.
Proof.
  unfold lastWhere. rewrite rev_app_distr. apply find_app.
Qed.

Lemma lastWhere_cons {A} (p : A -> bool) a l :
  lastWhere p (a :: l)
  = match lastWhere p l with Some x => Some x | None => if p a then Some a else None end.
Proof.
  change (a :: l) with ([a] ++ l). rewrite lastWhere_app.
  destruct (lastWhere p l); [reflexivity|]. unfold lastWhere. simpl.
  destruct (p a); reflexivity.
Qed.

Lemma committedMemories_later now player id : forall ms k,
  (id < k)%N ->
  lastWhere (by_playerId_embeddingId player id) (committedMemories now k ms) = None.
Proof.
  induction ms as [|m ms IH]; intros k Hk; simpl; [reflexivity|].
  rewrite lastWhere_cons, IH by lia.
  unfold by_playerId_embeddingId. simpl embeddingId.
  replace (k =? id)%N with false by (symmetry; apply N.eqb_neq; lia).
  now rewrite andb_false_r.
Qed.

Lemma committedMemories_found now : forall ms k,
  Forall2
    (fun id m =>
       exists row,
         lastWhere (by_playerId_embeddingId (NewMemoryWithEmbedding.playerId m) id)
           (committedMemories now k ms) = Some row
         /\ row.(description) = NewMemoryWithEmbedding.description m
         /\ row.(importance) = NewMemoryWithEmbedding.importance m
         /\ row.(data) = NewMemoryWithEmbedding.data m
         /\ row.(embeddingId) = id
         /\ row.(memory_creationTime) = now)
    (committedIds k ms) ms.
Proof.
  induction ms as [|m ms IH]; intros k; simpl; constructor.
  - eexists. rewrite lastWhere_cons, committedMemories_later by lia.
    unfold by_playerId_embeddingId. simpl. rewrite !N.eqb_refl. simpl.
    split; [reflexivity|]. repeat split.
  - eapply Forall2_impl; [|apply (IH (N.succ (N.succ k)))].
    intros id m' (row & Hrow & Hrest). exists row. split; [|exact Hrest].
    now rewrite lastWhere_cons, Hrow.
Qed.

(** X9: every pair the internal mutation [addMemories] commits is found
    again: [getMemoryByEmbeddingId], asked for the player of an argument and
    the embedding id returned for it, gives the memory row inserted for this
    argument, with its description, importance and payload, whatever the
    store held before. *)
Theorem addMemories_rows_hydrate now ms db :
  forallb hasEmbedding ms = true ->
  match addMemories_handler now ms db with
  | Ok (embeddingIds, db') =>
      Forall2
        (fun id m =>
           exists row,
             getMemoryByEmbeddingId (NewMemoryWithEmbedding.playerId m) id db' = Ok row
             /\ row.(description) = NewMemoryWithEmbedding.description m
             /\ row.(importance) = NewMemoryWithEmbedding.importance m
             /\ row.(data) = NewMemoryWithEmbedding.data m
             /\ row.(embeddingId) = id)
        embeddingIds ms
  | Throw _ => False
  end.
Proof.
  intros H. rewrite (addMemories_handler_commits _ _ _ H).
  eapply Forall2_impl; [|apply (committedMemories_found now ms (nextId db))].
  intros id m (row & Hrow & Hd & Hi & Hp & He & _). exists row.
  split; [|repeat split; assumption].
  unfold getMemoryByEmbeddingId, committed. simpl memories.
  now rewrite lastWhere_app, Hrow.
Qed.

Lemma addMemories_rows_hydrate_witness :
  match addMemories_handler sampleNow
          (draftsWithEmbedding sampleEnv sampleStore [sampleDraft; draftImportance42])
          sampleStore with
  | Ok (embeddingIds, db') =>
      Forall2
        (fun id m =>
           exists row,
             getMemoryByEmbeddingId (NewMemoryWithEmbedding.playerId m) id db' = Ok row
             /\ row.(description) = NewMemoryWithEmbedding.description m
             /\ row.(importance) = NewMemoryWithEmbedding.importance m
             /\ row.(data) = NewMemoryWithEmbedding.data m
             /\ row.(embeddingId) = id)
        embeddingIds
        (draftsWithEmbedding sampleEnv sampleStore [sampleDraft; draftImportance42])
  | Throw _ => False
  end.
Proof.
  apply (addMemories_rows_hydrate sampleNow
           (draftsWithEmbedding sampleEnv sampleStore [sampleDraft; draftImportance42])
           sampleStore).
  vm_compute. reflexivity.
Defined.
(** ** Requests of [addMemories] *)

Lemma completionRequests_addMemories env drafts w :
  completionRequests (snd (addMemories env drafts w))
  = completionRequests w ++ flat_map draftCompletionRequests drafts.
Proof.
  destruct w as [s er cr u]. rewrite addMemories_unfold. simpl.
  destruct (forallb hasEmbedding _); reflexivity.
Qed.

(** X10: [addMemories] asks the language model once for every draft that
    states no importance, in the order of the drafts and with the messages of
    the importance request, and never for a draft that states one; it does so
    also when the batch fails afterwards. *)
Theorem completion_request_per_unset_draft env drafts w :
  completionRequests (snd (addMemories env drafts w))
  = completionRequests w ++
      map (fun d => importanceMessages (NewMemory.description d))
        (filter importanceUnset drafts).
Proof.
  rewrite completionRequests_addMemories. f_equal.
  induction drafts as [|d drafts IH]; simpl; [reflexivity|].
  unfold draftCompletionRequests at 1, importanceUnset at 1.
  destruct (NewMemory.importance d); simpl; now rewrite IH.
Qed.

Lemma cached_after_commit now ms db d :
  forallb hasEmbedding ms = true ->
  In d (map NewMemoryWithEmbedding.description ms) ->
  uncached (committed now ms db) d = false.
Proof.
  intros H Hin. unfold uncached. rewrite (cacheLookup_committed now ms db d H).
  destruct (cacheLookup db d); [reflexivity|].
  unfold firstWithDescription.
  destruct (find (fun m => String.eqb (NewMemoryWithEmbedding.description m) d) ms)
    as [m|] eqn:F.
  - apply find_some in F. destruct F as [Hm _].
    rewrite forallb_forall in H. specialize (H m Hm). unfold hasEmbedding in H.
    destruct (NewMemoryWithEmbedding.embedding m); [reflexivity|discriminate].
  - exfalso. apply in_map_iff in Hin. destruct Hin as (m & <- & Hm).
    pose proof (find_none _ _ F m Hm) as N. simpl in N.
    now rewrite String.eqb_refl in N.
Qed.
Lemma addMemories_Ok_store env drafts w :
  fst (addMemories env drafts w) = Ok tt ->
  forallb hasEmbedding (draftsWithEmbedding env (store w) drafts) = true
  /\ store (snd (addMemories env drafts w))
     = committed (Date_now env) (draftsWithEmbedding env (store w) drafts) (store w).
Proof.
  destruct w as [s er cr u]. rewrite addMemories_unfold. simpl store.
  destruct (forallb hasEmbedding (draftsWithEmbedding env s drafts)); simpl.
  - intros _. split; reflexivity.
  - discriminate.
Qed.

(** X11: after [addMemories] has committed a batch, every description of
    the batch is cached: a later batch that has only descriptions of the
    first one sends nothing to the embedding provider. *)
Theorem committed_descriptions_are_cached env drafts later w :
  fst (addMemories env drafts w) = Ok tt ->
  forallb
    (fun d =>
       existsb (String.eqb (NewMemory.description d)) (map NewMemory.description drafts))
    later = true ->
  embeddingRequests (snd (addMemories env later (snd (addMemories env drafts w))))
  = embeddingRequests (snd (addMemories env drafts w)).
Proof.
  intros Hok Hsub. destruct (addMemories_Ok_store env drafts w Hok) as [Hv Hst].
  rewrite embeddingRequests_addMemories. unfold providerRequests.
  rewrite missedTexts_nil; [apply app_nil_r|].
  apply forallb_forall. intros d Hd.
  rewrite forallb_forall in Hsub. specialize (Hsub d Hd).
  apply existsb_exists in Hsub. destruct Hsub as (t & Ht & Heq).
  apply String.eqb_eq in Heq. subst t.
  rewrite Hst. rewrite cached_after_commit; [reflexivity|exact Hv|].
  now rewrite description_draftsWithEmbedding.
Qed.

Lemma committed_descriptions_are_cached_witness :
  embeddingRequests
    (snd (addMemories sampleEnv [sampleDraft]
            (snd (addMemories sampleEnv [sampleDraft; draftImportance42] sampleWorld))))
  = embeddingRequests (snd (addMemories sampleEnv [sampleDraft; draftImportance42] sampleWorld)).
Proof.
  apply (committed_descriptions_are_cached sampleEnv [sampleDraft; draftImportance42]
           [sampleDraft] sampleWorld).
  - vm_compute. reflexivity.
  - vm_compute. reflexivity.
Defined.
(** ** Upserts into the vector index *)

Lemma upsertItemsOf_committed now ms : forall rest pre k,
  ms = pre ++ rest ->
  forallb hasEmbedding rest = true ->
  upsertItemsOf (map NewMemoryWithEmbedding.embedding ms) ms
    (combine (seq (length pre) (length rest)) (committedIds k rest))
  = map (fun e => (e.(embedding_id), Some e.(embedding), e.(embedding_playerId)))
      (committedEmbeddings now k rest).
Proof.
  unfold upsertItemsOf.
  induction rest as [|m rest IH]; intros pre k Hms Hv; simpl; [reflexivity|].
  simpl in Hv. apply andb_prop in Hv. destruct Hv as [Hm Hv].
  assert (Hn : nth_error ms (length pre) = Some m).
  { rewrite Hms, nth_error_app2 by lia. now rewrite Nat.sub_diag. }
  rewrite Hn. simpl app. f_equal.
  - f_equal. f_equal.
    rewrite (nth_error_nth _ _ _ (map_nth_error NewMemoryWithEmbedding.embedding _ _ Hn)).
    unfold hasEmbedding in Hm.
    destruct (NewMemoryWithEmbedding.embedding m); [reflexivity|discriminate].
  - specialize (IH (pre ++ [m]) (N.succ (N.succ k))).
    rewrite length_app in IH. simpl length in IH. rewrite Nat.add_1_r in IH.
    apply IH; [now rewrite <- app_assoc|exact Hv].
Qed.

(** X12: when [addMemories] succeeds it has called the vector index once,
    after the commit, with one item per draft, in the order of the drafts:
    the id and the vector of the embedding row committed for the draft and
    the player of the draft. *)
Theorem upserts_mirror_committed_embeddings env drafts w :
  fst (addMemories env drafts w) = Ok tt ->
  upserts (snd (addMemories env drafts w))
  = upserts w ++
      [ map (fun e => (e.(embedding_id), Some e.(embedding), e.(embedding_playerId)))
          (skipn (length (embeddings (store w)))
             (embeddings (store (snd (addMemories env drafts w))))) ]
  /\ map embedding_playerId
       (skipn (length (embeddings (store w)))
          (embeddings (store (snd (addMemories env drafts w)))))
     = map NewMemory.playerId drafts.
Proof.
  destruct w as [s er cr u]. rewrite addMemories_unfold. simpl store.
  destruct (forallb hasEmbedding (draftsWithEmbedding env s drafts)) eqn:E; simpl;
    [intros _|discriminate].
  rewrite skipn_length_app. split.
  - do 2 f_equal. rewrite <- embedding_draftsWithEmbedding.
    unfold indexed. rewrite length_committedIds.
    apply (upsertItemsOf_committed (Date_now env) (draftsWithEmbedding env s drafts)
             (draftsWithEmbedding env s drafts) [] (nextId s) eq_refl E).
  - generalize (nextId s). unfold draftsWithEmbedding.
    rewrite <- (map_snd_indexed NewMemory.playerId drafts).
    induction (indexed drafts) as [|d l IH]; intros k; simpl; [reflexivity|].
    now rewrite IH.
Qed.

Lemma upserts_mirror_committed_embeddings_witness :
  upserts (snd (addMemories sampleEnv [sampleDraft] sampleWorld))
  = upserts sampleWorld ++
      [ map (fun e => (e.(embedding_id), Some e.(embedding), e.(embedding_playerId)))
          (skipn (length (embeddings (store sampleWorld)))
             (embeddings (store (snd (addMemories sampleEnv [sampleDraft] sampleWorld))))) ]
  /\ map embedding_playerId
       (skipn (length (embeddings (store sampleWorld)))
          (embeddings (store (snd (addMemories sampleEnv [sampleDraft] sampleWorld)))))
     = map NewMemory.playerId [sampleDraft].
Proof.
  apply (upserts_mirror_committed_embeddings sampleEnv [sampleDraft] sampleWorld).
  vm_compute. reflexivity.
Defined.

(** X13: for the empty batch [addMemories] asks neither the embedding
    provider nor the language model and leaves the store as it was, but it
    still calls the vector index, with no item. *)
Theorem addMemories_empty_batch env w :
  addMemories env [] w
  = (Ok tt,
     {| store := store w;
        embeddingRequests := embeddingRequests w;
        completionRequests := completionRequests w;
        upserts := upserts w ++ [[]] |}).
Proof.
  destruct w as [s er cr u]. rewrite addMemories_unfold. simpl.
  unfold committed, providerRequests. simpl. rewrite !app_nil_r.
  destruct s; simpl. do 3 f_equal. f_equal. lia.
Qed.
(** ** Replies of one digit *)

(** X14: when the language model answers with one decimal digit, as the
    request asks, the importance is that digit, between 0 and 9. *)
Theorem importance_of_digit_reply c d :
  digitValue c = Some d ->
  importanceOfReply (String c EmptyString) = Number_of_Z (Z.of_N d)
  /\ (d <= 9)%N.
Proof.
  destruct c as [[|] [|] [|] [|] [|] [|] [|] [|]];
    intros H; vm_compute in H; try discriminate H;
    inversion H; subst d; (split; [vm_compute; reflexivity|discriminate]).
Qed.

Lemma importance_of_digit_reply_witness :
  importanceOfReply "7" = Number_of_Z 7 /\ (7 <= 9)%N.
Proof.
  apply (importance_of_digit_reply "7"%char 7%N). reflexivity.
Defined.
(** ** Recent messages *)

Lemma filter_nil_existsb {A} (p : A -> bool) l :
  match filter p l with [] => false | _ :: _ => true end = existsb p l.
Proof.
  induction l as [|a l IH]; simpl; [reflexivity|].
  destruct (p a); [reflexivity|exact IH].
Qed.

(** X15: [getRecentMessages] returns, rather than throws, exactly when the
    player has not spoken since its last conversation memory, or that memory
    is of this conversation, or the journal has a ['talking'] entry of this
    conversation; otherwise it throws the [TypeError] of reading the first of
    no messages. *)
Theorem getRecentMessages_returns_iff env player conversationId lastSpokeTs db :
  match getRecentMessages env player conversationId lastSpokeTs db with
  | Ok _ =>
      notSpokenSince player lastSpokeTs db
      || conversationRemembered player conversationId db
      || hasTalking conversationId db = true
  | Throw e =>
      e = TypeError "_creationTime"
      /\ notSpokenSince player lastSpokeTs db = false
      /\ conversationRemembered player conversationId db = false
      /\ hasTalking conversationId db = false
  end.
Proof.
  unfold getRecentMessages, notSpokenSince, conversationRemembered, hasTalking,
    lastConversationMemory.
  set (last := lastWhere (by_playerId_conversation player) (memories db)).
  set (guard := match lastSpokeTs with
                | Some t => truthy t && _
                | None => false
                end).
  destruct guard; [reflexivity|].
  set (same := match last with
               | Some m => dataConversationIs (data m) conversationId
               | None => false
               end).
  destruct same eqn:S; [reflexivity|]. simpl orb.
  rewrite <- filter_nil_existsb.
  match goal with
  | |- context [filter ?p (journal db)] =>
      replace (filter p (journal db))
        with (filter
                (fun j =>
                   entryConversationIs (entry_data j) conversationId
                   && isTalking (entry_data j))
                (journal db))
        by (apply filter_ext; intros j; now rewrite andb_true_r)
  end.
  destruct (filter _ (journal db)) as [|first rest]; [now repeat split|].
  destruct (lastWhere (fun p => _ && _ && _) (memories db)); reflexivity.
Qed.

(** X16: every message [getRecentMessages] returns is the client message of
    a ['talking'] journal entry of the conversation asked for, and the player
    is its sender or in its audience. *)
Theorem getRecentMessages_of_conversation env player conversationId lastSpokeTs db ms :
  getRecentMessages env player conversationId lastSpokeTs db = Ok ms ->
  Forall
    (fun m =>
       (exists j audience content,
          In j (journal db)
          /\ entry_data j = Talking conversationId audience content
          /\ m = clientMessageMapper env db j)
       /\ (from m = player \/ In player (to m)))
    ms.
Proof.
  unfold getRecentMessages.
  destruct (match lastSpokeTs with Some t => _ | None => false end).
  { intros H. inversion H. constructor. }
  set (allMessages := filter _ (journal db)).
  assert (Hall : forall j, In j allMessages ->
            exists audience content,
              In j (journal db)
              /\ entry_data j = Talking conversationId audience content).
  { intros j Hj. apply filter_In in Hj. destruct Hj as [Hin Hp].
    apply andb_prop in Hp. destruct Hp as [Hp Ht].
    apply andb_prop in Hp. destruct Hp as [Hc _].
    destruct (entry_data j) as [c audience content|]; [|discriminate].
    simpl in Hc. apply N.eqb_eq in Hc. subst c.
    exists audience, content. split; [assumption|reflexivity]. }
  intros H.
  assert (Hms : exists lastMemoryTs,
            ms = filter
                   (fun m =>
                      (lastMemoryTs <? ts m)%float
                      && ((from m =? player)%N
                          || existsb (fun p => (p =? player)%N) (to m)))
                   (map (clientMessageMapper env db) allMessages)).
  { destruct (match lastWhere (by_playerId_conversation player) (memories db) with
              | Some m => dataConversationIs (data m) conversationId
              | None => false
              end).
    - inversion H. eexists. reflexivity.
    - destruct allMessages as [|first rest]; [discriminate|].
      destruct (lastWhere (fun p => _ && _ && _) (memories db));
        inversion H; eexists; reflexivity. }
  destruct Hms as [lastMemoryTs ->]. clear H.
  apply Forall_forall. intros m Hm.
  apply filter_In in Hm. destruct Hm as [Hin Hq].
  apply in_map_iff in Hin. destruct Hin as [j [<- Hj]].
  destruct (Hall j Hj) as [audience [content [Hin Hd]]].
  split.
  - exists j, audience, content. repeat split; assumption.
  - apply andb_prop in Hq. destruct Hq as [_ Hq].
    apply orb_prop in Hq. destruct Hq as [Hq|Hq].
    + left. now apply N.eqb_eq.
    + right. apply existsb_exists in Hq. destruct Hq as [p [Hp Hq]].
      apply N.eqb_eq in Hq. now subst p.
Qed.

Lemma getRecentMessages_of_conversation_witness :
  Forall
    (fun m =>
       (exists j audience content,
          In j (journal (store chattyWorld))
          /\ entry_data j = Talking 40%N audience content
          /\ m = clientMessageMapper sampleEnv (store chattyWorld) j)
       /\ (from m = 7%N \/ In 7%N (to m)))
    [ {| from := 7%N; to := [8%N]; ts := 1699990000000%float;
         message_content := "See you tomorrow" |} ].
Proof.
  apply (getRecentMessages_of_conversation sampleEnv 7%N 40%N None (store chattyWorld)).
  vm_compute. reflexivity.
Defined.

(** ** Remembering a conversation *)

Lemma rememberConversation_unfold env playerName player playerIdentity
    conversationId lastSpokeTs w :
  rememberConversation env playerName player playerIdentity conversationId
    lastSpokeTs w
  = match getRecentMessages env player conversationId lastSpokeTs (store w) with
    | Throw e => (Throw e, w)
    | Ok [] => (Ok false, w)
    | Ok messages =>
        match
          addMemories env
            [conversationDraft env playerName player playerIdentity
               conversationId messages]
            {| store := store w;
               embeddingRequests := embeddingRequests w;
               completionRequests :=
                 completionRequests w
                 ++ [summaryMessages env playerName playerIdentity messages];
               upserts := upserts w |}
        with
        | (Ok _, w') => (Ok true, w')
        | (Throw e, w') => (Throw e, w')
        end
    end.
Proof.
  unfold rememberConversation.
  unfold abind at 1. unfold runQuery at 1.
  destruct (getRecentMessages env player conversationId lastSpokeTs (store w))
    as [[|m ms]|e]; try reflexivity.
Qed.

(** The memory row [rememberConversation] adds when it returns [true]. *)
Lemma rememberConversation_true_row env playerName player playerIdentity
    conversationId lastSpokeTs w :
  fst (rememberConversation env playerName player playerIdentity conversationId
         lastSpokeTs w) = Ok true ->
  exists messages row,
    getRecentMessages env player conversationId lastSpokeTs (store w) = Ok messages
    /\ messages <> []
    /\ memories
         (store
            (snd (rememberConversation env playerName player playerIdentity
                    conversationId lastSpokeTs w)))
       = memories (store w) ++ [row]
    /\ playerId row = player
    /\ data row = ConversationData conversationId
    /\ description row
       = chatGPTCompletion env
           (summaryMessages env playerName playerIdentity messages) 500
    /\ isNaN (importance row) = false
    /\ memory_creationTime row = Date_now env.
Proof.
  rewrite rememberConversation_unfold.
  destruct (getRecentMessages env player conversationId lastSpokeTs (store w))
    as [[|m ms]|e]; try discriminate.
  rewrite addMemories_unfold. cbv zeta.
  destruct (forallb hasEmbedding _); [|discriminate].
  intros _. cbn [snd store committed memories].
  eexists (m :: ms), _. split; [reflexivity|]. split; [discriminate|].
  split; [reflexivity|]. cbn.
  repeat split. apply importanceOfReply_not_NaN.
Qed.

(** X17: what [rememberConversation] has done when it returns.  When it
    returns [true] it has added exactly one memory to the store: a memory of
    the player, of type ['conversation'] for the conversation asked for, whose
    description is the summary the language model gave of the recent
    messages, which were not empty, with an importance that is a number.
    When it returns [false] it has changed nothing at all: it has asked
    nothing of the language model or the embedding provider, and has written
    nothing. *)
Theorem rememberConversation_outcomes env playerName player playerIdentity
    conversationId lastSpokeTs w :
  match rememberConversation env playerName player playerIdentity conversationId
          lastSpokeTs w with
  | (Ok true, w') =>
      exists messages row,
        getRecentMessages env player conversationId lastSpokeTs (store w) = Ok messages
        /\ messages <> []
        /\ memories (store w') = memories (store w) ++ [row]
        /\ playerId row = player
        /\ data row = ConversationData conversationId
        /\ description row
           = chatGPTCompletion env
               (summaryMessages env playerName playerIdentity messages) 500
        /\ isNaN (importance row) = false
  | (Ok false, w') =>
      getRecentMessages env player conversationId lastSpokeTs (store w) = Ok []
      /\ w' = w
  | (Throw _, _) => True
  end.
Proof.
  pose proof (rememberConversation_true_row env playerName player playerIdentity
                conversationId lastSpokeTs w) as Htrue.
  revert Htrue. rewrite rememberConversation_unfold.
  destruct (getRecentMessages env player conversationId lastSpokeTs (store w))
    as [[|m ms]|e]; intros Htrue; try exact I; try (split; reflexivity).
  revert Htrue. rewrite addMemories_unfold. cbv zeta.
  destruct (forallb hasEmbedding _); [|intros _; exact I].
  intros Htrue. destruct (Htrue eq_refl) as (messages & row & H).
  exists messages, row. tauto.
Qed.

(** X18: once [rememberConversation] has returned [true] for a player, a
    further call for the same player, for whatever conversation, with a
    [lastSpokeTs] that is not 0 and is before the time of the first call,
    returns [false] and changes nothing: the memory just made is the
    player's most recent conversation memory. *)
Theorem rememberConversation_again env playerName player playerIdentity
    conversationId lastSpokeTs w playerName' playerIdentity' conversationId' t :
  fst (rememberConversation env playerName player playerIdentity conversationId
         lastSpokeTs w) = Ok true ->
  truthy t = true ->
  (t <? Date_now env)%float = true ->
  let w' := snd (rememberConversation env playerName player playerIdentity
                   conversationId lastSpokeTs w) in
  rememberConversation env playerName' player playerIdentity' conversationId'
    (Some t) w' = (Ok false, w').
Proof.
  intros Htrue Ht Hlt w'.
  destruct (rememberConversation_true_row _ _ _ _ _ _ _ Htrue)
    as [messages [row [_ [_ [Hmem [Hp [Hd [_ [_ Hnow]]]]]]]]].
  apply (rememberConversation_not_spoken_since _ _ _ _ _ _ _ row);
    [|assumption|now rewrite Hnow].
  unfold w'. rewrite Hmem. apply lastWhere_app_last.
  unfold by_playerId_conversation. rewrite Hp, Hd. cbn.
  now rewrite N.eqb_refl.
Qed.

Lemma rememberConversation_again_witness :
  let w' := snd (rememberConversation sampleEnv "Alice" 7%N "a gardener" 40%N
                   None chattyWorld) in
  rememberConversation sampleEnv "Bob" 7%N "a baker" 41%N
    (Some 1699990000000%float) w' = (Ok false, w').
Proof.
  apply (rememberConversation_again sampleEnv "Alice" 7%N "a gardener" 40%N None
           chattyWorld "Bob" "a baker" 41%N 1699990000000%float);
    vm_compute; reflexivity.
Defined.

(** ** The range of a signal *)

Lemma ord_zero x : PrimFloat.is_zero x = true -> ord x = 0.
Proof.
  intros H. apply is_zero_spec in H. destruct H as [s H].
  unfold ord. now rewrite H.
Qed.

Lemma Math_min_step acc v :
  isNaN acc = false -> isNaN v = false ->
  let r := if isNaN acc || isNaN v then NaN
           else if is_neg_zero v && is_pos_zero acc then v
           else if (v <? acc)%float then v else acc in
  isNaN r = false /\ ord r <= ord acc /\ ord r <= ord v /\ (r = acc \/ r = v).
Proof.
  intros Ha Hv. rewrite Ha, Hv. cbn [orb].
  destruct (is_neg_zero v && is_pos_zero acc) eqn:Z.
  - apply andb_prop in Z. destruct Z as [Z1 Z2].
    unfold is_neg_zero in Z1. unfold is_pos_zero in Z2.
    apply andb_prop in Z1. apply andb_prop in Z2.
    destruct Z1 as [Z1 _]. destruct Z2 as [Z2 _].
    rewrite (ord_zero _ Z1), (ord_zero _ Z2).
    cbv zeta. repeat split; try lia; auto.
  - rewrite (ltb_ord _ _ Hv Ha).
    destruct (Z.ltb_spec (ord v) (ord acc)); cbv zeta; repeat split; try lia; auto.
Qed.

Lemma Math_max_step acc v :
  isNaN acc = false -> isNaN v = false ->
  let r := if isNaN acc || isNaN v then NaN
           else if is_pos_zero v && is_neg_zero acc then v
           else if (acc <? v)%float then v else acc in
  isNaN r = false /\ ord acc <= ord r /\ ord v <= ord r /\ (r = acc \/ r = v).
Proof.
  intros Ha Hv. rewrite Ha, Hv. cbn [orb].
  destruct (is_pos_zero v && is_neg_zero acc) eqn:Z.
  - apply andb_prop in Z. destruct Z as [Z1 Z2].
    unfold is_pos_zero in Z1. unfold is_neg_zero in Z2.
    apply andb_prop in Z1. apply andb_prop in Z2.
    destruct Z1 as [Z1 _]. destruct Z2 as [Z2 _].
    rewrite (ord_zero _ Z1), (ord_zero _ Z2).
    cbv zeta. repeat split; try lia; auto.
  - rewrite (ltb_ord _ _ Ha Hv).
    destruct (Z.ltb_spec (ord acc) (ord v)); cbv zeta; repeat split; try lia; auto.
Qed.

Lemma Math_min_fold values : forall acc,
  isNaN acc = false -> existsb isNaN values = false ->
  let r := fold_left
             (fun lowest v =>
                if isNaN lowest || isNaN v then NaN
                else if is_neg_zero v && is_pos_zero lowest then v
                else if (v <? lowest)%float then v else lowest)
             values acc in
  isNaN r = false /\ ord r <= ord acc
  /\ Forall (fun v => ord r <= ord v) values
  /\ (r = acc \/ In r values).
Proof.
  induction values as [|v values IH]; intros acc Ha Hn; cbn [fold_left].
  - cbv zeta. repeat split; auto. lia.
  - simpl in Hn. apply orb_false_elim in Hn. destruct Hn as [Hv Hn].
    destruct (Math_min_step acc v Ha Hv) as [Hr [H1 [H2 H3]]].
    cbv zeta in Hr, H1, H2, H3.
    destruct (IH _ Hr Hn) as [Hr' [H1' [H2' H3']]]. cbv zeta in Hr', H1', H2', H3'.
    cbv zeta. repeat split.
    + exact Hr'.
    + lia.
    + constructor; [lia|exact H2'].
    + destruct H3' as [E|H3']; [|right; now right].
      rewrite E. destruct H3 as [E'|E']; [left; exact E'|right; left; now rewrite E'].
Qed.

Lemma Math_max_fold values : forall acc,
  isNaN acc = false -> existsb isNaN values = false ->
  let r := fold_left
             (fun highest v =>
                if isNaN highest || isNaN v then NaN
                else if is_pos_zero v && is_neg_zero highest then v
                else if (highest <? v)%float then v else highest)
             values acc in
  isNaN r = false /\ ord acc <= ord r
  /\ Forall (fun v => ord v <= ord r) values
  /\ (r = acc \/ In r values).
Proof.
  induction values as [|v values IH]; intros acc Ha Hn; cbn [fold_left].
  - cbv zeta. repeat split; auto. lia.
  - simpl in Hn. apply orb_false_elim in Hn. destruct Hn as [Hv Hn].
    destruct (Math_max_step acc v Ha Hv) as [Hr [H1 [H2 H3]]].
    cbv zeta in Hr, H1, H2, H3.
    destruct (IH _ Hr Hn) as [Hr' [H1' [H2' H3']]]. cbv zeta in Hr', H1', H2', H3'.
    cbv zeta. repeat split.
    + exact Hr'.
    + lia.
    + constructor; [lia|exact H2'].
    + destruct H3' as [E|H3']; [|right; now right].
      rewrite E. destruct H3 as [E'|E']; [left; exact E'|right; left; now rewrite E'].
Qed.

Lemma ord_Infinity : ord Infinity = 2 ^ 2200.
Proof. reflexivity. Qed.

Lemma ord_neg_infinity : ord PrimFloat.neg_infinity = - 2 ^ 2200.
Proof. reflexivity. Qed.

(** X19: for values without [NaN], the two ends [makeRange] returns are
    numbers that bound every value, the first from below and the second from
    above; when there is at least one value, both ends are among the
    values. *)
Theorem makeRange_bounds values :
  existsb isNaN values = false ->
  Forall
    (fun v =>
       (fst (makeRange values) <=? v)%float = true
       /\ (v <=? snd (makeRange values))%float = true)
    values
  /\ (values <> [] ->
      In (fst (makeRange values)) values /\ In (snd (makeRange values)) values).
Proof.
  intros Hn. unfold makeRange. cbn [fst snd].
  assert (Hmin : isNaN (Math_min values) = false
                 /\ ord (Math_min values) <= ord Infinity
                 /\ Forall (fun v => ord (Math_min values) <= ord v) values
                 /\ (Math_min values = Infinity \/ In (Math_min values) values))
    by exact (Math_min_fold values Infinity eq_refl Hn).
  assert (Hmax : isNaN (Math_max values) = false
                 /\ ord PrimFloat.neg_infinity <= ord (Math_max values)
                 /\ Forall (fun v => ord v <= ord (Math_max values)) values
                 /\ (Math_max values = PrimFloat.neg_infinity
                     \/ In (Math_max values) values))
    by exact (Math_max_fold values PrimFloat.neg_infinity eq_refl Hn).
  destruct Hmin as [Hr [H1 [H2 H3]]]. destruct Hmax as [Hr' [H1' [H2' H3']]].
  set (mn := Math_min values) in *. set (mx := Math_max values) in *.
  assert (Hvals : forall v, In v values -> isNaN v = false).
  { intros v Hv. destruct (isNaN v) eqn:E; [|reflexivity].
    assert (existsb isNaN values = true) by (apply existsb_exists; eauto).
    congruence. }
  split.
  - rewrite Forall_forall in *. intros v Hv.
    rewrite (leb_ord _ _ Hr (Hvals v Hv)), (leb_ord _ _ (Hvals v Hv) Hr').
    split; apply Z.leb_le; auto.
  - intros Hne. destruct values as [|v values]; [congruence|].
    split.
    + destruct H3 as [E|H3]; [|exact H3].
      left. inversion H2 as [|? ? Hv _]. subst.
      rewrite E, ord_Infinity in Hv.
      apply Prim2SF_inj.
      rewrite (proj1 (ord_infinity v (Hvals v (or_introl eq_refl))) Hv).
      rewrite E. reflexivity.
    + destruct H3' as [E|H3']; [|exact H3'].
      left. inversion H2' as [|? ? Hv _]. subst.
      rewrite E, ord_neg_infinity in Hv.
      apply Prim2SF_inj.
      rewrite (proj2 (ord_infinity v (Hvals v (or_introl eq_refl))) Hv).
      rewrite E. reflexivity.
Qed.

Lemma makeRange_bounds_witness :
  Forall
    (fun v =>
       (fst (makeRange [3%float; 1%float; 2%float]) <=? v)%float = true
       /\ (v <=? snd (makeRange [3%float; 1%float; 2%float]))%float = true)
    [3%float; 1%float; 2%float]
  /\ ([3%float; 1%float; 2%float] <> [] ->
      In (fst (makeRange [3%float; 1%float; 2%float])) [3%float; 1%float; 2%float]
      /\ In (snd (makeRange [3%float; 1%float; 2%float])) [3%float; 1%float; 2%float]).
Proof.
  apply (makeRange_bounds [3%float; 1%float; 2%float]). reflexivity.
Defined.

(** ** The interact button *)

(** X20: whenever the component renders the button (and not the sign-in
    button), the world is loaded, the user is authenticated, and a click on
    it calls one mutation for that world: [leave] under the label "Leave"
    when the user has a player in the world, [join] under the label
    "Interact" when the user has none.  The early [return] of
    [joinOrLeaveGame] is never reached from the rendered button. *)
Theorem rendered_button_joins_or_leaves h label click :
  InteractButton.render h = InteractButton.Button label click ->
  exists worldId,
    InteractButton.world h = InteractButton.Value (Some worldId)
    /\ InteractButton.isAuthenticated h = true
    /\ ((exists player,
           InteractButton.userStatus h worldId = InteractButton.Value (Some player)
           /\ label = "Leave" /\ click = InteractButton.Leave worldId)
        \/ (InteractButton.userStatus h worldId = InteractButton.Value None
            /\ label = "Interact" /\ click = InteractButton.Join worldId)).
Proof.
  destruct h as [auth world userStatus].
  unfold InteractButton.render, InteractButton.joinOrLeaveGame,
    InteractButton.isPlaying, InteractButton.userPlayerId.
  cbn [InteractButton.world InteractButton.isAuthenticated InteractButton.userStatus].
  destruct world as [|[worldId|]]; try discriminate.
  destruct (userStatus worldId) as [|[player|]] eqn:U; try discriminate;
    destruct auth; cbn; try discriminate; intros H; inversion H; subst;
    exists worldId; repeat split.
  - left. exists player. repeat split. exact U.
  - right. repeat split. exact U.
Qed.

Lemma rendered_button_joins_or_leaves_witness :
  exists worldId,
    InteractButton.world
      {| InteractButton.isAuthenticated := true;
         InteractButton.world := InteractButton.Value (Some 1%N);
         InteractButton.userStatus := fun _ => InteractButton.Value None |}
    = InteractButton.Value (Some worldId)
    /\ InteractButton.isAuthenticated
         {| InteractButton.isAuthenticated := true;
            InteractButton.world := InteractButton.Value (Some 1%N);
            InteractButton.userStatus := fun _ => InteractButton.Value None |}
       = true
    /\ ((exists player,
           InteractButton.userStatus
             {| InteractButton.isAuthenticated := true;
                InteractButton.world := InteractButton.Value (Some 1%N);
                InteractButton.userStatus := fun _ => InteractButton.Value None |}
             worldId = InteractButton.Value (Some player)
           /\ "Interact" = "Leave" /\ InteractButton.Join 1%N = InteractButton.Leave worldId)
        \/ (InteractButton.userStatus
              {| InteractButton.isAuthenticated := true;
                 InteractButton.world := InteractButton.Value (Some 1%N);
                 InteractButton.userStatus := fun _ => InteractButton.Value None |}
              worldId = InteractButton.Value None
            /\ "Interact" = "Interact"
            /\ InteractButton.Join 1%N = InteractButton.Join worldId)).
Proof.
  apply (rendered_button_joins_or_leaves
           {| InteractButton.isAuthenticated := true;
              InteractButton.world := InteractButton.Value (Some 1%N);
              InteractButton.userStatus := fun _ => InteractButton.Value None |}
           "Interact" (InteractButton.Join 1%N)).
  reflexivity.
Defined.

(** X21: a click does nothing exactly when the sign-in button is what is
    rendered: the guard of [joinOrLeaveGame] and the guard of the sign-in
    branch agree on every state of the hooks. *)
Theorem click_is_idle_iff_sign_in h :
  InteractButton.joinOrLeaveGame h = InteractButton.Nothing
  <-> InteractButton.render h = InteractButton.SignInButton.
Proof.
  destruct h as [auth world userStatus].
  unfold InteractButton.render, InteractButton.joinOrLeaveGame,
    InteractButton.isPlaying, InteractButton.userPlayerId.
  cbn [InteractButton.world InteractButton.isAuthenticated InteractButton.userStatus].
  destruct world as [|[worldId|]]; try (split; reflexivity).
  destruct (userStatus worldId) as [|[player|]]; destruct auth; cbn;
    split; intros H; try reflexivity; discriminate.
Qed.

(** ** Retrieval before any access *)

Lemma lastWhere_not_found {A} (p : A -> bool) l :
  existsb p l = false -> lastWhere p l = None.
Proof.
  intros H. destruct (lastWhere p l) as [a|] eqn:E; [|reflexivity].
  apply lastWhere_Some in E. destruct E as [Hin Hp].
  assert (existsb p l = true) by (apply existsb_exists; eauto). congruence.
Qed.

Lemma map_memory_scoredOf candidates related rs :
  length candidates = length related -> length rs = length related ->
  map memory (scoredOf candidates related rs) = related.
Proof.
  unfold scoredOf. rewrite map_map. cbn [memory].
  revert candidates rs. induction related as [|m related IH];
    intros [|c candidates] [|r rs]; simpl; try discriminate; try reflexivity.
  intros H1 H2. f_equal. apply IH; lia.
Qed.

Lemma makeRange_ones n : makeRange (repeat 1%float (S n)) = (1%float, 1%float).
Proof.
  unfold makeRange, Math_min, Math_max. cbn [repeat fold_left].
  change (if isNaN Infinity || isNaN 1 then NaN
          else if is_neg_zero 1 && is_pos_zero Infinity then 1
          else if (1 <? Infinity)%float then 1 else Infinity)%float with 1%float.
  change (if isNaN neg_infinity || isNaN 1 then NaN
          else if is_pos_zero 1 && is_neg_zero neg_infinity then 1
          else if (neg_infinity <? 1)%float then 1 else neg_infinity)%float with 1%float.
  induction n as [|n IH]; [reflexivity|]. cbn [repeat fold_left]. exact IH.
Qed.

(** The recency signals of memories without access row. *)
Lemma recency_never_accessed ts db related rs :
  Forall (fun m => existsb (by_memoryId m.(memory_id)) (memoryAccesses db) = false)
    related ->
  Forall2 (fun m r => recencyOf ts m db = Ok r) related rs ->
  rs = repeat 1%float (length related).
Proof.
  intros Hn H. induction H as [|m r related rs Hr H IH]; [reflexivity|].
  inversion Hn as [|? ? Hm Hn']; subst. simpl. f_equal; [|now apply IH].
  rewrite (recency_without_access ts m db (lastWhere_not_found _ _ Hm)) in Hr.
  now inversion Hr.
Qed.

(** X23: when none of the candidates has been accessed before, as on the
    first retrieval of a player, every composite score is [NaN] (each recency
    signal is 1, and the range (1, 1) normalizes to [NaN]); the scored
    candidates are the candidates of the vector query, in its order, and the
    internal mutation [accessMemories] returns what [slice(0, count)] keeps
    of them in that order, whatever their relevance and importance. *)
Theorem never_accessed_keeps_vector_order now player candidates count db scored :
  memoryScores now player candidates db = Ok (scored, db) ->
  Forall
    (fun s => existsb (by_memoryId s.(memory).(memory_id)) (memoryAccesses db) = false)
    scored ->
  Forall (fun s => isNaN s.(overallScore) = true) scored
  /\ map (fun s => s.(memory).(embeddingId)) scored = map candidate_id candidates
  /\ exists db',
       accessMemories_handler now player candidates count db
       = Ok (Array_slice0 scored count, db').
Proof.
  intros Hs Hn.
  destruct (memoryScores_Ok _ _ _ _ _ _ Hs) as (_ & related & rs & G & R & E).
  assert (Hl1 : length candidates = length related).
  { apply getMemories_Ok, Forall2_length in G. now rewrite length_map in G. }
  assert (Hl2 : length rs = length related) by (symmetry; now apply Forall2_length in R).
  assert (Hm : map memory scored = related)
    by (rewrite E; now apply map_memory_scoredOf).
  assert (Hrs : rs = repeat 1%float (length related)).
  { apply (recency_never_accessed now db); [|exact R].
    rewrite <- Hm. rewrite Forall_map. exact Hn. }
  assert (HN : Forall (fun s => isNaN s.(overallScore) = true) scored).
  { rewrite E. unfold scoredOf. apply Forall_forall. intros s Hin.
    apply in_map_iff in Hin. destruct Hin as ([[c m] r] & <- & Hin).
    cbn [overallScore snd fst]. apply isNaN_add_r.
    assert (Hr : In r rs) by (apply in_combine_r in Hin; exact Hin).
    rewrite Hrs in Hr |- *. apply repeat_spec in Hr. subst r.
    destruct (length related) as [|n]; [apply in_combine_r in Hin; rewrite Hrs in Hin; destruct Hin|].
    rewrite makeRange_ones. apply normalize_same_is_NaN. }
  split; [exact HN|]. split.
  - rewrite <- (map_map memory embeddingId), Hm.
    apply getMemories_Ok in G. clear - G.
    remember (map candidate_id candidates) as ids. clear Heqids.
    induction G as [|id m ids ms Hh G IH]; [reflexivity|]. simpl. f_equal; [|exact IH].
    unfold hydrate in Hh. apply lastWhere_Some in Hh. destruct Hh as [_ Hp].
    unfold by_playerId_embeddingId in Hp. apply andb_prop in Hp.
    destruct Hp as [_ Hp]. now apply N.eqb_eq in Hp.
  - assert (Hk : Array_sort byScoreDescending scored = scored).
    { apply Array_sort_keeps_order. intros x y Hx Hy. unfold byScoreDescending.
      apply ltb_NaN_r, isNaN_sub_l. rewrite Forall_forall in HN. now apply HN. }
    unfold accessMemories_handler. unfold mbind at 1. rewrite Hs, Hk.
    destruct (insertMemoryAccess_all now (Array_slice0 scored count) db) as [ids Hids].
    unfold mbind. rewrite Hids. eexists. reflexivity.
Qed.

Lemma never_accessed_keeps_vector_order_witness :
  Forall (fun s => isNaN s.(overallScore) = true) closeScored
  /\ map (fun s => s.(memory).(embeddingId)) closeScored
     = map candidate_id closeCandidates
  /\ exists db',
       accessMemories_handler sampleNow 7%N closeCandidates 2 neverAccessedStore
       = Ok (Array_slice0 closeScored 2, db').
Proof.
  apply (never_accessed_keeps_vector_order sampleNow 7%N closeCandidates 2
           neverAccessedStore closeScored).
  - vm_compute. reflexivity.
  - repeat (constructor; [reflexivity|]). constructor.
Defined.
